(** * MilongaApp: the playlist assembly engine of agent/generate.js and agent/dj-lib.js

    A shallow embedding of the planning code (identity normalisation, duration
    parsing, Camelot distance, the tanda planner with its retry ladder, the
    NDJSON streaming route and the replacement route) together with the
    properties the design document states about it.

    Conventions of the embedding.
    - A JavaScript string is the list of its UTF-16 code units ([jsstring]).
      [toLowerCase] folds the ASCII letters only, so the statements about
      case variants speak of strings that differ in the case of ASCII
      letters.
    - A finite JavaScript number is the rational it denotes ([Q]); arithmetic
      is exact.  Non-finite numbers are a separate constructor of [jsval].
    - [null] and [undefined] are [None]; an absent object is [None].
    - The language model behind the agents is an arbitrary function of the
      call index ([TandaOracle], [Collaborators]); its answers are validated
      as the zod schemas do.
    - The streaming and replacement routes start from the working set, the
      library entries that the request's catalog selects. *)

From Stdlib Require Import String Ascii.
From Stdlib Require Import List ZArith NArith QArith Qround Qabs Lia Lqa Bool Permutation.
Import ListNotations.

Local Open Scope bool_scope.

(* ------------------------------------------------------------------ *)
(** ** JavaScript strings *)
(* ------------------------------------------------------------------ *)

Module JsString.

Local Open Scope N_scope.

Definition jsstring := list N.

(** A string literal of the source, as code units. *)
Definition js (s : string) : jsstring :=
  map N_of_ascii (list_ascii_of_string s).

Fixpoint jseqb (a b : jsstring) : bool :=
  match a, b with
  | [], [] => true
  | x :: a', y :: b' => (x =? y) && jseqb a' b'
  | _, _ => false
  end.

Definition jsstring_eq_dec (a b : jsstring) : {a = b} + {a <> b} :=
  list_eq_dec N.eq_dec a b.

(** Membership of a string in an array of strings ([Array.prototype.includes]). *)
Definition includesStr (l : list jsstring) (s : jsstring) : bool :=
  existsb (jseqb s) l.

(** WhiteSpace and LineTerminator code points (ECMA-262, used by [trim] and
    by [\s] in regular expressions). *)
Definition isLineTerminator (c : N) : bool :=
  (c =? 10) || (c =? 13) || (c =? 8232) || (c =? 8233).

Definition isWhiteSpace (c : N) : bool :=
  (c =? 9) || (c =? 11) || (c =? 12) || (c =? 32) || (c =? 160) ||
  (c =? 5760) || ((8192 <=? c) && (c <=? 8202)) || (c =? 8239) ||
  (c =? 8287) || (c =? 12288) || (c =? 65279) || isLineTerminator c.

Fixpoint dropWhile {A} (p : A -> bool) (l : list A) : list A :=
  match l with
  | [] => []
  | x :: r => if p x then dropWhile p r else l
  end.

Definition trimStart (s : jsstring) : jsstring := dropWhile isWhiteSpace s.
Definition trimEnd (s : jsstring) : jsstring := rev (dropWhile isWhiteSpace (rev s)).
Definition trim (s : jsstring) : jsstring := trimEnd (trimStart s).

(** ASCII case folding. *)
Definition lowerUnit (c : N) : N :=
  if (65 <=? c) && (c <=? 90) then c + 32 else c.

Definition toLowerCase (s : jsstring) : jsstring := map lowerUnit s.

Definition isAscii (s : jsstring) : Prop := Forall (fun c => c < 128) s.

(** [s.startsWith(p)] and its case-insensitive form (a regular expression
    literal [/^p/i] whose pattern is plain ASCII text). *)
Fixpoint startsWith (p s : jsstring) : bool :=
  match p, s with
  | [], _ => true
  | x :: p', y :: s' => (x =? y) && startsWith p' s'
  | _ :: _, [] => false
  end.

Fixpoint startsWithCI (p s : jsstring) : bool :=
  match p, s with
  | [], _ => true
  | x :: p', y :: s' => (lowerUnit x =? lowerUnit y) && startsWithCI p' s'
  | _ :: _, [] => false
  end.

(** [hay.includes(needle)]. *)
Fixpoint includes (hay needle : jsstring) : bool :=
  startsWith needle hay ||
  match hay with
  | [] => false
  | _ :: r => includes r needle
  end.

(** [s.split(sep)] for a one-unit separator. *)
Fixpoint splitOn (sep : N) (s : jsstring) : list jsstring :=
  match s with
  | [] => [[]]
  | c :: r =>
      if c =? sep then [] :: splitOn sep r
      else match splitOn sep r with
           | [] => [[c]]
           | h :: t => (c :: h) :: t
           end
  end.

(** [parts.join(" ")]. *)
Fixpoint join (sep : jsstring) (parts : list jsstring) : jsstring :=
  match parts with
  | [] => []
  | [p] => p
  | p :: r => p ++ sep ++ join sep r
  end.

Definition isDigit (c : N) : bool := (48 <=? c) && (c <=? 57).
Definition isAlnum (c : N) : bool :=
  isDigit c || ((97 <=? c) && (c <=? 122)) || ((65 <=? c) && (c <=? 90)).

End JsString.
Export JsString.

(* ------------------------------------------------------------------ *)
(** ** Camelot keys (generate.js: CAMELOT_ORDER, camelotDistance) *)
(* ------------------------------------------------------------------ *)

Module Camelot.

Definition CAMELOT_ORDER : list jsstring :=
  map js
    ["1A"; "2A"; "3A"; "4A"; "5A"; "6A"; "7A"; "8A"; "9A"; "10A"; "11A"; "12A";
     "1B"; "2B"; "3B"; "4B"; "5B"; "6B"; "7B"; "8B"; "9B"; "10B"; "11B"; "12B"]%string.

(** [arr.indexOf(k)]: the first position of [k], or [-1]. *)
Fixpoint indexOf (l : list jsstring) (k : jsstring) : Z :=
  match l with
  | [] => -1
  | x :: r =>
      if jseqb x k then 0
      else let i := indexOf r k in
           if (i <? 0)%Z then -1 else (i + 1)%Z
  end.

(** A key argument is [null] ([None]) or a string; the empty string is falsy. *)
Definition falsyStr (k : option jsstring) : bool :=
  match k with
  | None => true
  | Some [] => true
  | Some _ => false
  end.

Definition camelotDistance (k1 k2 : option jsstring) : Z :=
  match k1, k2 with
  | Some a, Some b =>
      if falsyStr k1 || falsyStr k2 then 99
      else
        let i := indexOf CAMELOT_ORDER a in
        let j := indexOf CAMELOT_ORDER b in
        if ((i <? 0) || (j <? 0))%Z then 99
        else let diff := Z.abs (i - j) in Z.min diff (24 - diff)
  | _, _ => 99
  end.

Definition validKey (k : jsstring) : Prop := In k CAMELOT_ORDER.

End Camelot.
Export Camelot.

(* ------------------------------------------------------------------ *)
(** ** JavaScript numbers and loosely typed field values *)
(* ------------------------------------------------------------------ *)

Module JsNumber.

(** The value of a loosely typed field of a track record. *)
Inductive jsval :=
| VNull                 (* null or undefined *)
| VNum (q : Q)          (* a finite number *)
| VNonFinite            (* NaN, Infinity or -Infinity *)
| VStr (s : jsstring).

(** [Math.round]: the nearest integer, ties towards plus infinity. *)
Definition Math_round (q : Q) : Q := inject_Z (Qfloor (q + (1 # 2))).

Definition Qltb (a b : Q) : bool := negb (Qle_bool b a).

(** [a || b] on numbers: 0 is falsy. *)
Definition orNum (a b : Q) : Q := if Qeq_bool a 0 then b else a.

Fixpoint digitsValue (acc : N) (s : jsstring) : N :=
  match s with
  | [] => acc
  | c :: r => digitsValue (10 * acc + (c - 48)) r
  end.

(** [\d+] *)
Definition allDigits (s : jsstring) : bool :=
  match s with
  | [] => false
  | _ => forallb isDigit s
  end.

Definition decimalValue (ip fp : jsstring) : Q :=
  inject_Z (Z.of_N (digitsValue 0 (ip ++ fp))) /
  inject_Z (Z.of_N (10 ^ N.of_nat (List.length fp))).

(** [/^\d+(\.\d+)?$/.test(s)] followed by [parseFloat(s)]. *)
Definition plainDecimal (s : jsstring) : option Q :=
  match splitOn 46 s with
  | [ip] => if allDigits ip then Some (decimalValue ip []) else None
  | [ip; fp] =>
      if allDigits ip && allDigits fp then Some (decimalValue ip fp) else None
  | _ => None
  end.

Fixpoint span {A} (p : A -> bool) (l : list A) : list A * list A :=
  match l with
  | [] => ([], [])
  | x :: r =>
      if p x then let (a, b) := span p r in (x :: a, b) else ([], l)
  end.

Definition digitOfBase (base c : N) : option N :=
  let d :=
    if isDigit c then Some (c - 48)%N
    else if ((97 <=? c) && (c <=? 102))%N then Some (c - 87)%N
    else if ((65 <=? c) && (c <=? 70))%N then Some (c - 55)%N
    else None in
  match d with
  | Some v => if (v <? base)%N then Some v else None
  | None => None
  end.

Fixpoint radixValue (base acc : N) (s : jsstring) : option N :=
  match s with
  | [] => Some acc
  | c :: r =>
      match digitOfBase base c with
      | Some d => radixValue base (acc * base + d) r
      | None => None
      end
  end.

(** Doubles at or beyond this magnitude round to an infinity. *)
Definition MAX_FINITE : Q := inject_Z (2 ^ 1024 - 2 ^ 970).

Definition finiteOrNaN (q : Q) : option Q :=
  if Qle_bool MAX_FINITE (Qabs q) then None else Some q.

Definition radixLiteral (base : N) (s : jsstring) : option Q :=
  match s with
  | [] => None
  | _ =>
      match radixValue base 0 s with
      | Some n => finiteOrNaN (inject_Z (Z.of_N n))
      | None => None
      end
  end.

(** The digits after [e] or [E], with their optional sign. *)
Definition exponentPart (s : jsstring) : option Z :=
  let '(neg, ds) :=
    match s with
    | 43%N :: r => (false, r)
    | 45%N :: r => (true, r)
    | _ => (false, s)
    end in
  if allDigits ds then
    Some (if neg then (- Z.of_N (digitsValue 0 ds))%Z else Z.of_N (digitsValue 0 ds))
  else None.

(** StrUnsignedDecimalLiteral without [Infinity]. *)
Definition unsignedDecimal (s : jsstring) : option Q :=
  let '(ip, r1) := span isDigit s in
  let '(fp, r2) :=
    match r1 with
    | 46%N :: r => span isDigit r
    | _ => ([], r1)
    end in
  match ip, fp with
  | [], [] => None
  | _, _ =>
      let m := decimalValue ip fp in
      match r2 with
      | [] => finiteOrNaN m
      | e :: r3 =>
          if ((e =? 101) || (e =? 69))%N then
            match exponentPart r3 with
            | Some k => finiteOrNaN (m * Qpower (inject_Z 10) k)
            | None => None
            end
          else None
      end
  end.

(** [Number(s)] for a string [s]; [None] stands for a result that is not
    finite (NaN or an infinity), which is all the callers distinguish. *)
Definition StringToNumber (s : jsstring) : option Q :=
  match trim s with
  | [] => Some 0
  | 43%N :: r => unsignedDecimal r
  | 45%N :: r => option_map Qopp (unsignedDecimal r)
  | 48%N :: x :: r =>
      if ((x =? 120) || (x =? 88))%N then radixLiteral 16 r
      else if ((x =? 111) || (x =? 79))%N then radixLiteral 8 r
      else if ((x =? 98) || (x =? 66))%N then radixLiteral 2 r
      else unsignedDecimal (48%N :: x :: r)
  | t => unsignedDecimal t
  end.

(** [Number(v)] for a field value that is not null. *)
Definition NumberOf (v : jsval) : option Q :=
  match v with
  | VNull => None
  | VNum q => Some q
  | VNonFinite => None
  | VStr s => StringToNumber s
  end.

Fixpoint allFinite (l : list (option Q)) : option (list Q) :=
  match l with
  | [] => Some []
  | Some q :: r => option_map (cons q) (allFinite r)
  | None :: _ => None
  end.

End JsNumber.
Export JsNumber.
(* ------------------------------------------------------------------ *)
(** ** Track records (the duck-typed library entries) *)
(* ------------------------------------------------------------------ *)

Module Tracks.

(** [t.file] *)
Record TrackFile := {
  f_id : option jsstring;
  f_absPath : option jsstring;
  f_path : option jsstring;
  f_fullPath : option jsstring
}.

(** [tags.genre] is a string, an array of strings, or absent. *)
Inductive genreField :=
| GAbsent
| GOne (g : jsstring)
| GMany (gs : list jsstring).

(** The fields of a library entry that the planner reads.  A field of an
    absent sub-object ([t.tags], [t.metadata], [t.audio], [t.format]) is
    absent. *)
Record Track := {
  t_id : option jsstring;
  t_path : option jsstring;
  t_uri : option jsstring;
  t_file : option TrackFile;
  t_title : option jsstring;
  t_artist : option jsstring;
  t_album : option jsstring;
  t_year : jsval;
  t_styles : option (list jsstring);          (* [Some] when an array *)
  t_placeholder : bool;
  t_duration : jsval;
  t_durationMs : jsval;
  t_durationSec : jsval;
  t_length : jsval;
  audio_duration : jsval;
  format_durationSec : jsval;
  tags_title : option jsstring;
  tags_artist : option jsstring;
  tags_album : option jsstring;
  tags_genre : genreField;
  tags_year : jsval;
  tags_recordingYear : jsval;
  tags_originalYear : jsval;
  tags_durationSec : jsval;
  metadata_artist : option jsstring;
  metadata_year : jsval;
  metadata_recordingYear : jsval;
  metadata_originalYear : jsval
}.

(** [a ?? b] *)
Definition nullish {A} (a b : option A) : option A :=
  match a with
  | Some _ => a
  | None => b
  end.

(** [a || b] on strings: the empty string is falsy. *)
Definition orStr (a b : option jsstring) : option jsstring :=
  match a with
  | Some (_ :: _) => a
  | _ => b
  end.

Definition truthyStr (a : option jsstring) : bool :=
  match a with
  | Some (_ :: _) => true
  | _ => false
  end.

(** [a ?? b] on field values. *)
Definition nullishVal (a b : jsval) : jsval :=
  match a with
  | VNull => b
  | _ => a
  end.

Definition getAbsolutePath (file : option TrackFile) : option jsstring :=
  match file with
  | None => None
  | Some f => orStr (f_absPath f) (orStr (f_path f) (f_fullPath f))
  end.

Definition getId (t : Track) : option jsstring :=
  nullish (t_id t)
    (nullish (match t_file t with Some f => f_id f | None => None end)
       (nullish (getAbsolutePath (t_file t))
          (nullish (t_path t) (t_uri t)))).

(** [(t?.artist ?? t?.tags?.artist ?? t?.metadata?.artist ?? "Unknown").trim()] *)
Definition orchestraOf (t : Track) : jsstring :=
  match nullish (t_artist t) (nullish (tags_artist t) (metadata_artist t)) with
  | Some a => trim a
  | None => trim (js "Unknown")
  end.

(** [Array.isArray(g) ? g : g ? [g] : []] for [g = t?.tags?.genre]. *)
Definition genreArray (t : Track) : list jsstring :=
  match tags_genre t with
  | GMany gs => gs
  | GOne (c :: g) => [c :: g]
  | GOne [] => []
  | GAbsent => []
  end.

(** The object pushed by the routes when a tanda falls short:
    [{ placeholder: true, style, title: "replace this" }]. *)
Definition placeholderTrack : Track := {|
  t_id := None; t_path := None; t_uri := None; t_file := None;
  t_title := Some (js "replace this"); t_artist := None; t_album := None;
  t_year := VNull; t_styles := None; t_placeholder := true;
  t_duration := VNull; t_durationMs := VNull; t_durationSec := VNull;
  t_length := VNull; audio_duration := VNull; format_durationSec := VNull;
  tags_title := None; tags_artist := None; tags_album := None;
  tags_genre := GAbsent; tags_year := VNull; tags_recordingYear := VNull;
  tags_originalYear := VNull; tags_durationSec := VNull;
  metadata_artist := None; metadata_year := VNull;
  metadata_recordingYear := VNull; metadata_originalYear := VNull
|}.

End Tracks.
Export Tracks.

(* ------------------------------------------------------------------ *)
(** ** Duration parsers *)
(* ------------------------------------------------------------------ *)

Module Durations.

Local Open Scope Q_scope.

(** The string branch shared by the three parsers: a plain decimal is
    rounded, [m:s] and [h:m:s] are converted, anything else yields
    [otherwise]. *)
Definition secondsOfString (otherwise : Q) (v : jsstring) : Q :=
  let s := trim v in
  match plainDecimal s with
  | Some q => Math_round q
  | None =>
      match allFinite (map StringToNumber (splitOn 58 s)) with
      | Some [a; b] => a * 60 + b
      | Some [a; b; c] => a * 3600 + b * 60 + c
      | _ => otherwise
      end
  end.

(** generate.js, [toSeconds]. *)
Definition toSeconds (v : jsval) : Q :=
  match v with
  | VNull => 0
  | VNum q => if Qltb 6000 q then Math_round (q / 1000) else Math_round q
  | VStr s => secondsOfString 165 s
  | VNonFinite => 165
  end.

(** generate.js, [durationSec]. *)
Definition durationSec (t : Track) : Q :=
  orNum (toSeconds (audio_duration t))
    (orNum (toSeconds (format_durationSec t))
       (orNum (toSeconds (t_duration t))
          (orNum (toSeconds (t_durationMs t))
             (orNum (toSeconds (t_length t)) 0)))).

(** generate.js, [durationSecSafe]: the value it reads, and its parser. *)
Definition durationSecSafe_field (t : Track) : jsval :=
  nullishVal (tags_durationSec t)
    (nullishVal (format_durationSec t)
       (nullishVal (t_durationSec t)
          (nullishVal (t_duration t)
             (nullishVal (t_durationMs t) (t_length t))))).

Definition durationSecSafe_parse (v : jsval) : Q :=
  match v with
  | VNull => 0
  | VNum q => if Qltb 6000 q then Math_round (q / 1000) else Math_round q
  | VStr s => secondsOfString 0 s
  | VNonFinite => 0
  end.

Definition durationSecSafe (t : Track) : Q :=
  durationSecSafe_parse (durationSecSafe_field t).

(** dj-lib.js, [toSeconds] and [getTrackSeconds]. *)
Definition djlib_toSeconds (v : jsval) : Q :=
  match v with
  | VNull => 0
  | VNum q => if Qltb 6000 q then Math_round (q / 1000) else Math_round q
  | VStr s => secondsOfString 0 s
  | VNonFinite => 0
  end.

Definition getTrackSeconds (t : Track) : Q :=
  orNum (djlib_toSeconds (audio_duration t))
    (orNum (djlib_toSeconds (t_duration t))
       (orNum (djlib_toSeconds (t_durationMs t))
          (orNum (djlib_toSeconds (t_length t)) 0))).

End Durations.
Export Durations.
(* ------------------------------------------------------------------ *)
(** ** Identity keys (generate.js: norm, stripExt, matchKey; dj-lib.js: normKey) *)
(* ------------------------------------------------------------------ *)

Module Identity.

Local Open Scope N_scope.

(** *** decodeURIComponent (ECMA-262, Decode with an empty reserved set) *)

(** The escape [%XY] at the head of [s]: its byte and the rest. *)
Definition readEscape (s : jsstring) : option (N * jsstring) :=
  match s with
  | 37 :: h :: l :: r =>
      match digitOfBase 16 h, digitOfBase 16 l with
      | Some a, Some b => Some (16 * a + b, r)
      | _, _ => None
      end
  | _ => None
  end.

Fixpoint readContinuations (n : nat) (s : jsstring) : option (list N * jsstring) :=
  match n with
  | O => Some ([], s)
  | S n' =>
      match readEscape s with
      | Some (b, r) =>
          match readContinuations n' r with
          | Some (bs, r') => Some (b :: bs, r')
          | None => None
          end
      | None => None
      end
  end.

(** Number of leading 1 bits of a byte (5 stands for "more than four"). *)
Definition leadingOnes (b : N) : nat :=
  if b <? 128 then 0%nat
  else if b <? 192 then 1%nat
  else if b <? 224 then 2%nat
  else if b <? 240 then 3%nat
  else if b <? 248 then 4%nat
  else 5%nat.

Definition isContinuation (b : N) : bool := (128 <=? b) && (b <? 192).

(** The code point of a well-formed UTF-8 sequence of two to four bytes. *)
Definition utf8CodePoint (octets : list N) : option N :=
  match octets with
  | [b0; b1] =>
      let v := (b0 - 192) * 64 + (b1 - 128) in
      if isContinuation b1 && (128 <=? v) then Some v else None
  | [b0; b1; b2] =>
      let v := (b0 - 224) * 4096 + (b1 - 128) * 64 + (b2 - 128) in
      if isContinuation b1 && isContinuation b2 && (2048 <=? v) &&
         negb ((55296 <=? v) && (v <=? 57343))
      then Some v else None
  | [b0; b1; b2; b3] =>
      let v := (b0 - 240) * 262144 + (b1 - 128) * 4096 + (b2 - 128) * 64 + (b3 - 128) in
      if isContinuation b1 && isContinuation b2 && isContinuation b3 &&
         (65536 <=? v) && (v <=? 1114111)
      then Some v else None
  | _ => None
  end.

Definition UTF16EncodeCodePoint (v : N) : jsstring :=
  if v <? 65536 then [v]
  else [55296 + (v - 65536) / 1024; 56320 + (v - 65536) mod 1024].

(** [None] is a thrown URIError.  Every step consumes a code unit, so a
    budget of one more than the length is never exhausted. *)
Fixpoint decodeFrom (budget : nat) (s : jsstring) : option jsstring :=
  match budget with
  | O => None
  | S f =>
      match s with
      | [] => Some []
      | c :: r =>
          if c =? 37 then
            match readEscape s with
            | None => None
            | Some (b, r1) =>
                match leadingOnes b with
                | 0%nat => option_map (cons b) (decodeFrom f r1)
                | 1%nat => None
                | S (S (S (S (S _)))) => None
                | S k =>
                    match readContinuations k r1 with
                    | None => None
                    | Some (bs, r2) =>
                        match utf8CodePoint (b :: bs) with
                        | None => None
                        | Some v =>
                            option_map (app (UTF16EncodeCodePoint v)) (decodeFrom f r2)
                        end
                    end
                end
            end
          else option_map (cons c) (decodeFrom f r)
      end
  end.

Definition decodeURIComponent (s : jsstring) : option jsstring :=
  decodeFrom (S (List.length s)) s.

(** *** encodeURIComponent (ECMA-262, Encode with the unreserved set) *)

(** Letters, digits and [-_.!~*'()]. *)
Definition uriUnreserved (c : N) : bool :=
  isAlnum c || (c =? 45) || (c =? 95) || (c =? 46) || (c =? 33) || (c =? 126) ||
  (c =? 42) || (c =? 39) || (c =? 40) || (c =? 41).

Definition hexDigitUpper (n : N) : N := if n <? 10 then 48 + n else 55 + n.

Definition percentByte (b : N) : jsstring :=
  [37; hexDigitUpper (b / 16); hexDigitUpper (b mod 16)].

Definition utf8Encode (v : N) : list N :=
  if v <? 128 then [v]
  else if v <? 2048 then [192 + v / 64; 128 + v mod 64]
  else if v <? 65536 then [224 + v / 4096; 128 + (v / 64) mod 64; 128 + v mod 64]
  else [240 + v / 262144; 128 + (v / 4096) mod 64; 128 + (v / 64) mod 64;
        128 + v mod 64].

Definition isHighSurrogate (c : N) : bool := (55296 <=? c) && (c <=? 56319).
Definition isLowSurrogate (c : N) : bool := (56320 <=? c) && (c <=? 57343).

(** [None] is a thrown URIError (a lone surrogate). *)
Fixpoint encodeURIComponent (s : jsstring) : option jsstring :=
  match s with
  | [] => Some []
  | c :: r =>
      if uriUnreserved c then option_map (cons c) (encodeURIComponent r)
      else if isLowSurrogate c then None
      else if negb (isHighSurrogate c) then
        option_map (app (flat_map percentByte (utf8Encode c))) (encodeURIComponent r)
      else
        match r with
        | d :: r' =>
            if isLowSurrogate d then
              option_map
                (app (flat_map percentByte
                        (utf8Encode ((c - 55296) * 1024 + (d - 56320) + 65536))))
                (encodeURIComponent r')
            else None
        | [] => None
        end
  end.

(** *** norm, stripExt, matchKey *)

(** [x.replace(/^file:\/\//i, "")] *)
Definition stripFilePrefix (x : jsstring) : jsstring :=
  if startsWithCI (js "file://") x then skipn 7 x else x.

(** [x.replace(/\\/g, "/")] *)
Definition replaceBackslashes (x : jsstring) : jsstring :=
  map (fun c => if c =? 92 then 47 else c) x.

Definition norm (s : option jsstring) : jsstring :=
  match s with
  | None => []
  | Some [] => []
  | Some s =>
      let x := stripFilePrefix (trim s) in
      let x := match decodeURIComponent x with
               | Some y => y
               | None => x
               end in
      toLowerCase (replaceBackslashes x)
  end.

(** [\.[a-z0-9]+$] with flag [i] *)
Definition isExtension (r : jsstring) : bool :=
  match r with
  | [] => false
  | _ => forallb isAlnum r
  end.

(** [p.replace(/\.[a-z0-9]+$/i, "")]: the leftmost dot followed by
    alphanumerics up to the end starts the match. *)
Fixpoint stripExt (p : jsstring) : jsstring :=
  match p with
  | [] => []
  | c :: r => if (c =? 46) && isExtension r then [] else c :: stripExt r
  end.

Definition matchKey (s : option jsstring) : jsstring := stripExt (norm s).

(** dj-lib.js has the same normaliser under the name [normKey]. *)
Definition normKey (s : option jsstring) : jsstring :=
  match s with
  | None => []
  | Some [] => []
  | Some s =>
      let x := trim s in
      let x := stripFilePrefix x in
      let x := match decodeURIComponent x with
               | Some y => y
               | None => x
               end in
      let x := replaceBackslashes x in
      toLowerCase x
  end.

(** *** Sets of keys: a JavaScript [Set] of strings, in insertion order *)

Definition KeySet := list jsstring.

Definition Set_has (s : KeySet) (k : jsstring) : bool := includesStr s k.

Definition Set_add (s : KeySet) (k : jsstring) : KeySet :=
  if Set_has s k then s else s ++ [k].

(** [toSet(ids)]: the set of the [matchKey]s of an array or a set. *)
Definition toSet (ids : list (option jsstring)) : KeySet :=
  fold_left (fun acc x => Set_add acc (matchKey x)) ids [].

End Identity.
Export Identity.
(* ------------------------------------------------------------------ *)
(** ** The tanda planner (generate.js: planOneTanda, planOneTandaWithRetry) *)
(* ------------------------------------------------------------------ *)

Module Planner.

Local Open Scope Z_scope.

(** A row of a candidate list.  The filter of [planOneTanda] reads
    [tags.artist], [artist] and [orchestra]; the other fields of a row
    (title, seconds, BPM, energy, key) only reach the prompt. *)
Record Candidate := {
  c_id : option jsstring;
  c_tags_artist : option jsstring;
  c_artist : option jsstring;
  c_orchestra : option jsstring
}.

(** The rows the routes build from a track:
    [{ id: getId(t), artist: (... ?? "Unknown").trim(), ... }]. *)
Definition slimRow (t : Track) : Candidate := {|
  c_id := getId t;
  c_tags_artist := None;
  c_artist := Some (orchestraOf t);
  c_orchestra := None
|}.

(** *** normalizeOrchestra *)

(** [\s+] at the head of [u]: what follows the run. *)
Definition someSpace (u : jsstring) : option jsstring :=
  match u with
  | c :: _ => if isWhiteSpace c then Some (dropWhile isWhiteSpace u) else None
  | [] => None
  end.

(** A literal of the pattern under flag [i]. *)
Definition literalCI (p u : jsstring) : option jsstring :=
  if startsWithCI p u then Some (skipn (List.length p) u) else None.

(** [.*$]: no line terminator up to the end. *)
Definition toEndOfLine (u : jsstring) : bool :=
  forallb (fun c => negb (isLineTerminator c)) u.

Definition andThen {A B} (a : option A) (f : A -> option B) : option B :=
  match a with
  | Some x => f x
  | None => None
  end.

Definition holds (a : option jsstring) (f : jsstring -> bool) : bool :=
  match a with
  | Some x => f x
  | None => false
  end.

(** [/\s+O\.T\.\s+con\s+.*$/i] matched at the head of [u]. *)
Definition matchOTcon (u : jsstring) : bool :=
  holds (andThen (andThen (andThen (andThen (someSpace u)
           (literalCI (js "O.T."))) someSpace) (literalCI (js "con"))) someSpace)
        toEndOfLine.

(** [/\s+y\s+su\s+orquesta\s*.*$/i] matched at the head of [u]. *)
Definition matchYSuOrquesta (u : jsstring) : bool :=
  holds (andThen (andThen (andThen (andThen (andThen (someSpace u)
           (literalCI (js "y"))) someSpace) (literalCI (js "su"))) someSpace)
           (literalCI (js "orquesta")))
        (fun r => toEndOfLine (dropWhile isWhiteSpace r)).

(** [/\s+Y\s+Su\s*.*$/i] matched at the head of [u]. *)
Definition matchYSu (u : jsstring) : bool :=
  holds (andThen (andThen (andThen (someSpace u)
           (literalCI (js "Y"))) someSpace) (literalCI (js "Su")))
        (fun r => toEndOfLine (dropWhile isWhiteSpace r)).

(** [s.replace(re, "")] for a pattern that runs to the end of the input:
    everything from the leftmost match on is removed. *)
Fixpoint cutAt (m : jsstring -> bool) (s : jsstring) : jsstring :=
  if m s then []
  else match s with
       | [] => []
       | c :: r => c :: cutAt m r
       end.

Definition normalizeOrchestra (orch : option jsstring) : jsstring :=
  match orch with
  | None => []
  | Some [] => []
  | Some o =>
      let normalized :=
        trim (cutAt matchYSu (cutAt matchYSuOrquesta (cutAt matchOTcon (trim o)))) in
      match normalized with
      | [] => trim o
      | _ => normalized
      end
  end.

(** *** Candidate selection of planOneTanda *)

Definition CAND_MAX : nat := 80.

(** [t?.tags?.artist ?? t?.artist ?? t?.orchestra ?? ""] *)
Definition candidateOrchestra (c : Candidate) : option jsstring :=
  match nullish (c_tags_artist c) (nullish (c_artist c) (c_orchestra c)) with
  | Some a => Some a
  | None => Some []
  end.

(** [orchestra && orchestra !== "any orchestra"] *)
Definition orchestraGiven (orchestra : option jsstring) : bool :=
  truthyStr orchestra &&
  negb (match orchestra with
        | Some o => jseqb o (js "any orchestra")
        | None => false
        end).

Definition matchesOrchestra (orchestra : option jsstring) (c : Candidate) : bool :=
  jseqb (normalizeOrchestra (candidateOrchestra c)) (normalizeOrchestra orchestra).

(** [Math.max(4, size || 4)] *)
Definition broadenThreshold (size : Z) : Z :=
  Z.max 4 (if size =? 0 then 4 else size).

(** The value of [filteredCandidates] when the oracle is called. *)
Definition filteredCandidates (size : Z) (orchestra : option jsstring)
    (candidates : list Candidate) (allStyleCandidates : option (list Candidate))
    : list Candidate :=
  if orchestraGiven orchestra then
    let filtered := filter (matchesOrchestra orchestra) candidates in
    let filtered :=
      if Z.of_nat (List.length filtered) <? broadenThreshold size then
        match allStyleCandidates with
        | Some broader => broader
        | None => candidates
        end
      else filtered in
    match filtered with
    | [] => candidates
    | _ => filtered
    end
  else candidates.

(** *** The oracle behind NextTandaPlanner *)

(** What is sent: the requested orchestra, size, used keys and the
    candidate rows ([candSlim]). *)
Record PlanRequest := {
  q_style : jsstring;
  q_size : Z;
  q_orchestra : option jsstring;
  q_usedIds : KeySet;
  q_candidates : list Candidate
}.

(** What comes back, before validation. *)
Record TandaOut := {
  o_style : jsstring;
  o_tracks : list jsstring;
  o_notes : option jsstring;
  o_warnings : list jsstring
}.

(** The zod schema [NextTanda]. *)
Definition validNextTanda (o : TandaOut) : bool :=
  includesStr [js "Tango"; js "Vals"; js "Milonga"] (o_style o) &&
  (2 <=? List.length (o_tracks o))%nat && (List.length (o_tracks o) <=? 6)%nat.

Inductive Warning :=
| WText (w : jsstring)       (* a warning of the agent, or a fixed text *)
| WPadded (need : Z).        (* "Padded <need> placeholder track(s)" *)

Record PlanResult := {
  r_style : jsstring;
  r_trackIds : list jsstring;
  r_notes : option jsstring;
  r_warnings : list Warning
}.

Definition REPLACE : jsstring := js "replace".

(** The tail of [planOneTanda]: pad the returned ids to [wantSize]. *)
Definition padTracks (wantSize : Z) (out : TandaOut) : PlanResult :=
  let returned := o_tracks out in
  let len := Z.of_nat (List.length returned) in
  if len <? wantSize then
    let need := wantSize - len in
    {| r_style := o_style out;
       r_trackIds := returned ++ repeat REPLACE (Z.to_nat need);
       r_notes := o_notes out;
       r_warnings := map WText (o_warnings out) ++ [WPadded need] |}
  else
    {| r_style := o_style out;
       r_trackIds := returned;
       r_notes := o_notes out;
       r_warnings := map WText (o_warnings out) |}.

(** One call of the agent: [None] is a thrown error (transport failure or
    an answer the schema rejects). *)
Definition AskTanda := PlanRequest -> option TandaOut.

Definition planRequest (style : jsstring) (size : Z) (usedIds : KeySet)
    (candidates : list Candidate) (allStyleCandidates : option (list Candidate))
    (orchestra : option jsstring) : PlanRequest :=
  {| q_style := trim style;
     q_size := size;
     q_orchestra := orchestra;
     q_usedIds := usedIds;
     q_candidates :=
       firstn CAND_MAX (filteredCandidates size orchestra candidates allStyleCandidates) |}.

Definition planOneTanda (ask : AskTanda) (style : jsstring) (size : Z)
    (usedIds : KeySet) (candidates : list Candidate)
    (allStyleCandidates : option (list Candidate)) (orchestra : option jsstring)
    : option PlanResult :=
  match ask (planRequest style size usedIds candidates allStyleCandidates orchestra) with
  | Some out => if validNextTanda out then Some (padTracks size out) else None
  | None => None
  end.

(** *** Orchestra profiles and the alternatives of the retry ladder *)

Record Profile := {
  p_orchestra : jsstring;
  p_sampleIds : list jsstring
}.

Fixpoint groupByOrchestra (t : Track) (m : list (jsstring * list Track))
    : list (jsstring * list Track) :=
  match m with
  | [] => [(orchestraOf t, [t])]
  | (k, ts) :: r =>
      if jseqb k (orchestraOf t) then (k, ts ++ [t]) :: r
      else (k, ts) :: groupByOrchestra t r
  end.

Definition truthyIds (ids : list (option jsstring)) : list jsstring :=
  flat_map (fun i => match i with
                     | Some (c :: r) => [c :: r]
                     | _ => []
                     end) ids.

(** [buildOrchestraProfiles]: one profile per orchestra, in order of first
    appearance, with at most 30 sample ids. *)
Definition buildOrchestraProfiles (tracks : list Track) : list Profile :=
  map (fun kv => {| p_orchestra := fst kv;
                    p_sampleIds := firstn 30 (truthyIds (map getId (snd kv))) |})
      (fold_left (fun m t => groupByOrchestra t m) tracks []).

Definition diversityScore (trackCount : Z) : Z :=
  if trackCount <? 3 then trackCount * 10
  else if trackCount <=? 15 then 100 + (15 - trackCount) * 2
  else Z.max 20 (100 - (trackCount - 15) * 3).

Definition trackCountOf (p : Profile) : Z := Z.of_nat (List.length (p_sampleIds p)).

(** The comparator handed to [sort]. *)
Definition compareAlternatives (a b : Profile) : Z :=
  let da := diversityScore (trackCountOf a) in
  let db := diversityScore (trackCountOf b) in
  if Z.abs (da - db) <? 5 then Z.max 3 (trackCountOf b) - Z.max 3 (trackCountOf a)
  else db - da.

(** [Array.prototype.sort] as a stable insertion sort.  The comparator
    above is not transitive, in which case the host's order is
    implementation-defined; nothing below depends on the order chosen. *)
Fixpoint insertBy {A} (cmp : A -> A -> Z) (x : A) (l : list A) : list A :=
  match l with
  | [] => [x]
  | y :: r => if 0 <? cmp y x then x :: y :: r else y :: insertBy cmp x r
  end.

Definition sortBy {A} (cmp : A -> A -> Z) (l : list A) : list A :=
  fold_left (fun acc x => insertBy cmp x acc) l [].

Definition getAlternativeOrchestras (profiles : list Profile)
    (excludeOrchestras : list (option jsstring)) : list jsstring :=
  let exclude := truthyIds excludeOrchestras in
  let available := filter (fun p => negb (includesStr exclude (p_orchestra p))) profiles in
  map p_orchestra (firstn 8 (sortBy compareAlternatives available)).

(** *** planOneTandaWithRetry *)

Definition countRealIds (ids : list jsstring) : Z :=
  Z.of_nat (List.length (filter (fun id => negb (jseqb id REPLACE)) ids)).

(** [countReal(r)], with [None] for a missing result. *)
Definition countReal (r : option PlanResult) : Z :=
  match r with
  | Some x => countRealIds (r_trackIds x)
  | None => 0
  end.

(** The rungs of the ladder. *)
Inductive Rung :=
| FirstAttempt
| Alternative (i : nat) (orchestra : jsstring)
| NoOrchestra.

(** One recorded call: which rung made it, what was sent, what
    [planOneTanda] returned. *)
Record Attempt := {
  a_rung : Rung;
  a_request : PlanRequest;
  a_result : option PlanResult
}.

(** The oracle of a run answers the [n]-th call. *)
Definition TandaOracle := nat -> AskTanda.

Section Ladder.

Variable oracle : TandaOracle.
Variables (style : jsstring) (size : Z) (usedIds : KeySet).
Variables (candidates : list Candidate) (allStyleCandidates : option (list Candidate)).

Definition attempt (n : nat) (rung : Rung) (orchestra : option jsstring) : Attempt :=
  {| a_rung := rung;
     a_request := planRequest style size usedIds candidates allStyleCandidates orchestra;
     a_result := planOneTanda (oracle n) style size usedIds candidates
                   allStyleCandidates orchestra |}.

(** [!lastResult || countReal(lastResult) < Math.max(1, size - 2)] *)
Definition needsAlternatives (lastResult : option PlanResult) : bool :=
  match lastResult with
  | None => true
  | Some _ => countReal lastResult <? Z.max 1 (size - 2)
  end.

(** [!lastResult || countReal(lastResult) === 0] *)
Definition needsFallback (lastResult : option PlanResult) : bool :=
  match lastResult with
  | None => true
  | Some _ => countReal lastResult =? 0
  end.

(** The better of the result so far and a new one. *)
Definition keepBetter (lastResult new : option PlanResult) : option PlanResult :=
  match new with
  | Some _ => if countReal lastResult <? countReal new then new else lastResult
  | None => lastResult
  end.

(** The [for] loop over the alternatives: [i] is the loop index, [n] the
    number of oracle calls made so far. *)
Fixpoint retryLoop (alts : list jsstring) (i n : nat)
    (lastResult : option PlanResult) : option PlanResult * list Attempt :=
  match alts with
  | [] => (lastResult, [])
  | alt :: rest =>
      let a := attempt n (Alternative i alt) (Some alt) in
      let lastResult' := keepBetter lastResult (a_result a) in
      match a_result a with
      | Some r =>
          if size - 1 <=? countReal (Some r) then (lastResult', [a])
          else let '(res, log) := retryLoop rest (S i) (S n) lastResult' in
               (res, a :: log)
      | None =>
          let '(res, log) := retryLoop rest (S i) (S n) lastResult' in
          (res, a :: log)
      end
  end.

Definition emptyResult : PlanResult :=
  {| r_style := style; r_trackIds := []; r_notes := Some (js "No tracks found after retries");
     r_warnings := [WText (js "Empty tanda")] |}.

(** [n0] is the index of the first oracle call.  The result is what the
    function returns, with the calls it made. *)
Definition planOneTandaWithRetry (profiles : list Profile) (maxRetries : nat)
    (orchestra : option jsstring) (n0 : nat) : PlanResult * list Attempt :=
  let first := attempt n0 FirstAttempt orchestra in
  let lastResult := a_result first in
  let '(lastResult, retries) :=
    if needsAlternatives lastResult then
      let alts := getAlternativeOrchestras profiles [orchestra] in
      retryLoop (firstn (Nat.min maxRetries (List.length alts)) alts) 0 (S n0) lastResult
    else (lastResult, []) in
  let '(lastResult, final) :=
    if needsFallback lastResult then
      let f := attempt (S n0 + List.length retries) NoOrchestra None in
      (keepBetter lastResult (a_result f), [f])
    else (lastResult, []) in
  (match lastResult with
   | Some r => r
   | None => emptyResult
   end,
   first :: retries ++ final).

End Ladder.

End Planner.
Export Planner.
(* ------------------------------------------------------------------ *)
(** ** Role rules of the streaming route (ROLE_RULES, effectiveYear, trackFitsRole) *)
(* ------------------------------------------------------------------ *)

Module Roles.

Local Open Scope Q_scope.

Record RoleRule := {
  minYear : Q;
  maxYear : Q;
  preferAlt : bool
}.

(** [ROLE_RULES[role]] for the four keys of the table. *)
Definition ROLE_RULES (role : jsstring) : option RoleRule :=
  if jseqb role (js "classic") then
    Some {| minYear := 1930; maxYear := 1945; preferAlt := false |}
  else if jseqb role (js "rich") then
    Some {| minYear := 1946; maxYear := 1958; preferAlt := false |}
  else if jseqb role (js "modern") then
    Some {| minYear := 1990; maxYear := 2100; preferAlt := false |}
  else if jseqb role (js "alt") then
    Some {| minYear := 1995; maxYear := 2100; preferAlt := true |}
  else None.

Definition TRUST_YEAR_CUTOFF : Q := 1990.

Definition Qmaxq (a b : Q) : Q := if Qle_bool a b then b else a.
Definition Qminq (a b : Q) : Q := if Qle_bool a b then a else b.

(** [clampYear(y)] for a value that is not null; [None] is [null]. *)
Definition clampYear (y : jsval) : option Q :=
  match NumberOf y with
  | Some n => Some (Qmaxq 1900 (Qminq 2100 (Math_round n)))
  | None => None
  end.

(** [g.map((s) => String(s || "").toLowerCase())] over [tags.genre]. *)
Definition readGenres (t : Track) : list jsstring :=
  map toLowerCase (genreArray t).

Definition optStr (a : option jsstring) : jsstring :=
  match a with
  | Some s => s
  | None => []
  end.

Definition REMASTER_WORDS : list jsstring :=
  map js ["remaster"; "remastered"; "reissue"; "anthology"; "collection";
          "best of"; "archive"; "deluxe"; "box set"]%string.

Definition looksRemasterish (t : Track) : bool :=
  let album := toLowerCase (optStr (nullish (tags_album t) (t_album t))) in
  let title := toLowerCase (optStr (nullish (tags_title t) (t_title t))) in
  let hay := album ++ js " " ++ title in
  existsb (fun w => includes (toLowerCase hay) w) REMASTER_WORDS.

(** [candidates.find((v) => v != null)] *)
Fixpoint firstNonNull (l : list jsval) : jsval :=
  match l with
  | [] => VNull
  | VNull :: r => firstNonNull r
  | v :: _ => v
  end.

Definition effectiveYear (t : Track) : option Q :=
  let first := firstNonNull
    [tags_recordingYear t; tags_originalYear t; metadata_recordingYear t;
     metadata_originalYear t; tags_year t; t_year t; metadata_year t] in
  match clampYear first with
  | None => None
  | Some y =>
      let isDanceCore :=
        existsb (fun g => jseqb g (js "tango") || jseqb g (js "vals") ||
                          jseqb g (js "milonga")) (readGenres t) in
      if Qle_bool TRUST_YEAR_CUTOFF y && isDanceCore && looksRemasterish t
      then None else Some y
  end.

Definition ALT_WORDS : list jsstring :=
  map js ["alt"; "alternative"; "nuevo"; "neo"; "electro"; "pop"; "rock";
          "jazz"; "swing"; "blues"; "folk"]%string.

Definition stylesArray (t : Track) : list jsstring :=
  match t_styles t with
  | Some l => l
  | None => []
  end.

(** A role outside the table has no rule. *)
Definition trackFitsRole (t : Track) (role : option jsstring) : bool :=
  match role with
  | None => true
  | Some [] => true
  | Some r =>
      match ROLE_RULES r with
      | None => true
      | Some rule =>
          let inYear :=
            match effectiveYear t with
            | None => true
            | Some y => Qle_bool (minYear rule) y && Qle_bool y (maxYear rule)
            end in
          if negb (preferAlt rule) then inYear
          else
            let hay := toLowerCase (join (js " ") (readGenres t ++ stylesArray t)) in
            inYear && existsb (fun w => includes hay w) ALT_WORDS
      end
  end.

End Roles.
Export Roles.

(* ------------------------------------------------------------------ *)
(** ** The streaming route (generate.js: POST /api/agent/generate/ndjson) *)
(* ------------------------------------------------------------------ *)

Module Stream.

Local Open Scope Q_scope.

(** A normalised slot of the request. *)
Record Slot := {
  s_style : jsstring;
  s_role : option jsstring;
  s_size : Z
}.

Record Tanda := {
  td_style : jsstring;
  td_role : option jsstring;
  td_tracks : list Track;
  td_seconds : Q
}.

(** A row returned by [listCortinas]. *)
Record Cortina := {
  k_id : option jsstring;
  k_seconds : option Q;          (* [None] when not a finite number *)
  k_approxMinutes : option Q
}.

(** The blocks of the final plan. *)
Inductive Block :=
| BTanda (td : Tanda)
| BCortina (c : option Cortina) (seconds : Q).

(** The lines written to the stream that carry the plan.  The route also
    writes [llm_message], [warning], [quality] and [summary] lines; they
    report on the run and do not change the plan, and are left out. *)
Inductive Event :=
| EvStart (minutes : Q) (slots : list Slot)
| EvTanda (index : nat) (remainingSeconds : Q) (td : Tanda)
| EvDone (blocks : list Block) (cortinas : list Cortina)
| EvError.

(** The external collaborators of one run: the two agents, answering the
    [n]-th oracle call of the run, and the filler pool provider. *)
Record Collaborators := {
  askOrchestras : nat -> option (list jsstring);
  askTanda : TandaOracle;
  listCortinas : nat -> list Cortina
}.

(** *** used ids and resolvers *)

Definition isUsed (usedIds : KeySet) (id : option jsstring) : bool :=
  Set_has usedIds (matchKey id).

Definition markUsed (usedIds : KeySet) (id : option jsstring) : KeySet :=
  Set_add usedIds (matchKey id).

Definition optEqb (a b : option jsstring) : bool :=
  match a, b with
  | Some x, Some y => jseqb x y
  | None, None => true
  | _, _ => false
  end.

(** [new Map(entries).get(k)]: the last entry with that key wins. *)
Definition findLast {A} (p : A -> bool) (l : list A) : option A :=
  find p (rev l).

(** [libById.get(id) || libByNormKey.get(matchKey(id)) || null] *)
Definition resolveByAnyId (workingSet : list Track) (id : jsstring) : option Track :=
  match findLast (fun t => optEqb (getId t) (Some id)) workingSet with
  | Some t => Some t
  | None =>
      findLast (fun t => jseqb (matchKey (getId t)) (matchKey (Some id))) workingSet
  end.

(** *** pools *)

(** [g.map((x) => String(x || "").toLowerCase()).includes(String(style).toLowerCase())] *)
Definition hasStyle (style : jsstring) (t : Track) : bool :=
  includesStr (map toLowerCase (genreArray t)) (toLowerCase style).

Definition baseRolePool (workingSet : list Track) (usedIds : KeySet)
    (style : jsstring) (role : option jsstring) : list Track :=
  filter (fun t => hasStyle style t && trackFitsRole t role &&
                   negb (isUsed usedIds (getId t))) workingSet.

Definition availability (pool : list Track) (orch : jsstring) : Z :=
  Z.of_nat (List.length (filter (fun t => jseqb (orchestraOf t) orch) pool)).

(** The keys of the [byOrch] map, in insertion order. *)
Definition orchestrasOf (pool : list Track) : list jsstring :=
  fold_left (fun acc t => Set_add acc (orchestraOf t)) pool [].

(** The orchestra the slot is planned for, if any. *)
Definition pickTarget (pool : list Track) (sizeTarget : Z)
    (suggestions : list jsstring) : option jsstring :=
  let enough := fun orch => (sizeTarget <=? availability pool orch)%Z in
  let suggested := find enough (map trim suggestions) in
  let target :=
    if truthyStr suggested then suggested
    else find enough (orchestrasOf pool) in
  if truthyStr target then target else None.

(** [shortlistCandidates(style, workingSet, usedIds, 100)], before its
    sort by energy. *)
Definition shortlistCandidates (style : jsstring) (library : list Track)
    (usedIds : KeySet) (maxN : nat) : list Candidate :=
  let usedNorm := toSet (map Some usedIds) in
  let want := toLowerCase (trim style) in
  let pool :=
    filter (fun t =>
              includesStr (map toLowerCase (genreArray t)) want &&
              truthyStr (getId t) &&
              negb (Set_has usedNorm (matchKey (getId t))) &&
              Qle_bool 60 (durationSec t) && Qle_bool (durationSec t) 480)
           library in
  map slimRow (firstn maxN pool).

(** *** choosing the tracks of a tanda *)

(** [for (const id of next.trackIds) { if (isUsed(id)) continue; ... }] *)
Fixpoint chooseTracks (workingSet : list Track) (accept : Track -> bool)
    (ids : list jsstring) (usedIds : KeySet) : list Track * KeySet :=
  match ids with
  | [] => ([], usedIds)
  | id :: rest =>
      if isUsed usedIds (Some id) then chooseTracks workingSet accept rest usedIds
      else
        match resolveByAnyId workingSet id with
        | Some tr =>
            if accept tr then
              let '(chosen, used') :=
                chooseTracks workingSet accept rest (markUsed usedIds (getId tr)) in
              (tr :: chosen, used')
            else chooseTracks workingSet accept rest usedIds
        | None => chooseTracks workingSet accept rest usedIds
        end
  end.

(** [while (chosenTracks.length < sizeTarget) chosenTracks.push(placeholder)] *)
Definition padWithPlaceholders (sizeTarget : Z) (chosen : list Track) : list Track :=
  chosen ++ repeat placeholderTrack (Z.to_nat (sizeTarget - Z.of_nat (List.length chosen))).

Definition sumSeconds (tracks : list Track) : Q :=
  fold_left (fun s tr => s + durationSec tr) tracks 0.

Definition lengthQ {A} (l : list A) : Q := inject_Z (Z.of_nat (List.length l)).

(** [t.id && !t.placeholder && t.title !== "replace this"] *)
Definition isRealTrack (t : Track) : bool :=
  truthyStr (t_id t) && negb (t_placeholder t) &&
  negb (optEqb (t_title t) (Some (js "replace this"))).

(** *** the planning loop *)

Record RunState := {
  usedIds : KeySet;
  remainingSeconds : Q;
  tandasResolved : list Tanda;
  recentOrchestras : list jsstring;
  calls : nat;                      (* oracle calls made so far *)
  sent : list Event;                (* lines written so far, oldest first *)
  attempts : list Attempt           (* planner calls made so far *)
}.

Section Run.

Variable world : Collaborators.
Variable workingSet : list Track.

Definition profiles : list Profile := buildOrchestraProfiles workingSet.

(** Acceptance of a tanda: push, subtract, emit. *)
Definition pushTanda (st : RunState) (slot : Slot) (tracks : list Track)
    (tandaSeconds : Q) (orchestra : option jsstring) : RunState :=
  let td := {| td_style := s_style slot; td_role := s_role slot;
               td_tracks := tracks; td_seconds := tandaSeconds |} in
  let remaining := remainingSeconds st - tandaSeconds in
  {| usedIds := usedIds st;
     remainingSeconds := remaining;
     tandasResolved := tandasResolved st ++ [td];
     recentOrchestras :=
       match orchestra with
       | Some o => recentOrchestras st ++ [o]
       | None => recentOrchestras st
       end;
     calls := calls st;
     sent := sent st ++ [EvTanda (S (List.length (tandasResolved st))) remaining td];
     attempts := attempts st |}.

Definition withPlanning (st : RunState) (used : KeySet) (n : nat)
    (log : list Attempt) : RunState :=
  {| usedIds := used;
     remainingSeconds := remainingSeconds st;
     tandasResolved := tandasResolved st;
     recentOrchestras := recentOrchestras st;
     calls := n;
     sent := sent st;
     attempts := attempts st ++ log |}.

(** Step 2 of a slot (inside [try]): returns the state and [tandaMade].
    A failure of the ranking agent is caught and leaves [tandaMade] false. *)
Definition orchestraPath (st : RunState) (slot : Slot) : RunState * bool :=
  let sizeTarget := s_size slot in
  let pool := baseRolePool workingSet (usedIds st) (s_style slot) (s_role slot) in
  let st1 := withPlanning st (usedIds st) (S (calls st)) [] in
  match askOrchestras world (calls st) with
  | None => (st1, false)
  | Some [] => (st1, false)
  | Some suggestions =>
      match pickTarget pool sizeTarget suggestions with
      | None => (st1, false)
      | Some targetOrchestra =>
          let candidatesAll :=
            filter (fun t => jseqb (orchestraOf t) targetOrchestra) pool in
          match candidatesAll with
          | [] => (st1, false)
          | _ =>
              let candidates := map slimRow (firstn 80 candidatesAll) in
              let allStyleCandidates := map slimRow pool in
              let '(next, log) :=
                planOneTandaWithRetry (askTanda world) (s_style slot) sizeTarget
                  (usedIds st) candidates (Some allStyleCandidates) profiles 3
                  (Some targetOrchestra) (calls st1) in
              let '(chosen, used') :=
                chooseTracks workingSet
                  (fun tr => jseqb (orchestraOf tr) targetOrchestra)
                  (r_trackIds next) (usedIds st) in
              let chosenTracks := padWithPlaceholders sizeTarget chosen in
              let st2 := withPlanning st1 used' (calls st1 + List.length log) log in
              let tandaSeconds :=
                if Qle_bool (sumSeconds chosenTracks) 0
                then 180 * lengthQ chosenTracks
                else sumSeconds chosenTracks in
              if (0 <? List.length chosenTracks)%nat && Qltb 0 tandaSeconds &&
                 Qle_bool tandaSeconds (remainingSeconds st + 30)
              then (pushTanda st2 slot chosenTracks tandaSeconds (Some targetOrchestra), true)
              else (st2, false)
          end
      end
  end.

(** Step 3 of a slot.  The comparator of [styleOnly.sort] calls
    [roleScoreBoost], which is declared inside [registerAgentRoutes] and is
    not in scope in this route: its first invocation, which happens as soon
    as the shortlist has two rows, raises a ReferenceError that only the
    handler's outer [catch] sees.  [None] is that error. *)
Definition styleOnlyPath (st : RunState) (slot : Slot) : option RunState :=
  let sizeTarget := s_size slot in
  let styleOnly := shortlistCandidates (s_style slot) workingSet (usedIds st) 100 in
  if (2 <=? List.length styleOnly)%nat then None
  else
    let '(next, log) :=
      planOneTandaWithRetry (askTanda world) (s_style slot) sizeTarget
        (usedIds st) (firstn 60 styleOnly) (Some styleOnly) profiles 3
        None (calls st) in
    let '(chosen, used') :=
      chooseTracks workingSet (fun _ => true) (r_trackIds next) (usedIds st) in
    let chosenTracks := padWithPlaceholders sizeTarget chosen in
    let st2 := withPlanning st used' (calls st + List.length log) log in
    let tandaSeconds :=
      orNum (sumSeconds chosenTracks) (180 * lengthQ chosenTracks) in
    let realTrackCount := List.length (filter isRealTrack chosenTracks) in
    if (0 <? List.length chosenTracks)%nat && Qltb 0 tandaSeconds &&
       Qle_bool tandaSeconds (remainingSeconds st + 30) && (1 <=? realTrackCount)%nat
    then Some (pushTanda st2 slot chosenTracks tandaSeconds None)
    else Some st2.

(** One iteration of the loop, after its budget guard. *)
Definition planSlot (st : RunState) (slot : Slot) : option RunState :=
  let '(st1, tandaMade) := orchestraPath st slot in
  if tandaMade then Some st1 else styleOnlyPath st1 slot.

(** [for (let i = 0; i < slots.length; i++) { if (remainingSeconds <= 60) break; ... }]
    [inr] carries the state in which an error escaped. *)
Fixpoint planningLoop (slots : list Slot) (st : RunState) : RunState + RunState :=
  match slots with
  | [] => inl st
  | slot :: rest =>
      if Qle_bool (remainingSeconds st) 60 then inl st
      else match planSlot st slot with
           | Some st' => planningLoop rest st'
           | None => inr (fst (orchestraPath st slot))
           end
  end.

(** *** the final plan *)

(** The [seconds] of a cortina block. *)
Definition cortinaSeconds (c : option Cortina) : Q :=
  match c with
  | Some k =>
      match k_seconds k with
      | Some s => s
      | None =>
          Math_round (match k_approxMinutes k with
                      | Some m => m
                      | None => 1
                      end * 60)
      end
  | None => Math_round (1 * 60)
  end.

(** [cortinas[i % cortinas.length]], or [null] without a pool. *)
Definition cortinaAt (cortinas : list Cortina) (i : nat) : option Cortina :=
  match cortinas with
  | [] => None
  | _ => nth_error cortinas (i mod List.length cortinas)
  end.

Fixpoint planBlocksFrom (cortinas : list Cortina) (i : nat) (tandas : list Tanda)
    : list Block :=
  match tandas with
  | [] => []
  | [td] => [BTanda td]
  | td :: rest =>
      BTanda td :: BCortina (cortinaAt cortinas i) (cortinaSeconds (cortinaAt cortinas i))
        :: planBlocksFrom cortinas (S i) rest
  end.

Definition initialState (minutes : Q) (slots : list Slot) : RunState :=
  {| usedIds := [];
     remainingSeconds := minutes * 60;
     tandasResolved := [];
     recentOrchestras := [];
     calls := 0;
     sent := [EvStart minutes slots];
     attempts := [] |}.

(** The whole handler, from the normalised request on: the final state
    with everything that was written to the stream. *)
Definition generateStream (minutes : Q) (slots : list Slot) : RunState :=
  match planningLoop slots (initialState minutes slots) with
  | inl st =>
      let cortinas := listCortinas world (List.length (tandasResolved st)) in
      let blocks := planBlocksFrom cortinas 0 (tandasResolved st) in
      {| usedIds := usedIds st; remainingSeconds := remainingSeconds st;
         tandasResolved := tandasResolved st; recentOrchestras := recentOrchestras st;
         calls := calls st; sent := sent st ++ [EvDone blocks cortinas];
         attempts := attempts st |}
  | inr st =>
      {| usedIds := usedIds st; remainingSeconds := remainingSeconds st;
         tandasResolved := tandasResolved st; recentOrchestras := recentOrchestras st;
         calls := calls st; sent := sent st ++ [EvError];
         attempts := attempts st |}
  end.

End Run.

(** *** what a consumer sees *)

Definition emittedTandas (events : list Event) : list Tanda :=
  flat_map (fun e => match e with
                     | EvTanda _ _ td => [td]
                     | _ => []
                     end) events.

(** The plan of the [done] line, if the run completed. *)
Definition finalPlan (events : list Event) : option (list Block) :=
  match last events EvError with
  | EvDone blocks _ => Some blocks
  | _ => None
  end.

Definition blockSeconds (b : Block) : Q :=
  match b with
  | BTanda td => td_seconds td
  | BCortina _ s => s
  end.

Fixpoint totalSeconds (blocks : list Block) : Q :=
  match blocks with
  | [] => 0
  | b :: r => blockSeconds b + totalSeconds r
  end.

Fixpoint tandaSecondsTotal (tandas : list Tanda) : Q :=
  match tandas with
  | [] => 0
  | td :: r => td_seconds td + tandaSecondsTotal r
  end.

(** The normalised identities of the library tracks of a group. *)
Definition groupKeys (td : Tanda) : list jsstring :=
  map (fun t => matchKey (getId t))
      (filter (fun t => negb (t_placeholder t)) (td_tracks td)).

End Stream.
Export Stream.
(* ------------------------------------------------------------------ *)
(** ** The replacement route (generate.js: POST /api/agent/replace) *)
(* ------------------------------------------------------------------ *)

Module Replace.

(** The answer of TrackReplaceAgent, before [ReplacementResult.parse]. *)
Record ReplacementOut := {
  chosenId : jsstring;
  suggestions : list jsstring         (* the [id] of each suggestion *)
}.

(** The zod schema [ReplacementResult]: at least one suggestion. *)
Definition validReplacement (o : ReplacementOut) : bool :=
  match suggestions o with
  | [] => false
  | _ => true
  end.

Inductive Response :=
| Ok (replacementId : option jsstring) (suggestionIds : list (option jsstring))
| Failed (status : nat).

(** [getCompatibleStyles] *)
Definition getCompatibleStyles (mainStyle : jsstring) : list jsstring :=
  let normalized := toLowerCase mainStyle in
  if jseqb normalized (js "tango") then [js "tango"; js "vals"; js "milonga"]
  else if jseqb normalized (js "vals") then [js "vals"; js "tango"]
  else if jseqb normalized (js "milonga") then [js "milonga"; js "tango"]
  else if jseqb normalized (js "waltz") then [js "vals"; js "tango"]
  else if jseqb normalized (js "valz") then [js "vals"; js "tango"]
  else [normalized].

(** [t?.styles?.length ? t.styles : Array.isArray(t?.tags?.genre) ? t.tags.genre : [t?.tags?.genre]],
    each entry through [String(s || "").trim().toLowerCase()]. *)
Definition styleTokens (t : Track) : list jsstring :=
  let g :=
    match t_styles t with
    | Some (s :: l) => s :: l
    | _ =>
        match tags_genre t with
        | GMany gs => gs
        | GOne g => [g]
        | GAbsent => [[]]
        end
    end in
  map (fun s => toLowerCase (trim s)) g.

(** [(t?.artist ?? t?.tags?.artist ?? t?.metadata?.artist ?? "").trim()] *)
Definition artistOrEmpty (t : Track) : jsstring :=
  trim (optStr (nullish (t_artist t) (nullish (tags_artist t) (metadata_artist t)))).

(** The rows of step 6:
    [{ id: getId(t), artist: (t?.artist ?? t?.metadata?.artist ?? t?.tags?.artist ?? "Unknown").trim(), ... }]. *)
Definition replaceRow (t : Track) : Candidate := {|
  c_id := getId t;
  c_tags_artist := None;
  c_artist :=
    Some (trim (match nullish (t_artist t) (nullish (metadata_artist t) (tags_artist t)) with
                | Some a => a
                | None => js "Unknown"
                end));
  c_orchestra := None
|}.

(** [byIdRaw.get(id) || byIdNorm.get(matchKey(id)) || null] *)
Definition resolveId (workingSet : list Track) (id : option jsstring) : option Track :=
  match findLast (fun t => optEqb (getId t) id) workingSet with
  | Some t => Some t
  | None => findLast (fun t => jseqb (matchKey (getId t)) (matchKey id)) workingSet
  end.

(** Occurrence counts in insertion order ([freq] of the homogenize mode). *)
Fixpoint countInto (k : jsstring) (m : list (jsstring * Z)) : list (jsstring * Z) :=
  match m with
  | [] => [(k, 1%Z)]
  | (k', n) :: r =>
      if jseqb k' k then (k', (n + 1)%Z) :: r else (k', n) :: countInto k r
  end.

Section Route.

(** Step 5 orders the pool by a cost computed from tempo, energy and key
    fields; whatever the comparator does, the sorted array is a
    rearrangement of the pool. *)
Variable rankByContinuity : list Track -> list Track.

Variable workingSet : list Track.
Variables (style : jsstring) (orchestra : option jsstring).
Variables (avoidIds previouslySelected : list (option jsstring)).
Variables (topK : nat) (homogenize : bool).

Definition avoid : KeySet := toSet avoidIds.
Definition previouslySelectedSet : KeySet := toSet previouslySelected.
Definition wantStyle : jsstring := toLowerCase (trim style).

Definition needsBroadening : bool :=
  match previouslySelected with
  | [] => false
  | _ => true
  end.

Definition idKeyOf (t : Track) : jsstring := matchKey (getId t).

Definition notExcluded (key : jsstring) : bool :=
  negb (Set_has avoid key) && negb (Set_has previouslySelectedSet key).

Definition hasWantedStyle (t : Track) : bool :=
  existsb (fun s => jseqb s wantStyle) (styleTokens t).

Definition hasCompatibleStyle (t : Track) : bool :=
  existsb (fun s => includesStr (getCompatibleStyles wantStyle) s) (styleTokens t).

(** Step 4: the orchestra to narrow to. *)
Definition targetOrchestra : option jsstring :=
  if homogenize then
    let freq :=
      fold_left (fun m id =>
                   match resolveId workingSet id with
                   | Some tr =>
                       match orchestraOf tr with
                       | [] => m
                       | orch => countInto orch m
                       end
                   | None => m
                   end) avoidIds [] in
    match sortBy (fun a b => (snd b - snd a)%Z) freq with
    | (o, _) :: _ => if truthyStr (Some o) then Some o else None
    | [] => None
    end
  else
    match orchestra with
    | Some (c :: o) =>
        match trim (c :: o) with
        | [] => None
        | x => Some x
        end
    | _ => None
    end.

Definition styleBase : list Track :=
  filter (fun t => hasWantedStyle t && notExcluded (idKeyOf t)) workingSet.

(** Steps 3 and 4: the pool after the optional narrowing. *)
Definition narrowedBase : list Track :=
  match targetOrchestra with
  | Some target =>
      if negb needsBroadening then
        let strict := filter (fun t => jseqb (artistOrEmpty t) target) styleBase in
        if (Nat.min 3 topK <=? List.length strict)%nat then strict else styleBase
      else styleBase
  | None => styleBase
  end.

(** The progressive broadening. *)
Definition broadenedBase : list Track :=
  let base := narrowedBase in
  if (List.length base =? 0)%nat ||
     ((List.length base <? topK)%nat && needsBroadening) then
    let base :=
      match targetOrchestra with
      | Some _ => styleBase
      | None => base
      end in
    let base :=
      if (List.length base <? Nat.max 1 topK)%nat then
        let expandedBase :=
          filter (fun t => hasCompatibleStyle t && notExcluded (idKeyOf t)) workingSet in
        if (List.length base <? List.length expandedBase)%nat then expandedBase else base
      else base in
    match base with
    | [] => filter (fun t => notExcluded (idKeyOf t)) workingSet
    | _ => base
    end
  else base.

(** Step 6. *)
Definition slim : list Candidate :=
  map replaceRow (firstn (Nat.max 80 topK) (rankByContinuity broadenedBase)).

Definition slimKey (c : Candidate) : jsstring := matchKey (c_id c).

(** The [catch] branch of step 7: [randomIndex] is the value of
    [Math.floor(Math.random() * validCandidates.length)]. *)
Definition fallbackSelection (randomIndex : nat)
    : option jsstring * list (option jsstring) :=
  let validCandidates := filter (fun c => notExcluded (slimKey c)) slim in
  let validCandidates :=
    match validCandidates with
    | [] => slim
    | _ => validCandidates
    end in
  let fallbackTrack :=
    match nth_error validCandidates randomIndex with
    | Some c => Some c
    | None => nth_error slim 0
    end in
  let chosen :=
    match fallbackTrack with
    | Some c => c_id c
    | None => None
    end in
  (chosen,
   map c_id (filter (fun c => negb (optEqb (c_id c) chosen))
                    (firstn (Nat.min topK 6) slim))).

(** Step 7: the agent's choice if it parses and is not excluded, the
    fallback otherwise. *)
Definition selection (answer : option ReplacementOut) (randomIndex : nat)
    : option jsstring * list (option jsstring) :=
  match answer with
  | Some out =>
      if validReplacement out && notExcluded (matchKey (Some (chosenId out)))
      then (Some (chosenId out), map Some (suggestions out))
      else fallbackSelection randomIndex
  | None => fallbackSelection randomIndex
  end.

(** Filtering and resolution of the suggestions. *)
Definition suggestionsOut (replacementId : option jsstring)
    (proposed : list (option jsstring)) : list (option jsstring) :=
  let keep := fun id =>
    notExcluded (matchKey id) &&
    negb (jseqb (matchKey id) (matchKey replacementId)) in
  let out :=
    firstn topK
      (map (fun id => match resolveId workingSet id with
                      | Some t => getId t
                      | None => id
                      end)
           (filter keep proposed)) in
  if (List.length out <? topK)%nat then
    let additional :=
      firstn (topK - List.length out)
        (filter (fun c => keep (c_id c) &&
                          negb (existsb (fun e => jseqb (matchKey e) (slimKey c)) out))
                slim) in
    out ++ map c_id additional
  else out.

(** The handler from step 3 on.  [randomIndex] is smaller than the number
    of valid candidates whenever there is one. *)
Definition replaceTrack (answer : option ReplacementOut) (randomIndex : nat) : Response :=
  match slim with
  | [] => Failed 404
  | first :: _ =>
      let '(chosen, proposed) := selection answer randomIndex in
      match nullish (resolveId workingSet chosen) (resolveId workingSet (c_id first)) with
      | None => Failed 500
      | Some track =>
          let replacementId := getId track in
          if Set_has avoid (matchKey replacementId) then Failed 500
          else Ok replacementId (suggestionsOut replacementId proposed)
      end
  end.

End Route.

End Replace.
Export Replace.
(* ------------------------------------------------------------------ *)
(** ** Concrete libraries and oracles used in the examples below *)
(* ------------------------------------------------------------------ *)

Module Examples.

Local Open Scope string_scope.

(** A library entry with an id, an artist, a genre and a duration in seconds. *)
Definition mkTrack (id artist genre : string) (seconds : Q) : Track := {|
  t_id := Some (js id); t_path := None; t_uri := None; t_file := None;
  t_title := Some (js id); t_artist := Some (js artist); t_album := None;
  t_year := VNull; t_styles := None; t_placeholder := false;
  t_duration := VNum seconds; t_durationMs := VNull; t_durationSec := VNull;
  t_length := VNull; audio_duration := VNull; format_durationSec := VNull;
  tags_title := None; tags_artist := None; tags_album := None;
  tags_genre := GOne (js genre); tags_year := VNull; tags_recordingYear := VNull;
  tags_originalYear := VNull; tags_durationSec := VNull;
  metadata_artist := None; metadata_year := VNull;
  metadata_recordingYear := VNull; metadata_originalYear := VNull
|}.

Definition mkRow (id artist : string) : Candidate :=
  {| c_id := Some (js id); c_tags_artist := None; c_artist := Some (js artist);
     c_orchestra := None |}.

Definition answer (style : string) (ids : list string) : option TandaOut :=
  Some {| o_style := js style; o_tracks := map js ids; o_notes := None;
          o_warnings := [] |}.

(** Six tangos of one orchestra, 100 seconds each. *)
Definition sixTangos : list Track :=
  map (fun id => mkTrack id "Di Sarli" "Tango" 100) ["t1"; "t2"; "t3"; "t4"; "t5"; "t6"].

(** Four valses of one orchestra, 150 seconds each. *)
Definition fourValses : list Track :=
  map (fun id => mkTrack id "Canaro" "Vals" 150) ["v1"; "v2"; "v3"; "v4"].

(** Two tangos and a vals of the same orchestra. *)
Definition mixedLibrary : list Track :=
  [mkTrack "a1" "Biagi" "Tango" 170; mkTrack "a2" "Biagi" "Tango" 175;
   mkTrack "w1" "Biagi" "Vals" 160].

Definition slot (style : string) (size : Z) : Slot :=
  {| s_style := js style; s_role := Some (js "classic"); s_size := size |}.

(** The ranking agent always proposes [orchestra]; the planner answers the
    [n]-th oracle call of the run with [tandas n]; no filler pool. *)
Definition scripted (orchestra : string) (tandas : nat -> option TandaOut)
    : Collaborators :=
  {| askOrchestras := fun _ => Some [js orchestra];
     askTanda := fun n _ => tandas n;
     listCortinas := fun _ => [] |}.

(** Three slots of two tangos, each answered with two fresh ids. *)
Definition threePairs : Collaborators :=
  scripted "Di Sarli"
    (fun n => match n with
              | 1%nat => answer "Tango" ["t1"; "t2"]
              | 3%nat => answer "Tango" ["t3"; "t4"]
              | 5%nat => answer "Tango" ["t5"; "t6"]
              | _ => None
              end).

(** One slot of three valses, answered with four ids. *)
Definition fourForThree : Collaborators :=
  scripted "Canaro" (fun _ => answer "Vals" ["v1"; "v2"; "v3"; "v4"]).

(** A planner that always answers with the same two ids. *)
Definition alwaysPair : TandaOracle := fun _ _ => answer "Tango" ["t1"; "t2"].

Definition tangoRows : list Candidate :=
  map (fun id => mkRow id "Di Sarli") ["t1"; "t2"; "t3"; "t4"; "t5"; "t6"].

(** One slot of two tangos, answered with a tango and a vals. *)
Definition offList : Collaborators :=
  scripted "Biagi" (fun _ => answer "Tango" ["a1"; "w1"]).

(** A library that lists one file under its name and under the URL-encoded
    form of that name, next to two other tangos. *)
Definition twoSpellings : list Track :=
  map (fun id => mkTrack id "Di Sarli" "Tango" 100)
      ["Tango%20Mix.mp3"; "Tango%2520Mix.mp3"; "t1"; "t2"].

(** Two slots of two tangos; each answer names one of the two spellings. *)
Definition spelledTwice : Collaborators :=
  scripted "Di Sarli"
    (fun n => match n with
              | 1%nat => answer "Tango" ["Tango%20Mix.mp3"; "t1"]
              | 3%nat => answer "Tango" ["Tango%2520Mix.mp3"; "t2"]
              | _ => None
              end).

End Examples.
(* ------------------------------------------------------------------ *)
(** ** Predicates and measures used in the statements *)
(* ------------------------------------------------------------------ *)

(** *** Durations *)

(** What a parser does with a finite number. *)
Definition millisecondRule (parse : jsval -> Q) : Prop :=
  forall v : Q,
    (6000 < v -> parse (VNum v) = Math_round (v / 1000))%Q /\
    (v <= 6000 -> parse (VNum v) = Math_round v)%Q.

(** *** The retry ladder *)

Definition isAlternative (a : Attempt) : Prop :=
  exists i o, a_rung a = Alternative i o.

(** *** A run of the streaming route *)

Definition keyOf (t : Track) : jsstring := matchKey (getId t).

Definition allKeys (tandas : list Tanda) : list jsstring := flat_map groupKeys tandas.

(** What every state of the planning loop satisfies, for a working set and
    a budget in seconds. *)
Record RunInv (workingSet : list Track) (budget : Q) (st : RunState) : Prop := {
  inv_sent : emittedTandas (sent st) = tandasResolved st;
  inv_nodup : NoDup (allKeys (tandasResolved st));
  inv_used : forall k, In k (allKeys (tandasResolved st)) ->
                       Set_has (usedIds st) k = true;
  inv_set : NoDup (usedIds st);
  inv_members : forall td t, In td (tandasResolved st) -> In t (td_tracks td) ->
                             t = placeholderTrack \/ In t workingSet;
  inv_budget : (remainingSeconds st == budget - tandaSecondsTotal (tandasResolved st))%Q;
  inv_floor : tandasResolved st = [] \/ (- (30) <= remainingSeconds st)%Q
}.

(** The seconds of the cortinas placed between [n] tandas, the first of
    them taken at index [i] of the pool. *)
Fixpoint fillerSeconds (cortinas : list Cortina) (i : nat) (n : nat) : Q :=
  match n with
  | O => 0
  | S O => 0
  | S n' => (cortinaSeconds (cortinaAt cortinas i) + fillerSeconds cortinas (S i) n')%Q
  end.

(** *** Spellings of a path *)

(** [replaceBackslashes] on one code unit. *)
Definition replUnit (c : N) : N := if (c =? 92)%N then 47%N else c.

(** Two code units that differ at most in case or in the kind of slash. *)
Inductive variantUnit : N -> N -> Prop :=
| vu_same (c : N) : variantUnit c c
| vu_back : variantUnit 92%N 47%N
| vu_slash : variantUnit 47%N 92%N
| vu_lower (c : N) : (65 <= c <= 90)%N -> variantUnit c (c + 32)%N
| vu_upper (c : N) : (65 <= c <= 90)%N -> variantUnit (c + 32)%N c.

(** Two strings that are variants of each other, unit by unit. *)
Definition variants (a b : jsstring) : Prop := Forall2 variantUnit a b.

(** Relates two optional results: both absent, or both present and related. *)
Definition optRel {A : Type} (R : A -> A -> Prop) (x y : option A) : Prop :=
  match x, y with
  | Some a, Some b => R a b
  | None, None => True
  | _, _ => False
  end.

Definition sameEscape (x y : N * jsstring) : Prop :=
  fst x = fst y /\ variants (snd x) (snd y).

Definition sameOctets (x y : list N * jsstring) : Prop :=
  fst x = fst y /\ variants (snd x) (snd y).

(** The [try { decodeURIComponent } catch {}] step of [norm]. *)
Definition decodeOrKeep (x : jsstring) : jsstring :=
  match decodeURIComponent x with
  | Some y => y
  | None => x
  end.

Definition withRest {A : Type} (t : jsstring) (x : A * jsstring) : A * jsstring :=
  (fst x, snd x ++ t).

(** Units that [trim] and the prefix test of [norm] leave alone. *)
Definition uriSafe (c : N) : Prop := (33 <= c <= 126)%N /\ c <> 58%N.

(** A JavaScript string is a sequence of 16-bit code units. *)
Definition codeUnits (s : jsstring) : Prop := Forall (fun c => (c < 65536)%N) s.

(** A Unicode scalar value. *)
Definition isScalar (v : N) : Prop := (v <= 1114111)%N /\ ~ (55296 <= v <= 57343)%N.
(* ------------------------------------------------------------------ *)
(** ** The fallback planner (dj-lib.js: makePlan) *)
(* ------------------------------------------------------------------ *)

Module DjLib.

Local Open Scope Q_scope.

(** An entry of [merged]: a library entry together with the top-level
    [genre] that [mergeSlotsAndTagsIntoTrack] writes. *)
Record PlanTrack := {
  m_track : Track;
  m_genre : genreField
}.

(** [t?.tags?.genre ?? t?.genre ?? ""] *)
Definition genreOf (t : PlanTrack) : genreField :=
  match tags_genre (m_track t) with
  | GAbsent =>
      match m_genre t with
      | GAbsent => GOne []
      | g => g
      end
  | g => g
  end.

(** [genreOf(t) === style]: an array is never equal to a string. *)
Definition isGenre (style : jsstring) (t : PlanTrack) : bool :=
  match genreOf t with
  | GOne g => jseqb g style
  | _ => false
  end.

(** [byGenre[style] ?? []].  The object has the keys Tango, Vals and
    Milonga; under any other name, inherited ones included, the [while]
    loop below finds nothing to pick. *)
Definition poolOf (merged : list PlanTrack) (style : jsstring) : list PlanTrack :=
  if includesStr [js "Tango"; js "Vals"; js "Milonga"] style
  then filter (isGenre style) merged
  else [].

(** [Math.max(2, Number(sizes?.[style] ?? 3))], for entries of [sizes] that
    are finite numbers; [None] is an absent entry. *)
Definition sizeOf (sizes : jsstring -> option Q) (style : jsstring) : Q :=
  Qmaxq 2 (match sizes style with
           | Some n => n
           | None => 3
           end).

(** [while (chosen.length < size && picks[style] < pool.length)
       chosen.push(pool[picks[style]++])]
    over the part of the pool that is not picked yet; [have] is
    [chosen.length]. *)
Fixpoint takeUpTo (size : Q) (have : nat) (rest : list PlanTrack) : list PlanTrack :=
  match rest with
  | [] => []
  | t :: r =>
      if Qltb (inject_Z (Z.of_nat have)) size then t :: takeUpTo size (S have) r
      else []
  end.

Record FallbackTanda := {
  ft_style : jsstring;
  ft_tracks : list PlanTrack;
  ft_seconds : Q
}.

(** [chosen.reduce((s, t) => s + getTrackSeconds(t), 0)] *)
Definition sumTrackSeconds (tracks : list PlanTrack) : Q :=
  fold_left (fun s t => s + getTrackSeconds (m_track t)) tracks 0.

(** [picks[style] += n] *)
Definition bump (picks : jsstring -> nat) (style : jsstring) (n : nat)
    : jsstring -> nat :=
  fun s => if jseqb s style then (picks s + n)%nat else picks s.

Section MakePlan.

Variable merged : list PlanTrack.
Variable sizes : jsstring -> option Q.

(** The [for (const style of pattern)] loop. *)
Fixpoint fillPattern (pattern : list jsstring) (picks : jsstring -> nat)
    (timeLeft : Q) : list FallbackTanda :=
  match pattern with
  | [] => []
  | style :: rest =>
      let chosen :=
        takeUpTo (sizeOf sizes style) 0 (skipn (picks style) (poolOf merged style)) in
      let picks' := bump picks style (List.length chosen) in
      match chosen with
      | [] => fillPattern rest picks' timeLeft
      | _ =>
          let seconds := sumTrackSeconds chosen in
          if Qle_bool seconds 0 then fillPattern rest picks' timeLeft
          else if Qltb timeLeft seconds then []
          else
            {| ft_style := style; ft_tracks := chosen; ft_seconds := seconds |} ::
            (if Qle_bool (timeLeft - seconds) 0 then []
             else fillPattern rest picks' (timeLeft - seconds))
      end
  end.

(** [Math.max(60, Math.floor(minutes) * 60)] *)
Definition timeBudget (minutes : Q) : Q :=
  Qmaxq 60 (inject_Z (Qfloor minutes) * 60).

(** [makePlan(merged, pattern, minutes, sizes, cortinas)]: the tandas and
    the cortinas handed in. *)
Definition makePlan {C : Type} (pattern : list jsstring) (minutes : Q) (cortinas : C)
    : list FallbackTanda * C :=
  (fillPattern pattern (fun _ => 0%nat) (timeBudget minutes), cortinas).

End MakePlan.

End DjLib.
Export DjLib.
(* ------------------------------------------------------------------ *)
(** ** The cortina pool (generate.js: listCortinas and its helpers) *)
(* ------------------------------------------------------------------ *)

Module Cortinas.

Local Open Scope Q_scope.

(** A row built by [toCortinaRow].  The id is truthy, the title a trimmed
    string. *)
Record CortinaRow := {
  cr_id : jsstring;
  cr_title : jsstring;
  cr_seconds : Q;
  cr_approxMinutes : Q
}.

(** The key of the defensive de-duplication: the template string with
    [x.id], two colons and [x.title]. *)
Definition rowKey (x : CortinaRow) : jsstring := cr_id x ++ js "::" ++ cr_title x.

Section Helpers.

Context {A : Type}.

(** [dedupeBy(arr, keyFn)], from a given [seen] set on. *)
Fixpoint dedupeFrom (keyFn : A -> jsstring) (seen : KeySet) (arr : list A) : list A :=
  match arr with
  | [] => []
  | it :: r =>
      if Set_has seen (keyFn it) then dedupeFrom keyFn seen r
      else it :: dedupeFrom keyFn (Set_add seen (keyFn it)) r
  end.

Definition dedupeBy (arr : list A) (keyFn : A -> jsstring) : list A :=
  dedupeFrom keyFn [] arr.

(** [a[i] = x] for an index inside the array. *)
Definition setAt (i : nat) (x : A) (a : list A) : list A :=
  firstn i a ++ x :: skipn (S i) a.

(** [[a[i], a[j]] = [a[j], a[i]]].  Both indices are inside the array
    whenever [shuffled] gets here, [Math.random()] being below 1. *)
Definition swap (i j : nat) (a : list A) : list A :=
  match nth_error a i, nth_error a j with
  | Some x, Some y => setAt j x (setAt i y a)
  | _, _ => a
  end.

(** [(u * n) | 0] for a draw [u] of [Math.random()]. *)
Definition randomBelow (u : Q) (n : nat) : nat :=
  Z.to_nat (Qfloor (u * inject_Z (Z.of_nat n))).

(** [for (let i = a.length - 1; i > 0; i--) { j = ...; swap }], the [k]-th
    draw of the run being [draws k]. *)
Fixpoint shuffleDown (draws : nat -> Q) (i k : nat) (a : list A) : list A :=
  match i with
  | O => a
  | S i' => shuffleDown draws i' (S k) (swap i (randomBelow (draws k) (S i)) a)
  end.

Definition shuffled (draws : nat -> Q) (arr : list A) : list A :=
  shuffleDown draws (List.length arr - 1) 0 arr.

(** [for (let i = 0; i < target; i++) out.push(base[i % base.length])] *)
Definition cycled (count : nat) (base : list A) : list A :=
  match base with
  | [] => []
  | d :: _ => map (fun i => nth (i mod List.length base) base d) (seq 0 count)
  end.

End Helpers.

(** [listCortinas] from the pool of rows on.  [tandasCount] is the value
    of the variable once the argument is read: [None] for [null], [Some n]
    for a finite number [n].  A bare number argument that is [NaN] or
    infinite is not covered. *)
Definition selectCortinas (pool : list CortinaRow) (tandasCount : option Q)
    (includeFinal shuffle : bool) (draws : nat -> Q) : list CortinaRow :=
  match pool with
  | [] => []
  | _ =>
      match tandasCount with
      | None => if shuffle then shuffled draws pool else pool
      | Some n =>
          let target := if includeFinal then Qmaxq 0 n else Qmaxq 0 (n - 1) in
          if Qeq_bool target 0 then []
          else
            let pool := dedupeBy pool rowKey in
            let base := if shuffle then shuffled draws pool else pool in
            if Qle_bool target (lengthQ base)
            then firstn (Z.to_nat (Qfloor target)) base
            else cycled (Z.to_nat (Qceiling target)) base
      end
  end.

End Cortinas.
Export Cortinas.
(* ------------------------------------------------------------------ *)
(** ** Weighted orchestra pick (generate.js: countAvailableByOrchestra,
       pickOrchestraWeighted) *)
(* ------------------------------------------------------------------ *)

Module OrchestraPick.

Local Open Scope Q_scope.

(** [Array.isArray(g) ? g[0] : g] for [g = t?.tags?.genre]. *)
Definition firstGenre (t : Track) : option jsstring :=
  match tags_genre t with
  | GMany gs => hd_error gs
  | GOne g => Some g
  | GAbsent => None
  end.

(** The tracks the count does not [continue] over: first genre exactly
    [style], a truthy id, not used. *)
Definition countsFor (style : jsstring) (isUsed : option jsstring -> bool)
    (t : Track) : bool :=
  optEqb (firstGenre t) (Some style) && truthyStr (getId t) &&
  negb (isUsed (getId t)).

(** The [Map] from orchestra to number of available tracks, in insertion
    order. *)
Definition countAvailableByOrchestra (workingSet : list Track) (style : jsstring)
    (isUsed : option jsstring -> bool) : list (jsstring * Z) :=
  fold_left (fun m t => if countsFor style isUsed t
                        then countInto (orchestraOf t) m else m)
            workingSet [].

(** [availabilityMap.get(orch) || 0] *)
Definition availableFor (m : list (jsstring * Z)) (orch : jsstring) : Z :=
  match find (fun kv => jseqb (fst kv) orch) m with
  | Some kv => snd kv
  | None => 0%Z
  end.

(** [recentOrchestras.slice(-windowLen)]; [slice(-0)] is the whole array. *)
Definition lastN {A : Type} (n : nat) (l : list A) : list A :=
  match n with
  | O => l
  | _ => skipn (List.length l - n) l
  end.

(** [window.filter(o => o === orch).length] *)
Definition recentCount (window : list jsstring) (orch : jsstring) : Z :=
  Z.of_nat (List.length (filter (fun o => jseqb o orch) window)).

Definition diversityMultiplier (avail : Z) : Q :=
  if (avail <=? 15)%Z then 12 # 10
  else if (30 <? avail)%Z then 6 # 10
  else 1.

Record Weighted := {
  w_orch : jsstring;
  w_weight : Q
}.

(** [avail * jitter * (1 / (1 + rc)) * diversityMultiplier] with
    [jitter = 0.85 + 0.30 * Math.random()]. *)
Definition weightOf (avail rc : Z) (u : Q) : Q :=
  inject_Z avail * ((85 # 100) + (30 # 100) * u) * (1 / (1 + inject_Z rc)) *
  diversityMultiplier avail.

(** The loop that fills [bag]; [k] counts the calls of [Math.random()]
    made so far, the [k]-th of which returns [draws k]. *)
Fixpoint buildBag (draws : nat -> Q) (k : nat) (availabilityMap : list (jsstring * Z))
    (window : list jsstring) (sizeTarget : Z) (suggestions : list (option jsstring))
    : list Weighted * nat :=
  match suggestions with
  | [] => ([], k)
  | s :: rest =>
      let orch := trim (optStr s) in
      let avail := availableFor availabilityMap orch in
      if (avail <? sizeTarget)%Z
      then buildBag draws k availabilityMap window sizeTarget rest
      else
        let weight := weightOf avail (recentCount window orch) (draws k) in
        let '(bag, k') :=
          buildBag draws (S k) availabilityMap window sizeTarget rest in
        if Qltb 0 weight then ({| w_orch := orch; w_weight := weight |} :: bag, k')
        else (bag, k')
  end.

(** [for (const x of bag) if ((r -= x.weight) <= 0) return x.orch] *)
Fixpoint roulette (r : Q) (bag : list Weighted) : option jsstring :=
  match bag with
  | [] => None
  | x :: rest =>
      if Qle_bool (r - w_weight x) 0 then Some (w_orch x)
      else roulette (r - w_weight x) rest
  end.

(** [suggestions] holds the [orchestra] field of each suggestion, [None]
    when it is missing. *)
Definition pickOrchestraWeighted (draws : nat -> Q)
    (suggestions : list (option jsstring)) (availabilityMap : list (jsstring * Z))
    (recentOrchestras : list jsstring) (sizeTarget : Z) (windowLen : nat)
    : option jsstring :=
  match suggestions with
  | [] => None
  | _ =>
      let window := lastN windowLen recentOrchestras in
      let '(bag, k) := buildBag draws 0 availabilityMap window sizeTarget suggestions in
      match bag with
      | [] => None
      | x0 :: _ =>
          let total := fold_left (fun s x => s + w_weight x) bag 0 in
          let r := draws k * total in
          match roulette r bag with
          | Some o => Some o
          | None => Some (w_orch (last bag x0))
          end
      end
  end.

End OrchestraPick.
Export OrchestraPick.
(* ------------------------------------------------------------------ *)
(** ** Clock strings and the display timeline (generate.js: fmtClock,
       buildDisplayTimeline) *)
(* ------------------------------------------------------------------ *)

Module Clock.

(** [String(n)] for a non-negative integer below 10^21: its decimal
    digits.  [fuel] bounds the number of digits. *)
Fixpoint digitsFrom (fuel : nat) (n : N) (acc : jsstring) : jsstring :=
  match fuel with
  | O => acc
  | S f =>
      let acc' := (48 + n mod 10)%N :: acc in
      if (n <? 10)%N then acc' else digitsFrom f (n / 10)%N acc'
  end.

Definition decimalString (n : N) : jsstring :=
  digitsFrom (S (N.to_nat (N.log2 n))) n [].

(** [s.padStart(2, "0")] *)
Definition padStart2 (s : jsstring) : jsstring :=
  repeat 48%N (2 - List.length s) ++ s.

(** [Math.max(0, Math.round(totalSec))] *)
Definition wholeSeconds (totalSec : Q) : N :=
  Z.to_N (Z.max 0 (Qfloor (totalSec + (1 # 2)))).

Definition fmtClock (totalSec : Q) : jsstring :=
  let s := wholeSeconds totalSec in
  let h := (s / 3600)%N in
  let m := ((s mod 3600) / 60)%N in
  let sec := (s mod 60)%N in
  if (0 <? h)%N
  then decimalString h ++ js ":" ++ padStart2 (decimalString m) ++ js ":" ++
       padStart2 (decimalString sec)
  else decimalString m ++ js ":" ++ padStart2 (decimalString sec).

Local Open Scope Q_scope.

(** A track of the timeline: the fields of [pickTrackFields] stand behind
    [ts_track]. *)
Record TrackSpan := {
  ts_index : nat;
  ts_track : Track;
  ts_startSec : Q;
  ts_endSec : Q;
  ts_startClock : jsstring;
  ts_endClock : jsstring
}.

Record TimelineRow := {
  tl_index : nat;
  tl_style : jsstring;
  tl_durationSec : Q;
  tl_startSec : Q;
  tl_endSec : Q;
  tl_startClock : jsstring;
  tl_endClock : jsstring;
  tl_tracks : list TrackSpan
}.

(** [trPlain.seconds > 0 ? trPlain.seconds
      : Math.round(td.seconds / Math.max(1, td.tracks.length))] *)
Definition trackLength (td : Tanda) (tr : Track) : Q :=
  if Qltb 0 (durationSec tr) then durationSec tr
  else Math_round (td_seconds td / Qmaxq 1 (lengthQ (td_tracks td))).

(** [td.tracks.map((tr, j) => ...)] with its running [trackCursor]. *)
Fixpoint spansFrom (td : Tanda) (j : nat) (trackCursor : Q) (tracks : list Track)
    : list TrackSpan :=
  match tracks with
  | [] => []
  | tr :: rest =>
      let endSec := trackCursor + trackLength td tr in
      {| ts_index := S j; ts_track := tr;
         ts_startSec := trackCursor; ts_endSec := endSec;
         ts_startClock := fmtClock trackCursor; ts_endClock := fmtClock endSec |}
      :: spansFrom td (S j) endSec rest
  end.

(** The [for] loop over the tandas with its running [cursor]. *)
Fixpoint timelineFrom (i : nat) (cursor : Q) (tandas : list Tanda)
    : list TimelineRow :=
  match tandas with
  | [] => []
  | td :: rest =>
      let tandaEnd := cursor + td_seconds td in
      {| tl_index := S i; tl_style := td_style td;
         tl_durationSec := td_seconds td;
         tl_startSec := cursor; tl_endSec := tandaEnd;
         tl_startClock := fmtClock cursor; tl_endClock := fmtClock tandaEnd;
         tl_tracks := spansFrom td 0 cursor (td_tracks td) |}
      :: timelineFrom (S i) tandaEnd rest
  end.

Definition buildDisplayTimeline (resolvedTandas : list Tanda) : list TimelineRow :=
  timelineFrom 0 0 resolvedTandas.

End Clock.
Export Clock.
(* ------------------------------------------------------------------ *)
(** ** merge-duration.js: normPath and toIntSecondsFromEnriched *)
(* ------------------------------------------------------------------ *)

Module MergeDuration.

Local Open Scope Q_scope.

(** [normPath(p)]: [null] for a falsy path, the normalised path
    otherwise. *)
Definition normPath (p : option jsstring) : option jsstring :=
  match p with
  | None => None
  | Some [] => None
  | Some s => Some (norm (Some s))
  end.

(** [\d{2}] *)
Definition twoDigits (s : jsstring) : bool :=
  match s with
  | [a; b] => isDigit a && isDigit b
  | _ => false
  end.

(** [/^\d+:\d{2}(:\d{2})?$/.test(v)] *)
Definition clockPattern (v : jsstring) : bool :=
  match splitOn 58 v with
  | [a; b] => allDigits a && twoDigits b
  | [a; b; c] => allDigits a && twoDigits b && twoDigits c
  | _ => false
  end.

(** The fields of an enriched track that the script reads. *)
Record Enriched := {
  e_wavPath : option jsstring;
  e_absPath : option jsstring;
  e_path : option jsstring;
  e_format_durationSec : jsval;
  e_format_duration : jsval;
  e_tags_durationSec : jsval
}.

(** [toIntSecondsFromEnriched] from the value [v] on: [VNull] is [null],
    [VNonFinite] the rounding of an infinite number of seconds. *)
Definition toIntSeconds (v : jsval) : jsval :=
  match v with
  | VNull => VNull
  | _ =>
      match NumberOf v with
      | Some num => VNum (Math_round num)
      | None =>
          match v with
          | VStr s =>
              if clockPattern s then
                match allFinite (map StringToNumber (splitOn 58 s)) with
                | Some [a; b; c] => VNum (Math_round (a * 3600 + b * 60 + c))
                | Some (a :: b :: _) => VNum (Math_round (a * 60 + b))
                | _ => VNonFinite
                end
              else VNull
          | _ => VNull
          end
      end
  end.

Definition toIntSecondsFromEnriched (t : Enriched) : jsval :=
  toIntSeconds
    (nullishVal (e_format_durationSec t)
       (nullishVal (e_format_duration t) (e_tags_durationSec t))).

End MergeDuration.
Export MergeDuration.
(* ------------------------------------------------------------------ *)
(** ** Further concrete inputs used in the examples below *)
(* ------------------------------------------------------------------ *)

Module MoreExamples.

Local Open Scope string_scope.

(** An entry of a merged catalog without a top-level genre. *)
Definition merged (id artist genre : string) (seconds : Q) : PlanTrack :=
  {| m_track := Examples.mkTrack id artist genre seconds; m_genre := GAbsent |}.

(** Three tangos of three minutes and two valses of two and a half. *)
Definition smallCatalog : list PlanTrack :=
  [merged "t1" "Di Sarli" "Tango" 180; merged "v1" "Canaro" "Vals" 150;
   merged "t2" "Di Sarli" "Tango" 180; merged "t3" "Di Sarli" "Tango" 180;
   merged "v2" "Canaro" "Vals" 150].

(** No entry in [sizes]. *)
Definition noSizes : jsstring -> option Q := fun _ => None.

End MoreExamples.
(* ------------------------------------------------------------------ *)
(** ** Further predicates used in the statements *)
(* ------------------------------------------------------------------ *)

(** A string that does not begin with white space. *)
Definition headed (u : jsstring) : Prop := trimStart u = u.

(** What the groups of [buildOrchestraProfiles] satisfy, for the tracks
    seen so far. *)
Definition grouped (m : list (jsstring * list Track)) (seen : list Track) : Prop :=
  NoDup (map fst m) /\
  (forall k ts, In (k, ts) m ->
     ts <> [] /\ forall t, In t ts -> orchestraOf t = k /\ In t seen) /\
  (forall t, In t seen -> In (orchestraOf t) (map fst m)).

(** *** The lines of a run *)

(** The tanda lines that follow line number [i], with [remaining] seconds
    left before the first of them: each line carries its number and the
    seconds left after its tanda. *)
Fixpoint eventsFrom (i : nat) (remaining : Q) (tandas : list Tanda) : list Event :=
  match tandas with
  | [] => []
  | td :: rest =>
      EvTanda (S i) (remaining - td_seconds td)%Q td ::
      eventsFrom (S i) (remaining - td_seconds td)%Q rest
  end.

(** What holds of a tanda that the route accepts for [slot] with
    [remaining] seconds left. *)
Record accepted (remaining : Q) (slot : Slot) (td : Tanda) : Prop := {
  acc_style : td_style td = s_style slot;
  acc_role : td_role td = s_role slot;
  acc_size : (s_size slot <= Z.of_nat (List.length (td_tracks td)))%Z;
  acc_tracks : td_tracks td <> [];
  acc_guard : (60 < remaining)%Q;
  acc_positive : (0 < td_seconds td)%Q;
  acc_fits : (td_seconds td <= remaining + 30)%Q;
  acc_sum : (0 < sumSeconds (td_tracks td))%Q ->
            td_seconds td = sumSeconds (td_tracks td);
  acc_default : (sumSeconds (td_tracks td) <= 0)%Q ->
                td_seconds td = (180 * lengthQ (td_tracks td))%Q
}.

(** The tandas of a run against its slots: a slot yields no tanda or one
    accepted tanda, in slot order, and the seconds left shrink by each
    tanda. *)
Inductive planned : Q -> list Slot -> list Tanda -> Prop :=
| planned_stop (remaining : Q) (slots : list Slot) : planned remaining slots []
| planned_skip (remaining : Q) (slot : Slot) (slots : list Slot) (tandas : list Tanda) :
    planned remaining slots tandas -> planned remaining (slot :: slots) tandas
| planned_take (remaining : Q) (slot : Slot) (slots : list Slot) (td : Tanda)
    (tandas : list Tanda) :
    accepted remaining slot td ->
    planned (remaining - td_seconds td)%Q slots tandas ->
    planned remaining (slot :: slots) (td :: tandas).

(** A step that leaves the plan, the stream and the budget alone. *)
Definition quiet (st st' : RunState) : Prop :=
  tandasResolved st' = tandasResolved st /\ sent st' = sent st /\
  remainingSeconds st' = remainingSeconds st.

(** A step that appends [td] and reports it. *)
Definition pushed (st st' : RunState) (td : Tanda) : Prop :=
  tandasResolved st' = tandasResolved st ++ [td] /\
  sent st' = sent st ++ [EvTanda (S (List.length (tandasResolved st)))
                           (remainingSeconds st - td_seconds td)%Q td] /\
  remainingSeconds st' = (remainingSeconds st - td_seconds td)%Q.

(** Growth of the call counters by at most [a] planner calls and [c] calls
    in all. *)
Definition grown (a c : nat) (st st' : RunState) : Prop :=
  (List.length (attempts st') <= List.length (attempts st) + a)%nat /\
  (calls st' <= calls st + c)%nat.

(** The state in which the planning loop stopped, however it stopped. *)
Definition stopped (r : RunState + RunState) : RunState :=
  match r with
  | inl s => s
  | inr s => s
  end.

(** *** The fallback planner *)

(** The seconds of a fallback plan. *)
Fixpoint plannedSeconds (tandas : list FallbackTanda) : Q :=
  match tandas with
  | [] => 0
  | td :: r => (ft_seconds td + plannedSeconds r)%Q
  end.

(** The part of a style's pool that is still to be picked from. *)
Definition unpicked (merged : list PlanTrack) (picks : jsstring -> nat)
    (style : jsstring) : list PlanTrack :=
  skipn (picks style) (poolOf merged style).
(* ------------------------------------------------------------------ *)
(** ** Facts about strings *)
(* ------------------------------------------------------------------ *)

Section JsStringFacts.

Local Open Scope N_scope.

Lemma jseqb_eq (a b : jsstring) : jseqb a b = true <-> a = b.
Proof.
  revert b; induction a as [|x a IH]; intros [|y b]; simpl; split; intro H;
    try reflexivity; try discriminate.
  - apply andb_true_iff in H as [Hx Hr].
    apply N.eqb_eq in Hx. apply IH in Hr. now subst.
  - inversion H; subst. rewrite N.eqb_refl. simpl. now apply IH.
Qed.

Lemma jseqb_refl (a : jsstring) : jseqb a a = true.
Proof. now apply jseqb_eq. Qed.

Lemma jseqb_neq (a b : jsstring) : jseqb a b = false <-> a <> b.
Proof.
  split.
  - intros H E. apply jseqb_eq in E. congruence.
  - intro H. destruct (jseqb a b) eqn:E; [|reflexivity].
    apply jseqb_eq in E. contradiction.
Qed.

Lemma includesStr_In (l : list jsstring) (s : jsstring) :
  includesStr l s = true <-> In s l.
Proof.
  unfold includesStr. rewrite existsb_exists. split.
  - intros [x [Hx E]]. apply jseqb_eq in E. now subst.
  - intro H. exists s. split; [assumption | apply jseqb_refl].
Qed.

End JsStringFacts.

(* ------------------------------------------------------------------ *)
(** ** Properties of the Camelot distance *)
(* ------------------------------------------------------------------ *)

Section CamelotFacts.

Local Open Scope Z_scope.

Lemma indexOf_range (l : list jsstring) (k : jsstring) :
  In k l -> 0 <= indexOf l k < Z.of_nat (length l).
Proof.
  induction l as [|x l IH]; intro H; [destruct H|].
  cbn [indexOf length]. destruct (jseqb x k) eqn:E.
  - lia.
  - destruct H as [H|H]; [subst; rewrite jseqb_refl in E; discriminate|].
    specialize (IH H). destruct (indexOf l k <? 0) eqn:L.
    + apply Z.ltb_lt in L. lia.
    + lia.
Qed.

Lemma indexOf_absent (l : list jsstring) (k : jsstring) :
  ~ In k l -> indexOf l k = -1.
Proof.
  induction l as [|x l IH]; intro H; [reflexivity|].
  cbn [indexOf]. destruct (jseqb x k) eqn:E.
  - apply jseqb_eq in E. subst. exfalso. apply H. now left.
  - rewrite IH by (intro; apply H; now right). reflexivity.
Qed.

Lemma validKey_not_falsy (k : jsstring) : validKey k -> falsyStr (Some k) = false.
Proof.
  intro H. destruct k; [|reflexivity].
  exfalso. unfold validKey, CAMELOT_ORDER in H. cbn in H.
  repeat (destruct H as [H|H]; [discriminate|]). exact H.
Qed.

Lemma camelotDistance_valid (a b : jsstring) :
  validKey a -> validKey b ->
  camelotDistance (Some a) (Some b) =
    Z.min (Z.abs (indexOf CAMELOT_ORDER a - indexOf CAMELOT_ORDER b))
          (24 - Z.abs (indexOf CAMELOT_ORDER a - indexOf CAMELOT_ORDER b)).
Proof.
  intros Ha Hb. unfold camelotDistance.
  rewrite (validKey_not_falsy a Ha), (validKey_not_falsy b Hb). cbn [orb].
  pose proof (indexOf_range _ _ Ha) as Ia. pose proof (indexOf_range _ _ Hb) as Ib.
  destruct (indexOf CAMELOT_ORDER a <? 0) eqn:La; [apply Z.ltb_lt in La; lia|].
  destruct (indexOf CAMELOT_ORDER b <? 0) eqn:Lb; [apply Z.ltb_lt in Lb; lia|].
  reflexivity.
Qed.

Lemma camelotDistance_sym (k1 k2 : option jsstring) :
  camelotDistance k1 k2 = camelotDistance k2 k1.
Proof.
  unfold camelotDistance. destruct k1 as [a|], k2 as [b|]; try reflexivity.
  rewrite (orb_comm (falsyStr (Some a))).
  destruct (falsyStr (Some b) || falsyStr (Some a)); [reflexivity|].
  rewrite (orb_comm (indexOf CAMELOT_ORDER a <? 0)).
  destruct ((indexOf CAMELOT_ORDER b <? 0) || (indexOf CAMELOT_ORDER a <? 0));
    [reflexivity|].
  replace (indexOf CAMELOT_ORDER b - indexOf CAMELOT_ORDER a)
    with (- (indexOf CAMELOT_ORDER a - indexOf CAMELOT_ORDER b)) by lia.
  now rewrite Z.abs_opp.
Qed.

Lemma camelotDistance_invalid_l (k1 k2 : option jsstring) :
  (forall a, k1 = Some a -> ~ validKey a) -> camelotDistance k1 k2 = 99.
Proof.
  intro H. unfold camelotDistance. destruct k1 as [a|]; [|reflexivity].
  destruct k2 as [b|]; [|reflexivity].
  destruct (falsyStr (Some a) || falsyStr (Some b)); [reflexivity|].
  rewrite (indexOf_absent CAMELOT_ORDER a) by (apply H; reflexivity).
  reflexivity.
Qed.

End CamelotFacts.

(** C8 (as stated) fails: the distance of an unknown or absent key to itself
    is the sentinel 99, which is neither 0 nor at most 12. *)
Lemma camelotDistance_sentinel_counterexample :
  camelotDistance (Some (js "13A")) (Some (js "13A")) <> 0%Z /\
  camelotDistance None None <> 0%Z /\
  ~ (camelotDistance (Some (js "8A")) None <= 12)%Z.
Proof. vm_compute. repeat split; intro H; discriminate H || (apply H; reflexivity). Qed.

(** C8 (amended): on keys of CAMELOT_ORDER the distance of a key to itself is
    0 and the distance is between 0 and 12; the distance is symmetric for all
    arguments; when an argument is absent or not in CAMELOT_ORDER the result
    is the sentinel 99. *)
Theorem camelotDistance_metric_on_valid_keys :
  (forall k, validKey k -> camelotDistance (Some k) (Some k) = 0%Z) /\
  (forall a b, camelotDistance a b = camelotDistance b a) /\
  (forall a b, validKey a -> validKey b ->
     (0 <= camelotDistance (Some a) (Some b) <= 12)%Z) /\
  (forall a b, (forall k, a = Some k -> ~ validKey k) ->
     camelotDistance a b = 99%Z /\ camelotDistance b a = 99%Z).
Proof.
  split; [|split; [|split]].
  - intros k Hk. rewrite camelotDistance_valid by assumption.
    rewrite Z.sub_diag. reflexivity.
  - exact camelotDistance_sym.
  - intros a b Ha Hb. rewrite camelotDistance_valid by assumption.
    pose proof (indexOf_range _ _ Ha) as Ia. pose proof (indexOf_range _ _ Hb) as Ib.
    change (Z.of_nat (length CAMELOT_ORDER)) with 24%Z in Ia, Ib. lia.
  - intros a b H. split.
    + now apply camelotDistance_invalid_l.
    + rewrite camelotDistance_sym. now apply camelotDistance_invalid_l.
Qed.

Lemma camelotDistance_metric_on_valid_keys_witness :
  camelotDistance (Some (js "8A")) (Some (js "8A")) = 0%Z /\
  (0 <= camelotDistance (Some (js "1A")) (Some (js "1B")) <= 12)%Z /\
  camelotDistance None (Some (js "8A")) = 99%Z.
Proof.
  destruct camelotDistance_metric_on_valid_keys as [H0 [_ [Hb Hs]]].
  split; [|split].
  - apply H0. unfold validKey. vm_compute. tauto.
  - apply Hb; unfold validKey; vm_compute; tauto.
  - apply (Hs None (Some (js "8A"))). intros k E. discriminate E.
Defined.
(* ------------------------------------------------------------------ *)
(** ** The millisecond heuristic of the duration parsers *)
(* ------------------------------------------------------------------ *)

Section DurationFacts.

Local Open Scope Q_scope.

Lemma Qltb_true (a b : Q) : Qltb a b = true <-> a < b.
Proof.
  unfold Qltb. rewrite negb_true_iff. split.
  - intro H. apply Qnot_le_lt. intro L. apply Qle_bool_iff in L. congruence.
  - intro H. destruct (Qle_bool b a) eqn:E; [|reflexivity].
    apply Qle_bool_iff in E. exfalso. exact (Qlt_not_le _ _ H E).
Qed.

Lemma Qltb_false (a b : Q) : Qltb a b = false <-> b <= a.
Proof.
  unfold Qltb. rewrite negb_false_iff. apply Qle_bool_iff.
Qed.

Lemma Math_round_near (q : Q) : q - (1 # 2) < Math_round q <= q + (1 # 2).
Proof.
  unfold Math_round. split.
  - pose proof (Qlt_floor (q + (1 # 2))) as H.
    rewrite inject_Z_plus in H. change (inject_Z 1) with 1 in H. lra.
  - apply Qfloor_le.
Qed.

Lemma toSeconds_rule : millisecondRule toSeconds.
Proof.
  intro v. cbn [toSeconds]. split; intro H.
  - apply Qltb_true in H. now rewrite H.
  - apply Qltb_false in H. now rewrite H.
Qed.

Lemma durationSecSafe_rule : millisecondRule durationSecSafe_parse.
Proof.
  intro v. cbn [durationSecSafe_parse]. split; intro H.
  - apply Qltb_true in H. now rewrite H.
  - apply Qltb_false in H. now rewrite H.
Qed.

Lemma djlib_toSeconds_rule : millisecondRule djlib_toSeconds.
Proof.
  intro v. cbn [djlib_toSeconds]. split; intro H.
  - apply Qltb_true in H. now rewrite H.
  - apply Qltb_false in H. now rewrite H.
Qed.

End DurationFacts.

(** C10: each of the three duration parsers (generate.js [toSeconds],
    [durationSecSafe], dj-lib.js [toSeconds]) returns [round(v/1000)] for a
    finite number [v > 6000] and [round(v)] for [v <= 6000]; hence a value
    above 6000 that was meant as seconds comes back within half a second of
    a thousandth of it. *)
Theorem duration_parsers_millisecond_heuristic :
  millisecondRule toSeconds /\
  millisecondRule durationSecSafe_parse /\
  millisecondRule djlib_toSeconds /\
  (forall t, durationSecSafe t = durationSecSafe_parse (durationSecSafe_field t)) /\
  (forall v : Q, 6000 < v ->
     toSeconds (VNum v) = durationSecSafe_parse (VNum v) /\
     toSeconds (VNum v) = djlib_toSeconds (VNum v) /\
     v / 1000 - (1 # 2) < toSeconds (VNum v) <= v / 1000 + (1 # 2) /\
     toSeconds (VNum v) < v)%Q.
Proof.
  split; [exact toSeconds_rule|].
  split; [exact durationSecSafe_rule|].
  split; [exact djlib_toSeconds_rule|].
  split; [reflexivity|].
  intros v Hv.
  destruct (toSeconds_rule v) as [E1 _].
  destruct (durationSecSafe_rule v) as [E2 _].
  destruct (djlib_toSeconds_rule v) as [E3 _].
  rewrite (E1 Hv), (E2 Hv), (E3 Hv).
  split; [reflexivity|]. split; [reflexivity|].
  pose proof (Math_round_near (v / 1000)) as [Hlo Hhi].
  split; [split; assumption|].
  eapply Qle_lt_trans; [exact Hhi|].
  unfold Qdiv. change (/ 1000) with (1 # 1000). lra.
Qed.

Lemma duration_parsers_millisecond_heuristic_witness :
  (toSeconds (VNum 7200) == 7)%Q /\
  (djlib_toSeconds (VNum 180) == 180)%Q /\
  (durationSecSafe_parse (VNum 6000) == 6000)%Q /\
  (toSeconds (VNum 6001) == 6)%Q.
Proof.
  destruct duration_parsers_millisecond_heuristic as [H1 [H2 [H3 _]]].
  split; [|split; [|split]].
  - destruct (H1 7200%Q) as [E _]. rewrite E; [reflexivity|reflexivity].
  - destruct (H3 180%Q) as [_ E]. rewrite E; [reflexivity|discriminate].
  - destruct (H2 6000%Q) as [_ E]. rewrite E; [reflexivity|discriminate].
  - destruct (H1 6001%Q) as [E _]. rewrite E; [reflexivity|reflexivity].
Defined.
(* ------------------------------------------------------------------ *)
(** ** The planner: candidate widening and the retry ladder *)
(* ------------------------------------------------------------------ *)

Section PlannerFacts.

Local Open Scope Z_scope.

Lemma broadenThreshold_ge (size : Z) : size <= broadenThreshold size.
Proof.
  unfold broadenThreshold. destruct (size =? 0) eqn:E.
  - apply Z.eqb_eq in E. lia.
  - lia.
Qed.

Lemma filteredCandidates_sparse (size : Z) (orchestra : option jsstring)
    (candidates : list Candidate) (allStyleCandidates : option (list Candidate)) :
  orchestraGiven orchestra = true ->
  Z.of_nat (List.length (filter (matchesOrchestra orchestra) candidates)) < size ->
  filteredCandidates size orchestra candidates allStyleCandidates =
    match allStyleCandidates with
    | Some (c :: broader) => c :: broader
    | _ => candidates
    end.
Proof.
  intros Hg Hlt. unfold filteredCandidates. rewrite Hg.
  pose proof (broadenThreshold_ge size) as Hth.
  destruct (Z.of_nat (List.length (filter (matchesOrchestra orchestra) candidates))
            <? broadenThreshold size) eqn:E.
  - destruct allStyleCandidates as [[|c broader]|]; try reflexivity.
    destruct candidates; reflexivity.
  - apply Z.ltb_ge in E. lia.
Qed.

(** **** the retry loop *)

Variable oracle : TandaOracle.
Variables (style : jsstring) (size : Z) (usedIds : KeySet).
Variables (candidates : list Candidate) (allStyleCandidates : option (list Candidate)).

Lemma countRealIds_nonneg (ids : list jsstring) : 0 <= countRealIds ids.
Proof. unfold countRealIds. lia. Qed.

Lemma countReal_nonneg (r : option PlanResult) : 0 <= countReal r.
Proof. destruct r; simpl; [apply countRealIds_nonneg | lia]. Qed.

Lemma keepBetter_zero (last new : option PlanResult) :
  countReal (keepBetter last new) = 0 <-> countReal last = 0 /\ countReal new = 0.
Proof.
  pose proof (countReal_nonneg last). pose proof (countReal_nonneg new).
  unfold keepBetter. destruct new as [n|].
  - destruct (countReal last <? countReal (Some n)) eqn:E.
    + apply Z.ltb_lt in E. lia.
    + apply Z.ltb_ge in E. lia.
  - simpl. lia.
Qed.

Lemma needsFallback_zero (r : option PlanResult) :
  needsFallback r = true <-> countReal r = 0.
Proof.
  unfold needsFallback. destruct r; simpl.
  - apply Z.eqb_eq.
  - split; reflexivity.
Qed.

Lemma retryLoop_log (alts : list jsstring) :
  forall i n last,
    let res := retryLoop oracle style size usedIds candidates allStyleCandidates
                 alts i n last in
    Forall isAlternative (snd res) /\
    (snd res = [] <-> alts = []) /\
    (countReal (fst res) = 0 <->
       countReal last = 0 /\ Forall (fun a => countReal (a_result a) = 0) (snd res)).
Proof.
  induction alts as [|alt rest IH]; intros i n last res; subst res.
  - simpl. repeat split; auto; intros; try tauto.
  - cbn [retryLoop].
    remember (attempt oracle style size usedIds candidates allStyleCandidates
                n (Alternative i alt) (Some alt)) as a eqn:Ea.
    assert (Ha : isAlternative a) by (exists i, alt; subst a; reflexivity).
    clear Ea.
    remember (keepBetter last (a_result a)) as last' eqn:El.
    specialize (IH (S i) (S n) last').
    destruct (retryLoop oracle style size usedIds candidates allStyleCandidates
                rest (S i) (S n) last') as [res log] eqn:ER.
    cbn [fst snd] in IH. destruct IH as [IH1 [IH2 IH3]].
    assert (Hstep :
      Forall isAlternative (a :: log) /\
      (a :: log = [] <-> alt :: rest = []) /\
      (countReal res = 0 <->
         countReal last = 0 /\
         Forall (fun a => countReal (a_result a) = 0) (a :: log))).
    { split; [constructor; assumption|]. split; [split; discriminate|].
      rewrite IH3. rewrite El. rewrite keepBetter_zero. split.
      - intros [[H1 H2] H3]. split; [assumption|]. constructor; assumption.
      - intros [H1 H2]. inversion H2; subst. tauto. }
    destruct (a_result a) as [r|] eqn:Er.
    + destruct (size - 1 <=? countReal (Some r)) eqn:Eb.
      * cbn [fst snd]. split; [repeat constructor; assumption|].
        split; [split; discriminate|].
        rewrite El. rewrite keepBetter_zero. split.
        -- intros [H1 H2]. split; [assumption|]. constructor; [|constructor].
           rewrite Er. assumption.
        -- intros [H1 H2]. inversion H2 as [|x l H3 H4]; subst x l.
           rewrite Er in H3. tauto.
      * cbn [fst snd]. exact Hstep.
    + cbn [fst snd]. exact Hstep.
Qed.

End PlannerFacts.

(** C7: when the filter by the requested orchestra leaves fewer rows than
    the tanda size, the candidate list sent to the oracle is (the first
    CAND_MAX rows of) the broader style pool handed to [planOneTanda]; when
    no such pool is handed over, or it is empty, the caller's candidate list
    is sent. *)
Theorem planOneTanda_widens_sparse_orchestra :
  forall (ask : AskTanda) (style : jsstring) (size : Z) (usedIds : KeySet)
         (candidates : list Candidate) (allStyleCandidates : option (list Candidate))
         (orchestra : option jsstring),
    orchestraGiven orchestra = true ->
    (Z.of_nat (List.length (filter (matchesOrchestra orchestra) candidates)) < size)%Z ->
    let widened :=
      match allStyleCandidates with
      | Some (c :: broader) => c :: broader
      | _ => candidates
      end in
    filteredCandidates size orchestra candidates allStyleCandidates = widened /\
    planOneTanda ask style size usedIds candidates allStyleCandidates orchestra =
      match ask {| q_style := trim style; q_size := size; q_orchestra := orchestra;
                   q_usedIds := usedIds; q_candidates := firstn CAND_MAX widened |} with
      | Some out => if validNextTanda out then Some (padTracks size out) else None
      | None => None
      end.
Proof.
  intros ask style size usedIds candidates allStyleCandidates orchestra Hg Hlt widened.
  pose proof (filteredCandidates_sparse size orchestra candidates allStyleCandidates Hg Hlt)
    as E.
  split; [exact E|].
  unfold planOneTanda, planRequest. rewrite E. reflexivity.
Qed.

Lemma planOneTanda_widens_sparse_orchestra_witness :
  filteredCandidates 4 (Some (js "Di Sarli"))
    [Examples.mkRow "d1" "Di Sarli"; Examples.mkRow "d2" "Carlos Di Sarli y su Orquesta";
     Examples.mkRow "p1" "Pugliese"]
    (Some [Examples.mkRow "d1" "Di Sarli"; Examples.mkRow "p1" "Pugliese";
           Examples.mkRow "p2" "Pugliese"; Examples.mkRow "c1" "Canaro"]) =
  [Examples.mkRow "d1" "Di Sarli"; Examples.mkRow "p1" "Pugliese";
   Examples.mkRow "p2" "Pugliese"; Examples.mkRow "c1" "Canaro"].
Proof.
  refine (proj1 (planOneTanda_widens_sparse_orchestra (fun _ => None) (js "Tango") 4 []
                   _ _ (Some (js "Di Sarli")) _ _)).
  - reflexivity.
  - vm_compute. reflexivity.
Defined.

Section LadderFacts.

Local Open Scope Z_scope.

Variable oracle : TandaOracle.
Variables (style : jsstring) (size : Z) (usedIds : KeySet).
Variables (candidates : list Candidate) (allStyleCandidates : option (list Candidate)).
Variables (profiles : list Profile) (maxRetries : nat) (orchestra : option jsstring).
Variable n0 : nat.

Let first : Attempt :=
  attempt oracle style size usedIds candidates allStyleCandidates n0 FirstAttempt orchestra.

Let alternatives : list jsstring := getAlternativeOrchestras profiles [orchestra].

Lemma firstn_min_nil {A} (m : nat) (l : list A) :
  firstn (Nat.min m (List.length l)) l = [] <-> m = 0%nat \/ l = [].
Proof.
  destruct m as [|m], l as [|x l]; simpl; split; intro H; auto; try discriminate.
  destruct H; discriminate.
Qed.

Lemma needsAlternatives_spec (r : option PlanResult) :
  needsAlternatives size r = true <->
  r = None \/ countReal r < Z.max 1 (size - 2).
Proof.
  unfold needsAlternatives. destruct r as [x|].
  - rewrite Z.ltb_lt. split; [intro; right; assumption|].
    intros [H|H]; [discriminate|assumption].
  - split; [intro; left; reflexivity|reflexivity].
Qed.

Lemma ladder_shape :
  exists retries final,
    snd (planOneTandaWithRetry oracle style size usedIds candidates allStyleCandidates
           profiles maxRetries orchestra n0) = first :: retries ++ final /\
    Forall isAlternative retries /\
    (retries <> [] <->
       needsAlternatives size (a_result first) = true /\
       (0 < maxRetries)%nat /\ alternatives <> []) /\
    (final = [] \/ exists f, final = [f] /\ a_rung f = NoOrchestra) /\
    (final <> [] <->
       countReal (a_result first) = 0 /\
       Forall (fun a => countReal (a_result a) = 0) retries).
Proof.
  unfold planOneTandaWithRetry. fold first. fold alternatives.
  destruct (needsAlternatives size (a_result first)) eqn:EN.
  - pose proof (retryLoop_log oracle style size usedIds candidates allStyleCandidates
                  (firstn (Nat.min maxRetries (List.length alternatives)) alternatives)
                  0%nat (S n0) (a_result first)) as H.
    cbv zeta in H.
    destruct (retryLoop oracle style size usedIds candidates allStyleCandidates
                (firstn (Nat.min maxRetries (List.length alternatives)) alternatives)
                0%nat (S n0) (a_result first)) as [res1 retries] eqn:ER.
    cbn [fst snd] in H. destruct H as [H1 [H2 H3]].
    assert (Hne : retries <> [] <->
                  true = true /\ (0 < maxRetries)%nat /\ alternatives <> []).
    { rewrite H2, firstn_min_nil. split.
      - intro H. split; [reflexivity|]. split.
        + destruct maxRetries; [exfalso; apply H; now left | lia].
        + intro E. apply H. now right.
      - intros [_ [Hm Ha]] [E|E]; [lia | contradiction]. }
    destruct (needsFallback res1) eqn:EF.
    + eexists retries, [_]. cbn [snd]. split; [reflexivity|].
      split; [assumption|]. split; [assumption|].
      split; [right; eexists; split; reflexivity|].
      split; [intros _|intros _; discriminate].
      apply H3. now apply needsFallback_zero.
    + exists retries, []. cbn [snd]. split; [reflexivity|].
      split; [assumption|]. split; [assumption|].
      split; [left; reflexivity|].
      split; [intro H; contradiction|].
      intro H. apply H3 in H. apply needsFallback_zero in H. congruence.
  - assert (Hne : @nil Attempt <> [] <->
                  false = true /\ (0 < maxRetries)%nat /\ alternatives <> []).
    { split; [intro H; contradiction | intros [H _]; discriminate]. }
    destruct (needsFallback (a_result first)) eqn:EF.
    + eexists [], [_]. cbn [snd]. split; [reflexivity|].
      split; [constructor|]. split; [assumption|].
      split; [right; eexists; split; reflexivity|].
      split; [intros _|intros _; discriminate].
      split; [now apply needsFallback_zero | constructor].
    + exists [], []. cbn [snd]. split; [reflexivity|].
      split; [constructor|]. split; [assumption|].
      split; [left; reflexivity|].
      split; [intro H; contradiction|].
      intros [H _]. apply needsFallback_zero in H. congruence.
Qed.

End LadderFacts.

(** C5 (as stated) fails: with size 4 and a first attempt that returns two
    real ids (fewer than size-1 = 3), no alternative orchestra and no
    fallback is tried, although an alternative orchestra is on offer. *)
Lemma retry_ladder_silent_below_size_minus_one :
  let profiles := buildOrchestraProfiles (Examples.sixTangos ++ Examples.fourValses) in
  let run := planOneTandaWithRetry Examples.alwaysPair (js "Tango") 4 []
               Examples.tangoRows (Some Examples.tangoRows) profiles 3
               (Some (js "Di Sarli")) 0 in
  getAlternativeOrchestras profiles [Some (js "Di Sarli")] = [js "Canaro"] /\
  map a_rung (snd run) = [FirstAttempt] /\
  (countRealIds (r_trackIds (fst run)) = 2)%Z /\
  (countRealIds (r_trackIds (fst run)) < 4 - 1)%Z.
Proof. vm_compute. repeat split; reflexivity. Qed.

(** C5 (amended): the ladder has two separate triggers.  Alternative
    orchestras are tried exactly when the first attempt failed or returned
    fewer than max(1, size-2) real ids (and there is an alternative and a
    positive retry budget); the attempt without orchestra restriction is made
    exactly when no earlier attempt returned a real id. *)
Theorem retry_ladder_triggers :
  forall (oracle : TandaOracle) (style : jsstring) (size : Z) (usedIds : KeySet)
         (candidates : list Candidate) (allStyleCandidates : option (list Candidate))
         (profiles : list Profile) (maxRetries : nat) (orchestra : option jsstring)
         (n0 : nat),
    let first :=
      attempt oracle style size usedIds candidates allStyleCandidates n0
        FirstAttempt orchestra in
    let log :=
      snd (planOneTandaWithRetry oracle style size usedIds candidates
             allStyleCandidates profiles maxRetries orchestra n0) in
    (exists rest, log = first :: rest) /\
    ((exists a, In a log /\ isAlternative a) <->
       (a_result first = None \/
        (countReal (a_result first) < Z.max 1 (size - 2))%Z) /\
       (0 < maxRetries)%nat /\
       getAlternativeOrchestras profiles [orchestra] <> []) /\
    ((exists a, In a log /\ a_rung a = NoOrchestra) <->
       (forall a, In a log -> a_rung a <> NoOrchestra ->
                  countReal (a_result a) = 0%Z)).
Proof.
  intros oracle style size usedIds candidates allStyleCandidates profiles
         maxRetries orchestra n0 first log.
  destruct (ladder_shape oracle style size usedIds candidates allStyleCandidates
              profiles maxRetries orchestra n0)
    as [retries [final [Hlog [Halt [Hne [Hfin Hfb]]]]]].
  fold first in Hlog, Hne, Hfb. fold log in Hlog.
  assert (Hfirst : ~ isAlternative first /\ a_rung first <> NoOrchestra).
  { split; [intros [i [o E]]; discriminate E | discriminate]. }
  assert (Hfinal : forall a, In a final -> a_rung a = NoOrchestra).
  { intros a Ha. destruct Hfin as [E|[f [E Ef]]]; rewrite E in Ha;
      [destruct Ha | destruct Ha as [<-|[]]; exact Ef]. }
  assert (Hretry : forall a, In a retries -> isAlternative a).
  { apply Forall_forall. exact Halt. }
  rewrite needsAlternatives_spec in Hne.
  split; [exists (retries ++ final); exact Hlog|]. split.
  - rewrite <- Hne. rewrite Hlog. split.
    + intros [a [[<-|Ha] Hi]]; [exfalso; now apply (proj1 Hfirst)|].
      apply in_app_or in Ha as [Ha|Ha].
      * intro E. rewrite E in Ha. destruct Ha.
      * apply Hfinal in Ha. destruct Hi as [i [o E]]. congruence.
    + intro H. destruct retries as [|a r]; [contradiction|].
      exists a. split; [right; now left | apply Hretry; now left].
  - rewrite Hlog. split.
    + intros [a [[<-|Ha] Hr]]; [exfalso; now apply (proj2 Hfirst)|].
      assert (Hf : final <> []).
      { apply in_app_or in Ha as [Ha|Ha].
        - apply Hretry in Ha. destruct Ha as [i [o E]]. congruence.
        - intro E. rewrite E in Ha. destruct Ha. }
      apply Hfb in Hf as [H0 Hall].
      intros b [<-|Hb] Hnb; [exact H0|].
      apply in_app_or in Hb as [Hb|Hb].
      * rewrite Forall_forall in Hall. now apply Hall.
      * apply Hfinal in Hb. contradiction.
    + intro H.
      assert (Hf : final <> []).
      { apply Hfb. split.
        - apply H; [now left | apply Hfirst].
        - apply Forall_forall. intros b Hb. apply H.
          + right. apply in_or_app. now left.
          + apply Hretry in Hb. destruct Hb as [i [o E]]. congruence. }
      destruct Hfin as [E|[f [E Ef]]]; [contradiction|].
      exists f. split; [|exact Ef]. right. apply in_or_app. right.
      rewrite E. now left.
Qed.

Lemma retry_ladder_triggers_witness :
  exists a,
    In a (snd (planOneTandaWithRetry (fun _ _ => None) (js "Tango") 4 []
                 Examples.tangoRows (Some Examples.tangoRows)
                 (buildOrchestraProfiles (Examples.sixTangos ++ Examples.fourValses))
                 3 (Some (js "Di Sarli")) 0)) /\
    isAlternative a.
Proof.
  apply (proj2 (proj1 (proj2 (retry_ladder_triggers (fun _ _ => None) (js "Tango") 4 []
                                 Examples.tangoRows (Some Examples.tangoRows)
                                 (buildOrchestraProfiles
                                    (Examples.sixTangos ++ Examples.fourValses))
                                 3 (Some (js "Di Sarli")) 0)))).
  split; [left; reflexivity|]. split; [lia|]. vm_compute. discriminate.
Defined.
(* ------------------------------------------------------------------ *)
(** ** The streaming route: used identities, group contents, budget *)
(* ------------------------------------------------------------------ *)

Section KeySetFacts.

Lemma Set_has_In (s : KeySet) (k : jsstring) : Set_has s k = true <-> In k s.
Proof. apply includesStr_In. Qed.

Lemma Set_has_add (s : KeySet) (k k' : jsstring) :
  Set_has (Set_add s k) k' = true <-> Set_has s k' = true \/ k' = k.
Proof.
  unfold Set_add. destruct (Set_has s k) eqn:E.
  - split; [intro; now left|]. intros [H|H]; [assumption | now subst].
  - rewrite !Set_has_In, in_app_iff. simpl. split.
    + intros [H|[H|[]]]; [now left | right; now subst].
    + intros [H|H]; [now left | right; left; now subst].
Qed.

Lemma Set_add_NoDup (s : KeySet) (k : jsstring) : NoDup s -> NoDup (Set_add s k).
Proof.
  intro H. unfold Set_add. destruct (Set_has s k) eqn:E; [assumption|].
  apply NoDup_app; [assumption | repeat constructor; intros [] |].
  intros x Hx [<-|[]]. apply Set_has_In in Hx. congruence.
Qed.

Lemma findLast_Some {A} (p : A -> bool) (l : list A) (x : A) :
  findLast p l = Some x -> In x l /\ p x = true.
Proof.
  unfold findLast. intro H. apply find_some in H as [H1 H2].
  split; [now apply in_rev | assumption].
Qed.

Lemma optEqb_eq (a b : option jsstring) : optEqb a b = true <-> a = b.
Proof.
  destruct a as [x|], b as [y|]; simpl; try (split; congruence).
  rewrite jseqb_eq. split; congruence.
Qed.

Lemma resolveByAnyId_Some (ws : list Track) (id : jsstring) (t : Track) :
  resolveByAnyId ws id = Some t ->
  In t ws /\ matchKey (getId t) = matchKey (Some id).
Proof.
  unfold resolveByAnyId.
  destruct (findLast (fun t => optEqb (getId t) (Some id)) ws) as [t'|] eqn:E.
  - intro H. inversion H; subst t'. apply findLast_Some in E as [Hin He].
    apply optEqb_eq in He. split; [assumption | now rewrite He].
  - intro H. apply findLast_Some in H as [Hin He].
    apply jseqb_eq in He. split; assumption.
Qed.

Lemma resolveId_Some (ws : list Track) (id : option jsstring) (t : Track) :
  resolveId ws id = Some t -> In t ws /\ matchKey (getId t) = matchKey id.
Proof.
  unfold resolveId.
  destruct (findLast (fun t => optEqb (getId t) id) ws) as [t'|] eqn:E.
  - intro H. inversion H; subst t'. apply findLast_Some in E as [Hin He].
    apply optEqb_eq in He. split; [assumption | now rewrite He].
  - intro H. apply findLast_Some in H as [Hin He].
    apply jseqb_eq in He. split; assumption.
Qed.

End KeySetFacts.

Section ChooseTracksFacts.

Variable workingSet : list Track.
Variable accept : Track -> bool.

Lemma chooseTracks_spec (ids : list jsstring) :
  forall usedIds,
    let chosen := fst (chooseTracks workingSet accept ids usedIds) in
    let used' := snd (chooseTracks workingSet accept ids usedIds) in
    NoDup (map keyOf chosen) /\
    (forall t, In t chosen -> Set_has usedIds (keyOf t) = false) /\
    (forall k, Set_has used' k = true <->
               Set_has usedIds k = true \/ In k (map keyOf chosen)) /\
    (forall t, In t chosen ->
       In t workingSet /\ accept t = true /\
       exists id, In id ids /\ resolveByAnyId workingSet id = Some t) /\
    (NoDup usedIds -> NoDup used').
Proof.
  induction ids as [|id rest IH]; intros usedIds; cbn zeta.
  - simpl. split; [constructor|]. split; [intros t []|].
    split; [intro k; tauto|]. split; [intros t []|]. tauto.
  - cbn [chooseTracks].
    assert (Hskip :
      let chosen := fst (chooseTracks workingSet accept rest usedIds) in
      let used' := snd (chooseTracks workingSet accept rest usedIds) in
      NoDup (map keyOf chosen) /\
      (forall t, In t chosen -> Set_has usedIds (keyOf t) = false) /\
      (forall k, Set_has used' k = true <->
                 Set_has usedIds k = true \/ In k (map keyOf chosen)) /\
      (forall t, In t chosen ->
         In t workingSet /\ accept t = true /\
         exists id0, In id0 (id :: rest) /\ resolveByAnyId workingSet id0 = Some t) /\
      (NoDup usedIds -> NoDup used')).
    { destruct (IH usedIds) as [H1 [H2 [H3 [H4 H5]]]]. cbn zeta.
      repeat split; try assumption; try (now apply H3); try (now apply H4).
      destruct (H4 t H) as [_ [_ [id0 [Hi Hr]]]]. exists id0. split; [now right|assumption]. }
    destruct (isUsed usedIds (Some id)) eqn:EU; [exact Hskip|].
    destruct (resolveByAnyId workingSet id) as [tr|] eqn:ER; [|exact Hskip].
    destruct (accept tr) eqn:EA; [|exact Hskip].
    specialize (IH (markUsed usedIds (getId tr))).
    destruct (chooseTracks workingSet accept rest (markUsed usedIds (getId tr)))
      as [chosen used'] eqn:EC.
    cbn [fst snd] in *. destruct IH as [H1 [H2 [H3 [H4 H5]]]].
    pose proof (resolveByAnyId_Some _ _ _ ER) as [Hin Hkey].
    assert (Hfresh : Set_has usedIds (keyOf tr) = false).
    { unfold keyOf. rewrite Hkey. exact EU. }
    repeat split.
    + cbn [map]. constructor; [|assumption].
      intro Hk. apply in_map_iff in Hk as [t' [Ek Ht']].
      specialize (H2 t' Ht'). unfold markUsed in H2.
      assert (Set_has (Set_add usedIds (matchKey (getId tr))) (keyOf t') = true).
      { apply Set_has_add. right. exact Ek. }
      congruence.
    + intros t [<-|Ht]; [assumption|].
      specialize (H2 t Ht). unfold markUsed in H2.
      destruct (Set_has usedIds (keyOf t)) eqn:E; [|reflexivity].
      assert (Set_has (Set_add usedIds (matchKey (getId tr))) (keyOf t) = true).
      { apply Set_has_add. now left. }
      congruence.
    + intro H. apply H3 in H. unfold markUsed in H. rewrite Set_has_add in H.
      cbn [map In]. unfold keyOf at 1.
      destruct H as [[H|H]|H]; [now left | right; left; now symmetry | right; now right].
    + intro H. apply H3. unfold markUsed. rewrite Set_has_add.
      cbn [map In] in H. unfold keyOf at 1 in H.
      destruct H as [H|[H|H]]; [left; now left | left; right; now symmetry | now right].
    + destruct H as [<-|Ht]; [assumption | now apply H4].
    + destruct H as [<-|Ht]; [assumption | now apply H4].
    + destruct H as [<-|Ht].
      * exists id. split; [now left | assumption].
      * destruct (H4 t Ht) as [_ [_ [id0 [Hi Hr]]]]. exists id0.
        split; [now right | assumption].
    + intro Hnd. apply H5. unfold markUsed. now apply Set_add_NoDup.
Qed.

Lemma chooseTracks_unresolved (id : jsstring) (rest : list jsstring) (usedIds : KeySet) :
  resolveByAnyId workingSet id = None ->
  chooseTracks workingSet accept (id :: rest) usedIds =
  chooseTracks workingSet accept rest usedIds.
Proof.
  intro H. cbn [chooseTracks]. rewrite H.
  destruct (isUsed usedIds (Some id)); reflexivity.
Qed.

Lemma chooseTracks_used (id : jsstring) (rest : list jsstring) (usedIds : KeySet) :
  isUsed usedIds (Some id) = true ->
  chooseTracks workingSet accept (id :: rest) usedIds =
  chooseTracks workingSet accept rest usedIds.
Proof. intro H. cbn [chooseTracks]. now rewrite H. Qed.

End ChooseTracksFacts.
(* ------------------------------------------------------------------ *)
(** ** The invariant of the planning loop *)
(* ------------------------------------------------------------------ *)

Section ListFacts.

Section Kept.

(** The keys of the rows that a filter keeps. *)
Variables (Row Key : Type) (key : Row -> Key) (keep : Row -> bool).

Lemma In_map_filter (k : Key) (rows : list Row) :
  In k (map key (filter keep rows)) -> In k (map key rows).
Proof.
  rewrite !in_map_iff. intros [z [Ez Hz]].
  apply filter_In in Hz as [Hz _]. now exists z.
Qed.

Lemma NoDup_map_filter (rows : list Row) (H : NoDup (map key rows)) :
  NoDup (map key (filter keep rows)).
Proof.
  induction rows as [|x rows IH]; cbn [filter map] in *; [constructor|].
  apply NoDup_cons_iff in H as [Hx Hl].
  destruct (keep x); [|exact (IH Hl)].
  cbn [map]. constructor; [|exact (IH Hl)].
  intro Hin. apply Hx. exact (In_map_filter _ _ Hin).
Qed.

End Kept.

Lemma In_firstn {A} (n : nat) (l : list A) (x : A) : In x (firstn n l) -> In x l.
Proof.
  intro H. rewrite <- (firstn_skipn n l). apply in_or_app. now left.
Qed.

Lemma filter_repeat_placeholder (n : nat) :
  filter (fun t => negb (t_placeholder t)) (repeat placeholderTrack n) = [].
Proof. induction n as [|n IH]; [reflexivity | exact IH]. Qed.

Lemma In_padWithPlaceholders (size : Z) (chosen : list Track) (t : Track) :
  In t (padWithPlaceholders size chosen) -> t = placeholderTrack \/ In t chosen.
Proof.
  unfold padWithPlaceholders. intro H. apply in_app_or in H as [H|H].
  - now right.
  - left. now apply repeat_spec in H.
Qed.

Lemma groupKeys_padded (style : jsstring) (role : option jsstring) (size : Z)
    (chosen : list Track) (secs : Q) :
  groupKeys {| td_style := style; td_role := role;
               td_tracks := padWithPlaceholders size chosen; td_seconds := secs |} =
  map keyOf (filter (fun t => negb (t_placeholder t)) chosen).
Proof.
  unfold groupKeys, padWithPlaceholders. cbn [td_tracks].
  rewrite filter_app, filter_repeat_placeholder, app_nil_r. reflexivity.
Qed.

Lemma emittedTandas_app (a b : list Event) :
  emittedTandas (a ++ b) = emittedTandas a ++ emittedTandas b.
Proof. unfold emittedTandas. apply flat_map_app. Qed.

End ListFacts.

Section RunInvariant.

Local Open Scope Q_scope.

Variable world : Collaborators.
Variable workingSet : list Track.
Variable budget : Q.

Local Abbreviation Inv := (RunInv workingSet budget).

Lemma tandaSecondsTotal_app (l : list Tanda) (td : Tanda) :
  tandaSecondsTotal (l ++ [td]) == tandaSecondsTotal l + td_seconds td.
Proof.
  induction l as [|x l IH]; simpl; [lra|]. rewrite IH. lra.
Qed.

Lemma Inv_withPlanning (st : RunState) (used : KeySet) (n : nat) (log : list Attempt) :
  Inv st ->
  (forall k, Set_has (usedIds st) k = true -> Set_has used k = true) ->
  NoDup used ->
  Inv (withPlanning st used n log).
Proof.
  intros [H1 H2 H3 H4 H5 H6 H7] Hsub Hnd.
  constructor; cbn [withPlanning usedIds remainingSeconds tandasResolved sent];
    try assumption.
  intros k Hk. apply Hsub. now apply H3.
Qed.

(** One planning attempt of a slot, on either path: the tracks are chosen
    against the used set of [st], padded, and possibly pushed. *)
Lemma Inv_attempt (st : RunState) (accept : Track -> bool) (ids : list jsstring)
    (slot : Slot) (n : nat) (log : list Attempt) (secs : Q)
    (orchestra : option jsstring) :
  Inv st ->
  let chosen := fst (chooseTracks workingSet accept ids (usedIds st)) in
  let used' := snd (chooseTracks workingSet accept ids (usedIds st)) in
  let st2 := withPlanning st used' n log in
  Inv st2 /\
  (secs <= remainingSeconds st + 30 ->
   Inv (pushTanda st2 slot (padWithPlaceholders (s_size slot) chosen) secs orchestra)).
Proof.
  intros HI chosen used' st2.
  destruct (chooseTracks_spec workingSet accept ids (usedIds st))
    as [C1 [C2 [C3 [C4 C5]]]].
  fold chosen in C1, C2, C3, C4. fold used' in C3, C5.
  assert (HI2 : Inv st2).
  { apply Inv_withPlanning; [assumption| |apply C5; apply HI].
    intros k Hk. apply C3. now left. }
  split; [exact HI2|]. intro Hfit.
  destruct HI as [H1 H2 H3 H4 H5 H6 H7].
  constructor;
    cbn [pushTanda st2 withPlanning usedIds remainingSeconds tandasResolved sent].
  - rewrite emittedTandas_app, H1. reflexivity.
  - unfold allKeys. rewrite flat_map_app. cbn [flat_map]. rewrite app_nil_r.
    rewrite groupKeys_padded. apply NoDup_app.
    + exact H2.
    + now apply NoDup_map_filter.
    + intros k Hk Hk'. apply H3 in Hk. apply In_map_filter in Hk'.
      apply in_map_iff in Hk' as [t [Et Ht]]. apply C2 in Ht. subst k. congruence.
  - intros k Hk. unfold allKeys in Hk. rewrite flat_map_app in Hk.
    cbn [flat_map] in Hk. rewrite app_nil_r, groupKeys_padded in Hk.
    apply C3. apply in_app_or in Hk as [Hk|Hk].
    + left. now apply H3.
    + right. eapply In_map_filter. exact Hk.
  - apply C5. exact H4.
  - intros td t Htd Ht. apply in_app_or in Htd as [Htd|[<-|[]]].
    + now apply (H5 td).
    + cbn [td_tracks] in Ht. apply In_padWithPlaceholders in Ht as [Ht|Ht];
        [now left | right; now apply C4].
  - rewrite tandaSecondsTotal_app. cbn [td_seconds]. rewrite H6. lra.
  - right. lra.
Qed.

Lemma orchestraPath_Inv (st : RunState) (slot : Slot) :
  Inv st -> Inv (fst (orchestraPath world workingSet st slot)).
Proof.
  intro HI. unfold orchestraPath.
  assert (H1 : Inv (withPlanning st (usedIds st) (S (calls st)) [])).
  { apply Inv_withPlanning; [assumption | auto | apply HI]. }
  destruct (askOrchestras world (calls st)) as [[|s suggestions]|]; try exact H1.
  destruct (pickTarget _ _ _) as [target|]; [|exact H1].
  destruct (filter _ _) as [|c0 cs] eqn:EF; [exact H1|].
  destruct (planOneTandaWithRetry _ _ _ _ _ _ _ _ _ _) as [next log].
  pose proof (Inv_attempt (withPlanning st (usedIds st) (S (calls st)) [])
                (fun tr => jseqb (orchestraOf tr) target) (r_trackIds next) slot
                (S (calls st) + List.length log) log) as HA.
  cbn [withPlanning usedIds remainingSeconds calls] in HA.
  cbn [withPlanning usedIds remainingSeconds calls].
  destruct (chooseTracks workingSet _ (r_trackIds next) (usedIds st))
    as [chosen used'] eqn:EC.
  cbn [fst snd] in HA.
  match goal with
  | |- Inv (fst (if ?c then _ else _)) => destruct c eqn:Ecnd
  end.
  - cbn [fst]. apply andb_true_iff in Ecnd as [_ Hfit].
    apply Qle_bool_iff in Hfit. apply (HA _ (Some target) H1). exact Hfit.
  - cbn [fst]. apply (HA 0 None H1).
Qed.

Lemma styleOnlyPath_Inv (st st' : RunState) (slot : Slot) :
  Inv st -> styleOnlyPath world workingSet st slot = Some st' -> Inv st'.
Proof.
  intros HI. unfold styleOnlyPath.
  destruct (2 <=? List.length _)%nat; [discriminate|].
  destruct (planOneTandaWithRetry _ _ _ _ _ _ _ _ _ _) as [next log].
  pose proof (Inv_attempt st (fun _ => true) (r_trackIds next) slot
                (calls st + List.length log) log) as HA.
  destruct (chooseTracks workingSet _ (r_trackIds next) (usedIds st))
    as [chosen used'] eqn:EC.
  cbn [fst snd] in HA.
  match goal with
  | |- (if ?c then _ else _) = _ -> _ => destruct c eqn:Ecnd
  end; intro E; inversion E; subst st'.
  - apply andb_true_iff in Ecnd as [Ecnd _].
    apply andb_true_iff in Ecnd as [_ Hfit].
    apply Qle_bool_iff in Hfit. apply (HA _ None HI). exact Hfit.
  - apply (HA 0 None HI).
Qed.

Lemma planSlot_Inv (st st' : RunState) (slot : Slot) :
  Inv st -> planSlot world workingSet st slot = Some st' -> Inv st'.
Proof.
  intros HI. unfold planSlot.
  pose proof (orchestraPath_Inv st slot HI) as H1.
  destruct (orchestraPath world workingSet st slot) as [st1 made].
  cbn [fst] in H1. destruct made.
  - intro E. inversion E; subst. exact H1.
  - now apply styleOnlyPath_Inv.
Qed.

Lemma planningLoop_Inv (slots : list Slot) :
  forall st, Inv st ->
    match planningLoop world workingSet slots st with
    | inl s => Inv s
    | inr s => Inv s
    end.
Proof.
  induction slots as [|slot rest IH]; intros st HI; cbn [planningLoop].
  - exact HI.
  - destruct (Qle_bool (remainingSeconds st) 60); [exact HI|].
    destruct (planSlot world workingSet st slot) as [st'|] eqn:EP.
    + apply IH. eapply planSlot_Inv; eassumption.
    + now apply orchestraPath_Inv.
Qed.

End RunInvariant.

Section RunFacts.

Local Open Scope Q_scope.

Variable world : Collaborators.
Variable workingSet : list Track.
Variables (minutes : Q) (slots : list Slot).

Lemma initialState_Inv : RunInv workingSet (minutes * 60) (initialState minutes slots).
Proof.
  constructor.
  - reflexivity.
  - constructor.
  - intros k [].
  - constructor.
  - intros td t [].
  - cbn. lra.
  - left. reflexivity.
Qed.

(** The state in which the loop stopped, and the line that closes the stream. *)
Lemma generateStream_shape :
  exists st closing,
    RunInv workingSet (minutes * 60) st /\
    usedIds (generateStream world workingSet minutes slots) = usedIds st /\
    tandasResolved (generateStream world workingSet minutes slots) = tandasResolved st /\
    remainingSeconds (generateStream world workingSet minutes slots) = remainingSeconds st /\
    sent (generateStream world workingSet minutes slots) = sent st ++ [closing] /\
    (closing = EvError \/
     closing = EvDone (planBlocksFrom
                         (listCortinas world (List.length (tandasResolved st))) 0
                         (tandasResolved st))
                      (listCortinas world (List.length (tandasResolved st)))).
Proof.
  unfold generateStream.
  pose proof (planningLoop_Inv world workingSet (minutes * 60) slots
                (initialState minutes slots) initialState_Inv) as H.
  destruct (planningLoop world workingSet slots (initialState minutes slots))
    as [st|st].
  - exists st, (EvDone (planBlocksFrom
                          (listCortinas world (List.length (tandasResolved st))) 0
                          (tandasResolved st))
                       (listCortinas world (List.length (tandasResolved st)))).
    split; [exact H|]. repeat (split; [reflexivity|]). right. reflexivity.
  - exists st, EvError.
    split; [exact H|]. repeat (split; [reflexivity|]). left. reflexivity.
Qed.

Lemma generateStream_emitted :
  emittedTandas (sent (generateStream world workingSet minutes slots)) =
  tandasResolved (generateStream world workingSet minutes slots).
Proof.
  destruct generateStream_shape as [st [closing [HI [_ [Ht [_ [Hs Hc]]]]]]].
  rewrite Hs, Ht, emittedTandas_app, (inv_sent _ _ _ HI).
  destruct Hc as [-> | ->]; cbn; apply app_nil_r.
Qed.

End RunFacts.
(* ------------------------------------------------------------------ *)
(** ** What the streaming route guarantees *)
(* ------------------------------------------------------------------ *)

Section BudgetFacts.

Local Open Scope Q_scope.

Lemma totalSeconds_planBlocks (cortinas : list Cortina) (tandas : list Tanda) :
  forall i,
    totalSeconds (planBlocksFrom cortinas i tandas) ==
    tandaSecondsTotal tandas + fillerSeconds cortinas i (List.length tandas).
Proof.
  induction tandas as [|td rest IH]; intro i.
  - cbn. lra.
  - destruct rest as [|td2 rest].
    + cbn. lra.
    + change (planBlocksFrom cortinas i (td :: td2 :: rest))
        with (BTanda td :: BCortina (cortinaAt cortinas i)
                (cortinaSeconds (cortinaAt cortinas i))
                :: planBlocksFrom cortinas (S i) (td2 :: rest)).
      change (fillerSeconds cortinas i (List.length (td :: td2 :: rest)))
        with (cortinaSeconds (cortinaAt cortinas i) +
              fillerSeconds cortinas (S i) (List.length (td2 :: rest))).
      cbn [totalSeconds blockSeconds tandaSecondsTotal].
      rewrite (IH (S i)). cbn [tandaSecondsTotal]. lra.
Qed.

Lemma tandaSecondsTotal_bound (workingSet : list Track) (budget : Q) (st : RunState) :
  0 <= budget -> RunInv workingSet budget st ->
  tandaSecondsTotal (tandasResolved st) <= budget + 30.
Proof.
  intros Hb HI. pose proof (inv_budget _ _ _ HI) as E.
  destruct (inv_floor _ _ _ HI) as [H|H].
  - rewrite H. cbn. lra.
  - lra.
Qed.

Lemma padWithPlaceholders_length (size : Z) (chosen : list Track) :
  Z.of_nat (List.length (padWithPlaceholders size chosen)) =
  Z.max size (Z.of_nat (List.length chosen)).
Proof.
  unfold padWithPlaceholders. rewrite length_app, repeat_length. lia.
Qed.

End BudgetFacts.

(** C1 (as stated) fails: three tandas of 200 seconds fill a budget of ten
    minutes exactly, and the two cortinas placed between them, which the
    budget never sees, bring the plan to 720 seconds, more than
    600 + 60. *)
Lemma stream_plan_exceeds_budget_plus_one_filler :
  let run := generateStream Examples.threePairs Examples.sixTangos 10
               [Examples.slot "Tango" 2; Examples.slot "Tango" 2;
                Examples.slot "Tango" 2] in
  exists blocks,
    finalPlan (sent run) = Some blocks /\
    List.length (emittedTandas (sent run)) = 3%nat /\
    (totalSeconds blocks == 720)%Q /\
    ~ (totalSeconds blocks <= 10 * 60 + 60)%Q.
Proof.
  eexists. split; [vm_compute; reflexivity|].
  split; [vm_compute; reflexivity|].
  split; [vm_compute; reflexivity|].
  vm_compute. intro H. apply H. reflexivity.
Qed.

(** C1 (amended): for a non-negative budget the seconds of the emitted
    tandas sum to at most [minutes*60 + 30]; the plan of a completed run adds
    to them the seconds of the cortinas between the tandas, which are not
    charged to the budget. *)
Theorem stream_tandas_within_budget :
  forall (world : Collaborators) (workingSet : list Track) (minutes : Q)
         (slots : list Slot),
    (0 <= minutes)%Q ->
    let run := generateStream world workingSet minutes slots in
    let tandas := emittedTandas (sent run) in
    (tandaSecondsTotal tandas <= minutes * 60 + 30)%Q /\
    (forall blocks, finalPlan (sent run) = Some blocks ->
       let fill := fillerSeconds (listCortinas world (List.length tandas)) 0
                     (List.length tandas) in
       (totalSeconds blocks == tandaSecondsTotal tandas + fill)%Q /\
       (totalSeconds blocks <= minutes * 60 + 30 + fill)%Q).
Proof.
  intros world workingSet minutes slots Hm run tandas.
  unfold tandas, run. rewrite generateStream_emitted.
  destruct (generateStream_shape world workingSet minutes slots)
    as [st [closing [HI [_ [Ht [_ [Hs Hc]]]]]]].
  rewrite Ht.
  assert (Hb : (tandaSecondsTotal (tandasResolved st) <= minutes * 60 + 30)%Q).
  { apply (tandaSecondsTotal_bound workingSet); [lra | exact HI]. }
  split; [exact Hb|].
  intros blocks Hplan. cbv zeta.
  unfold finalPlan in Hplan. rewrite Hs, last_last in Hplan.
  destruct Hc as [-> | ->]; [discriminate|].
  inversion Hplan; subst blocks.
  pose proof (totalSeconds_planBlocks
                (listCortinas world (List.length (tandasResolved st)))
                (tandasResolved st) 0) as E.
  split; [exact E|]. rewrite E. lra.
Qed.

Lemma stream_tandas_within_budget_witness :
  (tandaSecondsTotal
     (emittedTandas
        (sent (generateStream Examples.threePairs Examples.sixTangos 10
                 [Examples.slot "Tango" 2; Examples.slot "Tango" 2;
                  Examples.slot "Tango" 2]))) <= 10 * 60 + 30)%Q.
Proof.
  refine (proj1 (stream_tandas_within_budget Examples.threePairs Examples.sixTangos 10
                   [Examples.slot "Tango" 2; Examples.slot "Tango" 2;
                    Examples.slot "Tango" 2] _)).
  discriminate.
Defined.

(** C2: the route pads a short group up to the slot size but never cuts a
    long one: the group has max(size, number of accepted tracks) entries.
    With a slot of size 3 and an oracle answer of four valid, unused ids of
    the target orchestra the emitted group has four tracks. *)
Theorem stream_group_longer_than_slot :
  (forall size chosen,
     Z.of_nat (List.length (padWithPlaceholders size chosen)) =
     Z.max size (Z.of_nat (List.length chosen))) /\
  let run := generateStream Examples.fourForThree Examples.fourValses 30
               [Examples.slot "Vals" 3] in
  exists td blocks,
    emittedTandas (sent run) = [td] /\
    finalPlan (sent run) = Some blocks /\
    td_style td = js "Vals" /\
    map t_id (td_tracks td) = [Some (js "v1"); Some (js "v2"); Some (js "v3"); Some (js "v4")] /\
    List.length (td_tracks td) = 4%nat /\
    s_size (Examples.slot "Vals" 3) = 3%Z.
Proof.
  split; [exact padWithPlaceholders_length|].
  eexists. eexists. split; [vm_compute; reflexivity|].
  split; [vm_compute; reflexivity|]. repeat split.
Qed.



(* ------------------------------------------------------------------ *)
(** ** The replacement route never returns an excluded track *)
(* ------------------------------------------------------------------ *)

Section ReplaceFacts.

Variable rankByContinuity : list Track -> list Track.
Hypothesis rank_rearranges : forall l, Permutation (rankByContinuity l) l.

Variable workingSet : list Track.
Variables (style : jsstring) (orchestra : option jsstring).
Variables (avoidIds previouslySelected : list (option jsstring)).
Variables (topK : nat) (homogenize : bool).

Local Abbreviation avoidSet := (avoid avoidIds).
Local Abbreviation rejectedSet := (previouslySelectedSet previouslySelected).
Local Abbreviation allowed := (notExcluded avoidIds previouslySelected).
Local Abbreviation pool := (slim rankByContinuity workingSet style orchestra avoidIds
                    previouslySelected topK homogenize).

Lemma allowed_spec (k : jsstring) :
  allowed k = true <-> Set_has avoidSet k = false /\ Set_has rejectedSet k = false.
Proof.
  unfold notExcluded. rewrite andb_true_iff, !negb_true_iff. tauto.
Qed.

Lemma findLast_found {A} (p : A -> bool) (l : list A) (x : A) :
  In x l -> p x = true -> exists y, findLast p l = Some y.
Proof.
  intros Hin Hp. unfold findLast. destruct (find p (rev l)) as [y|] eqn:E.
  - now exists y.
  - exfalso. apply in_rev in Hin.
    pose proof (find_none _ _ E x Hin) as Hn. congruence.
Qed.

Lemma resolveId_member (t : Track) :
  In t workingSet -> exists t', resolveId workingSet (getId t) = Some t'.
Proof.
  intro Hin. unfold resolveId.
  destruct (findLast_found (fun t' => optEqb (getId t') (getId t)) workingSet t Hin)
    as [y Hy]; [now apply optEqb_eq|].
  rewrite Hy. now exists y.
Qed.

Lemma styleBase_allowed (t : Track) :
  In t (styleBase workingSet style avoidIds previouslySelected) ->
  In t workingSet /\ allowed (idKeyOf t) = true.
Proof.
  unfold styleBase. intro H. apply filter_In in H as [Hin Hc].
  apply andb_true_iff in Hc as [_ Hc]. now split.
Qed.

Lemma narrowedBase_allowed (t : Track) :
  In t (narrowedBase workingSet style orchestra avoidIds previouslySelected topK homogenize) ->
  In t workingSet /\ allowed (idKeyOf t) = true.
Proof.
  unfold narrowedBase.
  destruct (targetOrchestra _ _ _ _) as [target|]; [|apply styleBase_allowed].
  destruct (negb _); [|apply styleBase_allowed].
  destruct (_ <=? _)%nat; [|apply styleBase_allowed].
  intro H. apply filter_In in H as [H _]. now apply styleBase_allowed.
Qed.

Lemma broadenedBase_allowed (t : Track) :
  In t (broadenedBase workingSet style orchestra avoidIds previouslySelected topK homogenize) ->
  In t workingSet /\ allowed (idKeyOf t) = true.
Proof.
  unfold broadenedBase.
  destruct (_ || _); [|apply narrowedBase_allowed].
  set (b1 := match targetOrchestra _ _ _ _ with
             | Some _ => styleBase workingSet style avoidIds previouslySelected
             | None => narrowedBase workingSet style orchestra avoidIds
                         previouslySelected topK homogenize
             end).
  assert (H1 : forall t, In t b1 -> In t workingSet /\ allowed (idKeyOf t) = true).
  { unfold b1. destruct (targetOrchestra _ _ _ _);
      [apply styleBase_allowed | apply narrowedBase_allowed]. }
  set (expanded := filter (fun t => hasCompatibleStyle style t &&
                                    allowed (idKeyOf t)) workingSet).
  assert (H2 : forall t, In t expanded -> In t workingSet /\ allowed (idKeyOf t) = true).
  { intros t' Ht. apply filter_In in Ht as [Hin Hc].
    apply andb_true_iff in Hc as [_ Hc]. now split. }
  set (b2 := if (List.length b1 <? Nat.max 1 topK)%nat
             then if (List.length b1 <? List.length expanded)%nat then expanded else b1
             else b1).
  assert (H3 : forall t, In t b2 -> In t workingSet /\ allowed (idKeyOf t) = true).
  { unfold b2. destruct (_ <? Nat.max 1 topK)%nat; [|exact H1].
    destruct (_ <? _)%nat; [exact H2 | exact H1]. }
  destruct b2 as [|x b2'] eqn:E2.
  - intro Ht. apply filter_In in Ht as [Hin Hc]. now split.
  - apply H3.
Qed.

Lemma pool_allowed (c : Candidate) :
  In c pool ->
  allowed (slimKey c) = true /\ exists t, In t workingSet /\ c_id c = getId t.
Proof.
  unfold slim. intro H. apply in_map_iff in H as [t [Ec Ht]].
  apply In_firstn in Ht. apply (Permutation_in _ (rank_rearranges _)) in Ht.
  apply broadenedBase_allowed in Ht as [Hin Ha]. subst c. split.
  - exact Ha.
  - exists t. split; [assumption | reflexivity].
Qed.

(** The fallback picks a row of the pool. *)
Lemma fallbackSelection_from_pool (randomIndex : nat) :
  pool <> [] ->
  let sel := fallbackSelection rankByContinuity workingSet style orchestra avoidIds
               previouslySelected topK homogenize randomIndex in
  (exists c, In c pool /\ fst sel = c_id c) /\
  (forall s, In s (snd sel) -> exists c, In c pool /\ s = c_id c).
Proof.
  intros Hne sel. subst sel. unfold fallbackSelection. cbn [fst snd].
  set (valid := filter (fun c => allowed (slimKey c)) pool).
  set (valid' := match valid with
                 | [] => pool
                 | _ => valid
                 end).
  assert (Hv : forall c, In c valid' -> In c pool).
  { unfold valid'. destruct valid as [|v vs] eqn:E; [auto|].
    intros c Hc. rewrite <- E in Hc. unfold valid in Hc.
    apply filter_In in Hc. tauto. }
  split.
  - destruct (nth_error valid' randomIndex) as [c|] eqn:En.
    + exists c. split; [apply Hv; eapply nth_error_In; eassumption | reflexivity].
    + destruct pool as [|c0 rest] eqn:Ep; [contradiction|].
      exists c0. split; [now left | reflexivity].
  - intros s Hs. apply in_map_iff in Hs as [c [Ec Hc]].
    apply filter_In in Hc as [Hc _]. apply In_firstn in Hc.
    exists c. split; [assumption | now symmetry].
Qed.

Lemma selection_allowed (answer : option ReplacementOut) (randomIndex : nat) :
  pool <> [] ->
  allowed (matchKey (fst (selection rankByContinuity workingSet style orchestra avoidIds
                            previouslySelected topK homogenize answer randomIndex))) = true.
Proof.
  intro Hne. unfold selection.
  assert (Hf : allowed (matchKey (fst (fallbackSelection rankByContinuity workingSet style
                                         orchestra avoidIds previouslySelected topK
                                         homogenize randomIndex))) = true).
  { destruct (fallbackSelection_from_pool randomIndex Hne) as [[c [Hc E]] _].
    rewrite E. now apply pool_allowed. }
  destruct answer as [out|]; [|exact Hf].
  destruct (validReplacement out && _) eqn:E; [|exact Hf].
  apply andb_true_iff in E as [_ E]. exact E.
Qed.

Lemma suggestionsOut_allowed (replacementId : option jsstring)
    (proposed : list (option jsstring)) (s : option jsstring) :
  In s (suggestionsOut rankByContinuity workingSet style orchestra avoidIds
          previouslySelected topK homogenize replacementId proposed) ->
  allowed (matchKey s) = true /\ matchKey s <> matchKey replacementId.
Proof.
  unfold suggestionsOut.
  set (keep := fun id => allowed (matchKey id) &&
                         negb (jseqb (matchKey id) (matchKey replacementId))).
  assert (Hkeep : forall id, keep id = true ->
                  allowed (matchKey id) = true /\ matchKey id <> matchKey replacementId).
  { intros id H. unfold keep in H. apply andb_true_iff in H as [H1 H2].
    split; [assumption|]. apply negb_true_iff in H2. now apply jseqb_neq. }
  set (out := firstn topK _).
  assert (Hout : forall e, In e out ->
                 allowed (matchKey e) = true /\ matchKey e <> matchKey replacementId).
  { intros e He. unfold out in He. apply In_firstn in He.
    apply in_map_iff in He as [id [Ee Hid]]. apply filter_In in Hid as [_ Hk].
    apply Hkeep in Hk. destruct (resolveId workingSet id) as [t|] eqn:Er.
    - apply resolveId_Some in Er as [_ Ek]. subst e. now rewrite Ek.
    - now subst e. }
  destruct (_ <? _)%nat; [|apply Hout].
  intro H. apply in_app_or in H as [H|H]; [now apply Hout|].
  apply in_map_iff in H as [c [Ec Hc]]. apply In_firstn in Hc.
  apply filter_In in Hc as [_ Hk]. apply andb_true_iff in Hk as [Hk _].
  subst s. now apply Hkeep.
Qed.

(** The handler answers whenever the pool is not empty, and what it
    answers with is allowed. *)
Lemma replaceTrack_answers (answer : option ReplacementOut) (randomIndex : nat) :
  pool <> [] ->
  exists track,
    In track workingSet /\
    allowed (matchKey (getId track)) = true /\
    (matchKey (getId track) =
       matchKey (fst (selection rankByContinuity workingSet style orchestra avoidIds
                        previouslySelected topK homogenize answer randomIndex)) \/
     exists first, hd_error pool = Some first /\
                   matchKey (getId track) = slimKey first) /\
    replaceTrack rankByContinuity workingSet style orchestra avoidIds previouslySelected
      topK homogenize answer randomIndex =
    Ok (getId track)
       (suggestionsOut rankByContinuity workingSet style orchestra avoidIds
          previouslySelected topK homogenize (getId track)
          (snd (selection rankByContinuity workingSet style orchestra avoidIds
                  previouslySelected topK homogenize answer randomIndex))).
Proof.
  intro Hne. unfold replaceTrack.
  pose proof (selection_allowed answer randomIndex Hne) as Hsel.
  destruct pool as [|first rest] eqn:Ep; [contradiction|].
  assert (Hfirst : In first pool) by (rewrite Ep; now left).
  apply pool_allowed in Hfirst as [Hfa [t0 [Ht0 Eid]]].
  destruct (selection _ _ _ _ _ _ _ _ answer randomIndex) as [chosen proposed].
  cbn [fst snd] in *.
  assert (Hres : exists track,
            nullish (resolveId workingSet chosen) (resolveId workingSet (c_id first))
              = Some track /\
            In track workingSet /\
            (matchKey (getId track) = matchKey chosen \/
             matchKey (getId track) = slimKey first)).
  { destruct (resolveId workingSet chosen) as [t|] eqn:E1.
    - exists t. cbn [nullish]. split; [reflexivity|].
      apply resolveId_Some in E1 as [Hin Hk]. split; [assumption | now left].
    - cbn [nullish]. rewrite Eid.
      destruct (resolveId_member t0 Ht0) as [t' Ht'].
      exists t'. split; [assumption|].
      apply resolveId_Some in Ht' as [Hin Hk]. split; [assumption|].
      right. unfold slimKey. now rewrite Eid. }
  destruct Hres as [track [Er [Hin Hk]]]. rewrite Er.
  assert (Ha : allowed (matchKey (getId track)) = true).
  { destruct Hk as [-> | ->]; assumption. }
  exists track. split; [assumption|]. split; [assumption|]. split.
  - destruct Hk as [Hk|Hk]; [now left|]. right. exists first. now split.
  - apply allowed_spec in Ha as [Ha _]. rewrite Ha. reflexivity.
Qed.

End ReplaceFacts.


(* ------------------------------------------------------------------ *)
(** ** Identity keys: where normalisation is stable and which variants agree *)
(* ------------------------------------------------------------------ *)

(** Turns the boolean comparisons in the context into propositions. *)
Ltac props :=
  repeat match goal with
         | H : (_ && _) = true |- _ => apply andb_true_iff in H; destruct H
         | H : (_ && _) = false |- _ => apply andb_false_iff in H; destruct H
         | H : (_ || _) = true |- _ => apply orb_true_iff in H; destruct H
         | H : (_ || _) = false |- _ => apply orb_false_iff in H; destruct H
         | H : negb _ = true |- _ => apply negb_true_iff in H
         | H : negb _ = false |- _ => apply negb_false_iff in H
         | H : (_ <=? _)%N = true |- _ => apply N.leb_le in H
         | H : (_ <=? _)%N = false |- _ => apply N.leb_gt in H
         | H : (_ <? _)%N = true |- _ => apply N.ltb_lt in H
         | H : (_ <? _)%N = false |- _ => apply N.ltb_ge in H
         | H : (_ =? _)%N = true |- _ => apply N.eqb_eq in H
         | H : (_ =? _)%N = false |- _ => apply N.eqb_neq in H
         end.

(** Splits on every condition of the goal and settles the arithmetic. *)
Ltac by_cases :=
  repeat match goal with
         | |- context [if ?b then _ else _] => destruct b eqn:?
         end; props; try lia; try reflexivity; try (f_equal; lia).

Section UnitFacts.

Local Open Scope N_scope.

Lemma replaceBackslashes_map (x : jsstring) : replaceBackslashes x = map replUnit x.
Proof. reflexivity. Qed.

Lemma lowerUnit_variant (c d : N) : lowerUnit c = lowerUnit d -> variantUnit c d.
Proof.
  unfold lowerUnit.
  destruct ((65 <=? c) && (c <=? 90)) eqn:Ec;
    destruct ((65 <=? d) && (d <=? 90)) eqn:Ed; intro H; props;
    solve [ assert (c = d) by lia; subst; constructor
          | rewrite <- H; apply vu_lower; lia
          | rewrite H; apply vu_upper; lia ].
Qed.

Lemma replUnit_variant (c d : N) : replUnit c = replUnit d -> variantUnit c d.
Proof.
  unfold replUnit. destruct (c =? 92) eqn:Ec; destruct (d =? 92) eqn:Ed;
    intro H; props; subst; constructor.
Qed.

Lemma isWhiteSpace_printable (c : N) : 33 <= c <= 126 -> isWhiteSpace c = false.
Proof.
  intro H. unfold isWhiteSpace, isLineTerminator.
  rewrite !orb_false_iff. repeat split; try (apply N.eqb_neq; lia).
  apply andb_false_iff. left. apply N.leb_gt. lia.
Qed.

Lemma variant_whitespace (c d : N) :
  variantUnit c d -> isWhiteSpace c = isWhiteSpace d.
Proof.
  intro H. destruct H; try reflexivity;
    rewrite !isWhiteSpace_printable by lia; reflexivity.
Qed.

Lemma variant_percent (c d : N) : variantUnit c d -> (c =? 37) = (d =? 37).
Proof.
  intro H. destruct H; try reflexivity.
  - destruct (c =? 37) eqn:E1, (c + 32 =? 37) eqn:E2; props; try reflexivity; lia.
  - destruct (c =? 37) eqn:E1, (c + 32 =? 37) eqn:E2; props; try reflexivity; lia.
Qed.

Lemma variant_hex (c d : N) :
  variantUnit c d -> digitOfBase 16 c = digitOfBase 16 d.
Proof.
  assert (Hl : forall c, 65 <= c <= 90 ->
                         digitOfBase 16 c = digitOfBase 16 (c + 32)).
  { intros x Hx. unfold digitOfBase, isDigit.
    repeat match goal with
           | |- context [if ?b then _ else _] => destruct b eqn:?
           end; props; try lia; try reflexivity; f_equal; lia. }
  intro H. destruct H; try reflexivity.
  - now apply Hl.
  - symmetry. now apply Hl.
Qed.

Lemma variant_fold (c d : N) :
  variantUnit c d -> lowerUnit (replUnit c) = lowerUnit (replUnit d).
Proof.
  intro H. destruct H; try reflexivity.
  - unfold replUnit.
    replace (c =? 92) with false by (symmetry; apply N.eqb_neq; lia).
    replace (c + 32 =? 92) with false by (symmetry; apply N.eqb_neq; lia).
    unfold lowerUnit.
    replace ((65 <=? c) && (c <=? 90)) with true
      by (symmetry; apply andb_true_iff; split; apply N.leb_le; lia).
    replace ((65 <=? c + 32) && (c + 32 <=? 90)) with false
      by (symmetry; apply andb_false_iff; right; apply N.leb_gt; lia).
    reflexivity.
  - unfold replUnit.
    replace (c =? 92) with false by (symmetry; apply N.eqb_neq; lia).
    replace (c + 32 =? 92) with false by (symmetry; apply N.eqb_neq; lia).
    unfold lowerUnit.
    replace ((65 <=? c) && (c <=? 90)) with true
      by (symmetry; apply andb_true_iff; split; apply N.leb_le; lia).
    replace ((65 <=? c + 32) && (c + 32 <=? 90)) with false
      by (symmetry; apply andb_false_iff; right; apply N.leb_gt; lia).
    reflexivity.
Qed.

Lemma variant_caseless (c d : N) :
  variantUnit c d -> c <> 92 -> c <> 47 -> lowerUnit c = lowerUnit d.
Proof.
  intros H H1 H2. destruct H; try reflexivity; try contradiction.
  - unfold lowerUnit.
    replace ((65 <=? c) && (c <=? 90)) with true
      by (symmetry; apply andb_true_iff; split; apply N.leb_le; lia).
    replace ((65 <=? c + 32) && (c + 32 <=? 90)) with false
      by (symmetry; apply andb_false_iff; right; apply N.leb_gt; lia).
    reflexivity.
  - unfold lowerUnit.
    replace ((65 <=? c) && (c <=? 90)) with true
      by (symmetry; apply andb_true_iff; split; apply N.leb_le; lia).
    replace ((65 <=? c + 32) && (c + 32 <=? 90)) with false
      by (symmetry; apply andb_false_iff; right; apply N.leb_gt; lia).
    reflexivity.
Qed.

(** [toLowerCase . replaceBackslashes] is idempotent on each unit. *)
Lemma fold_unit_idem (c : N) :
  lowerUnit (replUnit (lowerUnit (replUnit c))) = lowerUnit (replUnit c).
Proof.
  assert (R : forall x, x <> 92 -> replUnit x = x).
  { intros x Hx. unfold replUnit. apply N.eqb_neq in Hx. now rewrite Hx. }
  destruct (N.eq_dec c 92) as [->|Hc]; [reflexivity|].
  rewrite (R c Hc).
  assert (L : lowerUnit c <> 92).
  { unfold lowerUnit. destruct ((65 <=? c) && (c <=? 90)) eqn:E; props; lia. }
  rewrite (R _ L). unfold lowerUnit.
  destruct ((65 <=? c) && (c <=? 90)) eqn:E; [|now rewrite E].
  props.
  replace ((65 <=? c + 32) && (c + 32 <=? 90)) with false; [reflexivity|].
  symmetry. apply andb_false_iff. right. apply N.leb_gt. lia.
Qed.

Lemma isAlnum_printable (c : N) : isAlnum c = true -> 48 <= c <= 122.
Proof. unfold isAlnum, isDigit. intro H. props; lia. Qed.

End UnitFacts.

Section VariantFacts.

Local Open Scope N_scope.

Lemma variants_refl (a : jsstring) : variants a a.
Proof. induction a; constructor; [constructor | assumption]. Qed.

Lemma variants_of_case (a b : jsstring) : toLowerCase a = toLowerCase b -> variants a b.
Proof.
  revert b. induction a as [|c a IH]; intros [|d b] H; try discriminate.
  - constructor.
  - inversion H. constructor; [now apply lowerUnit_variant | now apply IH].
Qed.

Lemma variants_of_slashes (a b : jsstring) :
  replaceBackslashes a = replaceBackslashes b -> variants a b.
Proof.
  rewrite !replaceBackslashes_map.
  revert b. induction a as [|c a IH]; intros [|d b] H; try discriminate.
  - constructor.
  - inversion H. constructor; [now apply replUnit_variant | now apply IH].
Qed.

Lemma variants_fold (a b : jsstring) :
  variants a b ->
  toLowerCase (replaceBackslashes a) = toLowerCase (replaceBackslashes b).
Proof.
  intro H. unfold toLowerCase, replaceBackslashes.
  induction H as [|c d a b Hc Hab IH]; [reflexivity|].
  cbn [map]. rewrite IH. f_equal. exact (variant_fold c d Hc).
Qed.

Lemma variants_dropWhile (a b : jsstring) :
  variants a b -> variants (dropWhile isWhiteSpace a) (dropWhile isWhiteSpace b).
Proof.
  intro H. induction H as [|c d a b Hc Hab IH]; [constructor|].
  cbn [dropWhile]. rewrite <- (variant_whitespace c d Hc).
  destruct (isWhiteSpace c); [assumption | now constructor].
Qed.

Lemma variants_app (a b a' b' : jsstring) :
  variants a b -> variants a' b' -> variants (a ++ a') (b ++ b').
Proof. apply Forall2_app. Qed.

Lemma variants_rev (a b : jsstring) : variants a b -> variants (rev a) (rev b).
Proof.
  intro H. induction H as [|c d a b Hc Hab IH]; [constructor|].
  cbn [rev]. apply variants_app; [assumption|]. repeat constructor. assumption.
Qed.

Lemma variants_trim (a b : jsstring) : variants a b -> variants (trim a) (trim b).
Proof.
  intro H. unfold trim, trimEnd, trimStart.
  apply variants_rev, variants_dropWhile, variants_rev, variants_dropWhile, H.
Qed.

Lemma variants_skipn (n : nat) (a b : jsstring) :
  variants a b -> variants (skipn n a) (skipn n b).
Proof.
  revert a b. induction n as [|n IH]; intros a b H; [exact H|].
  destruct H; [constructor | now apply IH].
Qed.

Lemma variants_length (a b : jsstring) : variants a b -> List.length a = List.length b.
Proof. intro H. induction H; simpl; congruence. Qed.

Lemma variants_stripFilePrefix (a b : jsstring) :
  variants a b ->
  startsWithCI (js "file://") a = startsWithCI (js "file://") b ->
  variants (stripFilePrefix a) (stripFilePrefix b).
Proof.
  intros H E. unfold stripFilePrefix. rewrite <- E.
  destruct (startsWithCI (js "file://") a); [now apply variants_skipn | assumption].
Qed.

(** Case variants agree on any case-insensitive prefix test. *)
Lemma startsWithCI_case (p a b : jsstring) :
  toLowerCase a = toLowerCase b -> startsWithCI p a = startsWithCI p b.
Proof.
  revert a b. induction p as [|x p IH]; intros a b H; [reflexivity|].
  destruct a as [|c a], b as [|d b]; try discriminate; [reflexivity|].
  inversion H as [[Hc Hr]]. cbn [startsWithCI]. rewrite Hc. f_equal. now apply IH.
Qed.

Lemma toLowerCase_dropWhile (a : jsstring) :
  toLowerCase (dropWhile isWhiteSpace a) = dropWhile isWhiteSpace (toLowerCase a).
Proof.
  induction a as [|c a IH]; [reflexivity|]. cbn [dropWhile toLowerCase map].
  rewrite <- (variant_whitespace c (lowerUnit c)).
  - destruct (isWhiteSpace c); [exact IH | reflexivity].
  - apply lowerUnit_variant. unfold lowerUnit.
    destruct ((65 <=? c) && (c <=? 90)) eqn:E; [|now rewrite E].
    apply andb_true_iff in E as [E1 E2]. apply N.leb_le in E1, E2.
    replace ((65 <=? c + 32) && (c + 32 <=? 90)) with false; [reflexivity|].
    symmetry. apply andb_false_iff. right. apply N.leb_gt. lia.
Qed.

Lemma toLowerCase_trim (a : jsstring) : toLowerCase (trim a) = trim (toLowerCase a).
Proof.
  unfold trim, trimEnd, trimStart, toLowerCase.
  rewrite map_rev. fold (toLowerCase (dropWhile isWhiteSpace (rev (dropWhile isWhiteSpace a)))).
  rewrite toLowerCase_dropWhile. unfold toLowerCase. rewrite map_rev.
  fold (toLowerCase (dropWhile isWhiteSpace a)). rewrite toLowerCase_dropWhile.
  reflexivity.
Qed.

End VariantFacts.

Section DecodeFacts.

Local Open Scope N_scope.

Lemma readEscape_other (c : N) (r : jsstring) : c <> 37 -> readEscape (c :: r) = None.
Proof.
  intro H. destruct c as [|p]; [reflexivity|].
  repeat (first [reflexivity | destruct p as [p|p|]]).
  exfalso. apply H. reflexivity.
Qed.

Lemma readEscape_cons (h l : N) (r : jsstring) :
  readEscape (37 :: h :: l :: r) =
  match digitOfBase 16 h, digitOfBase 16 l with
  | Some a, Some b => Some (16 * a + b, r)
  | _, _ => None
  end.
Proof. reflexivity. Qed.

Lemma readEscape_inv (s : jsstring) (b : N) (r : jsstring) :
  readEscape s = Some (b, r) ->
  exists h l x y, s = 37 :: h :: l :: r /\ digitOfBase 16 h = Some x /\
                  digitOfBase 16 l = Some y /\ b = 16 * x + y.
Proof.
  destruct s as [|c s]; [discriminate|].
  destruct (N.eq_dec c 37) as [->|Hc];
    [|rewrite readEscape_other by assumption; discriminate].
  destruct s as [|h [|l r']]; try discriminate.
  rewrite readEscape_cons.
  destruct (digitOfBase 16 h) as [x|] eqn:Eh; [|discriminate].
  destruct (digitOfBase 16 l) as [y|] eqn:El; [|discriminate].
  intro H. inversion H; subst. exists h, l, x, y. auto.
Qed.

Lemma readEscape_length (s : jsstring) (b : N) (r : jsstring) :
  readEscape s = Some (b, r) -> List.length s = (3 + List.length r)%nat.
Proof.
  intro H. apply readEscape_inv in H as (h & l & x & y & -> & _). reflexivity.
Qed.

Lemma readContinuations_length (k : nat) (s : jsstring) (bs : list N) (r : jsstring) :
  readContinuations k s = Some (bs, r) -> (List.length r <= List.length s)%nat.
Proof.
  revert s bs. induction k as [|k IH]; intros s bs H.
  - inversion H; subst. lia.
  - cbn [readContinuations] in H.
    destruct (readEscape s) as [[b r1]|] eqn:E; [|discriminate].
    destruct (readContinuations k r1) as [[bs' r']|] eqn:E'; [|discriminate].
    inversion H; subst. apply IH in E'. apply readEscape_length in E. lia.
Qed.

(** A string without [%] decodes to itself. *)
Lemma decodeFrom_plain (y : jsstring) :
  ~ In 37 y -> forall f, (List.length y < f)%nat -> decodeFrom f y = Some y.
Proof.
  induction y as [|c y IH]; intros Hy f Hf.
  - destruct f; [lia | reflexivity].
  - destruct f as [|f]; [simpl in Hf; lia|]. cbn [decodeFrom].
    replace (c =? 37) with false
      by (symmetry; apply N.eqb_neq; intro; subst; apply Hy; now left).
    rewrite IH; [reflexivity | | simpl in Hf; lia].
    intro Hin. apply Hy. now right.
Qed.

Lemma decodeURIComponent_plain (y : jsstring) :
  ~ In 37 y -> decodeURIComponent y = Some y.
Proof. intro H. apply decodeFrom_plain; [assumption | lia]. Qed.

Lemma variants_readEscape (a b : jsstring) :
  variants a b -> optRel sameEscape (readEscape a) (readEscape b).
Proof.
  intro H. destruct H as [|c d a b Hc H]; [exact I|].
  pose proof (variant_percent c d Hc) as Hp.
  destruct (N.eq_dec c 37) as [->|Hn].
  - symmetry in Hp. apply N.eqb_eq in Hp. subst d.
    destruct H as [|h h' a b Hh H]; [exact I|].
    destruct H as [|l l' a b Hl H]; [exact I|].
    rewrite !readEscape_cons.
    rewrite <- (variant_hex h h' Hh), <- (variant_hex l l' Hl).
    destruct (digitOfBase 16 h); [|exact I].
    destruct (digitOfBase 16 l); [|exact I].
    split; [reflexivity | exact H].
  - assert (d <> 37).
    { intro; subst d. apply Hn. apply N.eqb_eq. rewrite Hp. reflexivity. }
    rewrite !readEscape_other by assumption. exact I.
Qed.

Lemma variants_readContinuations (k : nat) (a b : jsstring) :
  variants a b -> optRel sameOctets (readContinuations k a) (readContinuations k b).
Proof.
  revert a b. induction k as [|k IH]; intros a b H.
  - split; [reflexivity | exact H].
  - cbn [readContinuations]. pose proof (variants_readEscape a b H) as He.
    destruct (readEscape a) as [[x r]|], (readEscape b) as [[y r']|];
      try contradiction; [|exact I].
    destruct He as [Hx Hr]. simpl in Hx, Hr. subst y.
    specialize (IH r r' Hr).
    destruct (readContinuations k r) as [[bs r1]|],
             (readContinuations k r') as [[bs' r1']|]; try contradiction; [|exact I].
    destruct IH as [Hb Hr1]. simpl in Hb, Hr1. subst bs'.
    split; [reflexivity | exact Hr1].
Qed.

Lemma optRel_map_cons (c d : N) (x y : option jsstring) :
  variantUnit c d -> optRel variants x y ->
  optRel variants (option_map (cons c) x) (option_map (cons d) y).
Proof.
  intros Hc H. destruct x, y; try contradiction; [|exact I].
  simpl. now constructor.
Qed.

Lemma optRel_map_app (p : jsstring) (x y : option jsstring) :
  optRel variants x y ->
  optRel variants (option_map (app p) x) (option_map (app p) y).
Proof.
  intros H. destruct x, y; try contradiction; [|exact I].
  simpl. apply variants_app; [apply variants_refl | exact H].
Qed.

(** Variants decode alike: both fail, or both succeed with variant results. *)
Lemma variants_decodeFrom (f : nat) (a b : jsstring) :
  variants a b -> optRel variants (decodeFrom f a) (decodeFrom f b).
Proof.
  revert a b. induction f as [|f IH]; intros a b H; [exact I|].
  destruct H as [|c d a b Hc H]; [constructor|].
  assert (Hv : variants (c :: a) (d :: b)) by now constructor.
  cbn [decodeFrom]. rewrite <- (variant_percent c d Hc).
  destruct (c =? 37).
  - pose proof (variants_readEscape _ _ Hv) as He.
    destruct (readEscape (c :: a)) as [[x r]|], (readEscape (d :: b)) as [[y r']|];
      try contradiction; [|exact I].
    destruct He as [Hx Hr]. simpl in Hx, Hr. subst y.
    destruct (leadingOnes x) as [|[|k]].
    + apply optRel_map_cons; [constructor | now apply IH].
    + exact I.
    + assert (Hk : optRel variants
                (match readContinuations (S k) r with
                 | None => None
                 | Some (bs, r2) =>
                     match utf8CodePoint (x :: bs) with
                     | None => None
                     | Some v => option_map (app (UTF16EncodeCodePoint v)) (decodeFrom f r2)
                     end
                 end)
                (match readContinuations (S k) r' with
                 | None => None
                 | Some (bs, r2) =>
                     match utf8CodePoint (x :: bs) with
                     | None => None
                     | Some v => option_map (app (UTF16EncodeCodePoint v)) (decodeFrom f r2)
                     end
                 end)).
      { pose proof (variants_readContinuations (S k) r r' Hr) as Hc'.
        destruct (readContinuations (S k) r) as [[bs r2]|],
                 (readContinuations (S k) r') as [[bs' r2']|];
          try contradiction; [|exact I].
        destruct Hc' as [Hb Hr2]. simpl in Hb, Hr2. subst bs'.
        destruct (utf8CodePoint (x :: bs)); [|exact I].
        apply optRel_map_app. now apply IH. }
      destruct k as [|[|[|k]]]; [exact Hk | exact Hk | exact Hk | exact I].
  - apply optRel_map_cons; [exact Hc | now apply IH].
Qed.

End DecodeFacts.

Section NormFacts.

Local Open Scope N_scope.

Lemma norm_eq (s : jsstring) :
  norm (Some s) =
  toLowerCase (replaceBackslashes (decodeOrKeep (stripFilePrefix (trim s)))).
Proof. destruct s; reflexivity. Qed.

Lemma normKey_norm (s : option jsstring) : normKey s = norm s.
Proof. reflexivity. Qed.

Lemma fold_idem (w : jsstring) :
  toLowerCase (replaceBackslashes (toLowerCase (replaceBackslashes w))) =
  toLowerCase (replaceBackslashes w).
Proof.
  unfold toLowerCase, replaceBackslashes. rewrite !map_map.
  apply map_ext. intro c. exact (fold_unit_idem c).
Qed.

(** Variants with the same answer to the prefix test have the same key. *)
Lemma variants_norm (a b : jsstring) :
  variants a b ->
  startsWithCI (js "file://") (trim a) = startsWithCI (js "file://") (trim b) ->
  norm (Some a) = norm (Some b).
Proof.
  intros H E. rewrite !norm_eq. apply variants_fold.
  pose proof (variants_stripFilePrefix _ _ (variants_trim _ _ H) E) as Hs.
  unfold decodeOrKeep, decodeURIComponent. rewrite (variants_length _ _ Hs).
  pose proof (variants_decodeFrom
                (S (List.length (stripFilePrefix (trim b)))) _ _ Hs) as Hd.
  destruct (decodeFrom _ (stripFilePrefix (trim a))),
           (decodeFrom _ (stripFilePrefix (trim b))); try contradiction; assumption.
Qed.

(** A key is stable when nothing is left in it for [norm] to remove. *)
Lemma norm_stable (x : jsstring) :
  let y := norm (Some x) in
  ~ In 37 y -> startsWithCI (js "file://") y = false -> trim y = y ->
  norm (Some y) = y.
Proof.
  intros y Hp Hf Ht. rewrite norm_eq, Ht. unfold stripFilePrefix. rewrite Hf.
  unfold decodeOrKeep. rewrite decodeURIComponent_plain by assumption.
  unfold y. rewrite norm_eq. apply fold_idem.
Qed.

(** *** Appending an extension *)

Lemma dropWhile_app_stop (p t : jsstring) (c : N) :
  isWhiteSpace c = false ->
  dropWhile isWhiteSpace (p ++ c :: t) = dropWhile isWhiteSpace p ++ c :: t.
Proof.
  intro H. induction p as [|x p IH]; cbn [app dropWhile].
  - now rewrite H.
  - destruct (isWhiteSpace x); [exact IH | reflexivity].
Qed.

Lemma trimEnd_app_stop (q t : jsstring) :
  t <> [] -> Forall (fun c => isWhiteSpace c = false) t -> trimEnd (q ++ t) = q ++ t.
Proof.
  intros Hn Ht. unfold trimEnd. rewrite rev_app_distr.
  destruct (rev t) as [|c r] eqn:E.
  - exfalso. apply Hn. rewrite <- (rev_involutive t), E. reflexivity.
  - assert (Hc : isWhiteSpace c = false).
    { rewrite Forall_forall in Ht. apply Ht. apply in_rev. rewrite E. now left. }
    cbn [app dropWhile]. rewrite Hc.
    change (c :: r ++ rev q) with ((c :: r) ++ rev q).
    rewrite <- E, <- rev_app_distr. apply rev_involutive.
Qed.

Lemma alnum_not_space (e : jsstring) :
  forallb isAlnum e = true -> Forall (fun c => isWhiteSpace c = false) e.
Proof.
  intro H. apply Forall_forall. intros c Hc.
  rewrite forallb_forall in H. apply isWhiteSpace_printable.
  pose proof (isAlnum_printable c (H c Hc)). lia.
Qed.

Lemma trim_extension (p e : jsstring) :
  forallb isAlnum e = true -> trim (p ++ 46 :: e) = trimStart p ++ 46 :: e.
Proof.
  intro H. unfold trim, trimStart.
  rewrite dropWhile_app_stop by reflexivity.
  apply trimEnd_app_stop; [discriminate|].
  constructor; [reflexivity | now apply alnum_not_space].
Qed.

Lemma startsWithCI_app (pat q t : jsstring) :
  Forall (fun x => lowerUnit x <> 46) pat ->
  startsWithCI pat (q ++ 46 :: t) = startsWithCI pat q.
Proof.
  intro H. revert q. induction H as [|x pat Hx Hp IH]; intro q; [reflexivity|].
  destruct q as [|c q]; cbn [app startsWithCI].
  - change (lowerUnit 46) with 46.
    apply N.eqb_neq in Hx. rewrite Hx. reflexivity.
  - now rewrite IH.
Qed.

Lemma startsWithCI_length (pat q : jsstring) :
  startsWithCI pat q = true -> (List.length pat <= List.length q)%nat.
Proof.
  revert q. induction pat as [|x pat IH]; intros q H; [simpl; lia|].
  destruct q as [|c q]; [discriminate|].
  cbn [startsWithCI] in H. apply andb_true_iff in H as [_ H].
  apply IH in H. simpl. lia.
Qed.

Lemma stripFilePrefix_app (q t : jsstring) :
  stripFilePrefix (q ++ 46 :: t) = stripFilePrefix q ++ 46 :: t.
Proof.
  unfold stripFilePrefix. rewrite startsWithCI_app.
  - destruct (startsWithCI (js "file://") q) eqn:E; [|reflexivity].
    apply startsWithCI_length in E. change (List.length (js "file://")) with 7%nat in E.
    rewrite skipn_app. replace (7 - List.length q)%nat with 0%nat by lia.
    reflexivity.
  - repeat constructor; vm_compute; discriminate.
Qed.

Lemma readEscape_app (q t : jsstring) :
  readEscape (q ++ 46 :: t) = option_map (withRest (46 :: t)) (readEscape q).
Proof.
  destruct q as [|c q]; [reflexivity|].
  destruct (N.eq_dec c 37) as [->|Hc];
    [|cbn [app]; now rewrite !readEscape_other by assumption].
  destruct q as [|h [|l r]].
  - destruct t; reflexivity.
  - cbn [app]. rewrite readEscape_cons.
    destruct (digitOfBase 16 h); reflexivity.
  - cbn [app]. rewrite !readEscape_cons.
    destruct (digitOfBase 16 h); [|reflexivity].
    destruct (digitOfBase 16 l); reflexivity.
Qed.

Lemma readContinuations_app (k : nat) (q t : jsstring) :
  readContinuations k (q ++ 46 :: t) =
  option_map (withRest (46 :: t)) (readContinuations k q).
Proof.
  revert q. induction k as [|k IH]; intro q; [reflexivity|].
  cbn [readContinuations]. rewrite readEscape_app.
  destruct (readEscape q) as [[b r]|]; [|reflexivity].
  cbn [option_map withRest fst snd]. rewrite IH.
  destruct (readContinuations k r) as [[bs r']|]; reflexivity.
Qed.

End NormFacts.

Section ExtensionFacts.

Local Open Scope N_scope.

Lemma decodeFrom_app (t : jsstring) (Ht : ~ In 37 t) (f : nat) :
  forall (q : jsstring) (f' : nat),
    (List.length q < f)%nat -> (List.length q + S (List.length t) < f')%nat ->
    decodeFrom f' (q ++ 46 :: t) =
    option_map (fun w => w ++ 46 :: t) (decodeFrom f q).
Proof.
  induction f as [|f IH]; intros q f' Hf Hf'; [lia|].
  destruct f' as [|f']; [lia|].
  destruct q as [|c q].
  - cbn [app]. rewrite decodeFrom_plain; [reflexivity | | cbn [List.length] in *; lia].
    intros [H|H]; [discriminate | contradiction].
  - cbn [List.length] in Hf, Hf'.
    cbn [app decodeFrom]. destruct (c =? 37) eqn:Ec.
    + change (c :: q ++ 46 :: t) with ((c :: q) ++ 46 :: t).
      rewrite readEscape_app.
      destruct (readEscape (c :: q)) as [[b r]|] eqn:Er; [|reflexivity].
      cbn [option_map withRest fst snd].
      pose proof (readEscape_length _ _ _ Er) as Hl. cbn [List.length] in Hl.
      destruct (leadingOnes b) as [|[|k]].
      * rewrite (IH r f');
          [destruct (decodeFrom f r); reflexivity | lia
          | lia].
      * reflexivity.
      * assert (Hk :
          match readContinuations (S k) (r ++ 46 :: t) with
          | None => None
          | Some (bs, r2) =>
              match utf8CodePoint (b :: bs) with
              | None => None
              | Some v => option_map (app (UTF16EncodeCodePoint v)) (decodeFrom f' r2)
              end
          end =
          option_map (fun w => w ++ 46 :: t)
            match readContinuations (S k) r with
            | None => None
            | Some (bs, r2) =>
                match utf8CodePoint (b :: bs) with
                | None => None
                | Some v => option_map (app (UTF16EncodeCodePoint v)) (decodeFrom f r2)
                end
            end).
        { rewrite readContinuations_app.
          destruct (readContinuations (S k) r) as [[bs r2]|] eqn:Ek; [|reflexivity].
          cbn [option_map withRest fst snd].
          destruct (utf8CodePoint (b :: bs)); [|reflexivity].
          pose proof (readContinuations_length _ _ _ _ Ek).
          rewrite (IH r2 f');
            [|lia | lia].
          destruct (decodeFrom f r2); [|reflexivity].
          cbn [option_map]. now rewrite app_assoc. }
        destruct k as [|[|[|k]]]; [exact Hk | exact Hk | exact Hk | reflexivity].
    + rewrite (IH q f');
        [destruct (decodeFrom f q); reflexivity | lia
        | lia].
Qed.

Lemma alnum_no_percent (e : jsstring) : forallb isAlnum e = true -> ~ In 37 e.
Proof.
  intros H Hin. rewrite forallb_forall in H.
  pose proof (isAlnum_printable 37 (H 37 Hin)). lia.
Qed.

Lemma decodeOrKeep_app (q t : jsstring) :
  ~ In 37 t -> decodeOrKeep (q ++ 46 :: t) = decodeOrKeep q ++ 46 :: t.
Proof.
  intro Ht. unfold decodeOrKeep, decodeURIComponent.
  rewrite (decodeFrom_app t Ht (S (List.length q)) q)
    by (rewrite ?length_app; cbn [List.length]; lia).
  destruct (decodeFrom (S (List.length q)) q); reflexivity.
Qed.

Lemma isExtension_dot (u e : jsstring) : isExtension (u ++ 46 :: e) = false.
Proof.
  unfold isExtension. destruct (u ++ 46 :: e) eqn:E; [reflexivity|].
  rewrite <- E, forallb_app. cbn [forallb]. change (isAlnum 46) with false.
  apply andb_false_r.
Qed.

(** The extension that [stripExt] removes is the last one. *)
Lemma stripExt_app (u e : jsstring) :
  isExtension e = true -> stripExt (u ++ 46 :: e) = u.
Proof.
  intro H. induction u as [|c u IH]; cbn [app stripExt].
  - rewrite H. reflexivity.
  - rewrite isExtension_dot, andb_false_r, IH. reflexivity.
Qed.

Lemma isAlnum_fold (c : N) :
  isAlnum c = true -> isAlnum (lowerUnit (replUnit c)) = true.
Proof.
  intro H.
  assert (Hr : 48 <= c <= 57 \/ 97 <= c <= 122 \/ 65 <= c <= 90)
    by (unfold isAlnum, isDigit in H; props; lia).
  unfold replUnit. replace (c =? 92) with false by (symmetry; apply N.eqb_neq; lia).
  unfold lowerUnit. destruct ((65 <=? c) && (c <=? 90)) eqn:E; [|exact H].
  props. unfold isAlnum.
  apply orb_true_iff; left; apply orb_true_iff; right.
  apply andb_true_iff; split; apply N.leb_le; lia.
Qed.

Lemma isExtension_fold (e : jsstring) :
  isExtension e = true -> isExtension (toLowerCase (replaceBackslashes e)) = true.
Proof.
  destruct e as [|c e]; [discriminate|]. intro H.
  change (forallb isAlnum (toLowerCase (replaceBackslashes (c :: e))) = true).
  change (forallb isAlnum (c :: e) = true) in H.
  rewrite forallb_forall in *. intros x Hx.
  unfold toLowerCase, replaceBackslashes in Hx. rewrite map_map in Hx.
  apply in_map_iff in Hx as (y & <- & Hy). exact (isAlnum_fold y (H y Hy)).
Qed.

(** The key of a path with an extension does not depend on the extension. *)
Lemma matchKey_extension (p e : jsstring) :
  isExtension e = true ->
  matchKey (Some (p ++ 46 :: e)) =
  toLowerCase (replaceBackslashes (decodeOrKeep (stripFilePrefix (trimStart p)))).
Proof.
  intro H.
  assert (Ha : forallb isAlnum e = true) by (destruct e; [discriminate | exact H]).
  unfold matchKey. rewrite norm_eq, trim_extension by exact Ha.
  rewrite stripFilePrefix_app, decodeOrKeep_app by now apply alnum_no_percent.
  pose proof (isExtension_fold e H) as Hf.
  unfold replaceBackslashes, toLowerCase in *. rewrite !map_app. cbn [map].
  change (lowerUnit (if 46 =? 92 then 47 else 46)) with 46.
  now apply stripExt_app.
Qed.

End ExtensionFacts.

(** Division and remainder by a constant, for [lia]. *)
Ltac Zify.zify_post_hook ::= Z.to_euclidean_division_equations.

Section EncodeFacts.

Local Open Scope N_scope.

Lemma hex_roundtrip (n : N) : n < 16 -> digitOfBase 16 (hexDigitUpper n) = Some n.
Proof.
  intro H. unfold hexDigitUpper. destruct (n <? 10) eqn:E;
    unfold digitOfBase, isDigit; by_cases.
Qed.

Lemma hexDigitUpper_safe (n : N) : n < 16 -> uriSafe (hexDigitUpper n).
Proof.
  intro H. unfold hexDigitUpper, uriSafe. destruct (n <? 10) eqn:E; props; lia.
Qed.

Lemma uriUnreserved_safe (c : N) : uriUnreserved c = true -> uriSafe c /\ c <> 37.
Proof.
  unfold uriUnreserved, isAlnum, isDigit, uriSafe. intro H. props; lia.
Qed.

Lemma readEscape_percentByte (b : N) (r : jsstring) :
  b < 256 -> readEscape (percentByte b ++ r) = Some (b, r).
Proof.
  intro H. unfold percentByte. cbn [app].
  rewrite readEscape_cons, !hex_roundtrip by lia. f_equal. f_equal. lia.
Qed.

Lemma readContinuations_bytes (bs : list N) (r : jsstring) :
  Forall (fun b => b < 256) bs ->
  readContinuations (List.length bs) (flat_map percentByte bs ++ r) = Some (bs, r).
Proof.
  induction 1 as [|b bs Hb Hbs IH]; [reflexivity|].
  cbn [List.length flat_map readContinuations].
  rewrite <- app_assoc, readEscape_percentByte by assumption.
  rewrite IH. reflexivity.
Qed.

Lemma percentBytes_safe (bs : list N) :
  Forall (fun b => b < 256) bs -> Forall uriSafe (flat_map percentByte bs).
Proof.
  induction 1 as [|b bs Hb Hbs IH]; [constructor|].
  cbn [flat_map percentByte app].
  constructor; [unfold uriSafe; lia|].
  constructor; [apply hexDigitUpper_safe; lia|].
  constructor; [apply hexDigitUpper_safe; lia | exact IH].
Qed.

Lemma percentBytes_length (bs : list N) :
  List.length (flat_map percentByte bs) = (3 * List.length bs)%nat.
Proof. induction bs as [|b bs IH]; [reflexivity|]. cbn. rewrite IH. lia. Qed.

Lemma utf8Encode_bytes (v : N) :
  v <= 1114111 -> Forall (fun b => b < 256) (utf8Encode v).
Proof.
  intro H. unfold utf8Encode.
  destruct (v <? 128) eqn:E1;
    [|destruct (v <? 2048) eqn:E2; [|destruct (v <? 65536) eqn:E3]];
    props; repeat constructor; lia.
Qed.

Lemma utf8Encode_length (v : N) : (1 <= List.length (utf8Encode v))%nat.
Proof.
  unfold utf8Encode.
  destruct (v <? 128); [|destruct (v <? 2048); [|destruct (v <? 65536)]];
    cbn [List.length]; lia.
Qed.

(** Decoding the escapes of one multi-byte sequence. *)
Lemma decodeFrom_sequence (f : nat) (b : N) (bs : list N) (r : jsstring) (v : N) :
  b < 256 -> Forall (fun x => x < 256) bs ->
  leadingOnes b = S (List.length bs) ->
  (1 <= List.length bs <= 3)%nat ->
  utf8CodePoint (b :: bs) = Some v ->
  decodeFrom (S f) (flat_map percentByte (b :: bs) ++ r) =
  option_map (app (UTF16EncodeCodePoint v)) (decodeFrom f r).
Proof.
  intros Hb Hbs Hl Hn Hv.
  pose proof (readEscape_percentByte b (flat_map percentByte bs ++ r) Hb) as Er.
  pose proof (readContinuations_bytes bs r Hbs) as Ec.
  cbn [flat_map]. rewrite <- app_assoc.
  unfold percentByte at 1 in Er. unfold percentByte at 1.
  cbn [app] in Er. cbn [app decodeFrom].
  change (37 =? 37) with true. cbv iota. rewrite Er, Hl.
  destruct bs as [|b1 [|b2 [|b3 [|b4 bs]]]]; cbn [List.length] in *; try lia;
    rewrite Ec, Hv; reflexivity.
Qed.

Ltac utf8_goal :=
  unfold utf8CodePoint, isContinuation; cbv zeta;
  match goal with
  | |- (if ?c then _ else _) = _ => destruct c eqn:?
  end; props; try lia; f_equal; lia.

(** Decoding undoes the escapes of one scalar value. *)
Lemma decode_scalar (v : N) (r : jsstring) (f : nat) :
  isScalar v ->
  decodeFrom (S f) (flat_map percentByte (utf8Encode v) ++ r) =
  option_map (app (UTF16EncodeCodePoint v)) (decodeFrom f r).
Proof.
  intros [Hv Hs]. unfold utf8Encode.
  destruct (v <? 128) eqn:E1;
    [|destruct (v <? 2048) eqn:E2; [|destruct (v <? 65536) eqn:E3]]; props.
  - cbn [flat_map app percentByte decodeFrom].
    change (37 =? 37) with true. cbv iota.
    rewrite readEscape_cons, !hex_roundtrip by lia.
    replace (16 * (v / 16) + v mod 16) with v by lia.
    replace (leadingOnes v) with 0%nat by (unfold leadingOnes; by_cases).
    unfold UTF16EncodeCodePoint.
    replace (v <? 65536) with true by (symmetry; apply N.ltb_lt; lia).
    reflexivity.
  - apply decodeFrom_sequence;
      [lia | repeat constructor; lia | unfold leadingOnes; cbn [List.length]; by_cases
      | cbn [List.length]; lia | utf8_goal].
  - apply decodeFrom_sequence;
      [lia | repeat constructor; lia | unfold leadingOnes; cbn [List.length]; by_cases
      | cbn [List.length]; lia | utf8_goal].
  - apply decodeFrom_sequence;
      [lia | repeat constructor; lia | unfold leadingOnes; cbn [List.length]; by_cases
      | cbn [List.length]; lia | utf8_goal].
Qed.

(** An encoded string holds only safe units and decodes to the original. *)
Lemma encode_decode (n : nat) :
  forall p e : jsstring,
    (List.length p <= n)%nat -> codeUnits p -> encodeURIComponent p = Some e ->
    Forall uriSafe e /\
    forall f, (List.length e < f)%nat -> decodeFrom f e = Some p.
Proof.
  induction n as [|n IH]; intros p e Hn Hu He.
  - destruct p; [|simpl in Hn; lia]. inversion He; subst.
    split; [constructor|]. intros [|f] Hf; [lia | reflexivity].
  - destruct p as [|c p].
    { inversion He; subst. split; [constructor|]. intros [|f] Hf; [lia | reflexivity]. }
    cbn [List.length] in Hn. inversion Hu as [|? ? Hc Hp]; subst.
    cbn [encodeURIComponent] in He.
    destruct (uriUnreserved c) eqn:Eu.
    + destruct (encodeURIComponent p) as [e'|] eqn:Ep; [|discriminate].
      inversion He; subst e.
      destruct (IH p e') as [Hs Hd]; [lia | assumption | assumption |].
      destruct (uriUnreserved_safe c Eu) as [Hsafe Hn37].
      split; [constructor; assumption|].
      intros [|f] Hf; [lia|]. cbn [decodeFrom].
      replace (c =? 37) with false by (symmetry; apply N.eqb_neq; assumption).
      rewrite Hd by (cbn [List.length] in Hf; lia). reflexivity.
    + destruct (isLowSurrogate c) eqn:El; [discriminate|].
      destruct (isHighSurrogate c) eqn:Eh; cbn [negb] in He;
        unfold isLowSurrogate, isHighSurrogate in *.
      * destruct p as [|d p']; [discriminate|].
        destruct ((56320 <=? d) && (d <=? 57343)) eqn:Ed; [|discriminate].
        destruct (encodeURIComponent p') as [e'|] eqn:Ep; [|discriminate].
        inversion He; subst e. inversion Hp; subst.
        cbn [List.length] in Hn.
        destruct (IH p' e') as [Hs Hd]; [lia | assumption | assumption |].
        clear El. props.
        set (v := (c - 55296) * 1024 + (d - 56320) + 65536).
        assert (Hv : isScalar v) by (unfold isScalar, v; lia).
        split.
        { apply Forall_app. split; [|exact Hs].
          apply percentBytes_safe, utf8Encode_bytes. apply Hv. }
        intros [|f] Hf; [lia|]. rewrite decode_scalar by exact Hv.
        rewrite Hd.
        -- unfold UTF16EncodeCodePoint.
           replace (v <? 65536) with false
             by (symmetry; apply N.ltb_ge; unfold v; lia).
           cbn [option_map app]. f_equal. unfold v. f_equal; [lia|]. f_equal. lia.
        -- rewrite length_app, percentBytes_length in Hf.
           pose proof (utf8Encode_length v). lia.
      * destruct (encodeURIComponent p) as [e'|] eqn:Ep; [|discriminate].
        inversion He; subst e.
        destruct (IH p e') as [Hs Hd]; [lia | assumption | assumption |].
        assert (Hv : isScalar c) by (unfold isScalar; props; lia).
        split.
        { apply Forall_app. split; [|exact Hs].
          apply percentBytes_safe, utf8Encode_bytes. apply Hv. }
        intros [|f] Hf; [lia|]. rewrite decode_scalar by exact Hv.
        rewrite Hd.
        -- unfold UTF16EncodeCodePoint.
           replace (c <? 65536) with true by (symmetry; apply N.ltb_lt; lia).
           reflexivity.
        -- rewrite length_app, percentBytes_length in Hf.
           pose proof (utf8Encode_length c). lia.
Qed.

End EncodeFacts.

Section CleanKeys.

Local Open Scope N_scope.

Lemma trim_safe (e : jsstring) : Forall uriSafe e -> trim e = e.
Proof.
  intro H.
  assert (Hw : Forall (fun c => isWhiteSpace c = false) e).
  { eapply Forall_impl; [|exact H]. intros c [Hc _].
    apply isWhiteSpace_printable. lia. }
  destruct e as [|c e]; [reflexivity|].
  unfold trim, trimStart. cbn [dropWhile].
  rewrite (Forall_inv Hw).
  apply (trimEnd_app_stop [] (c :: e)); [discriminate | exact Hw].
Qed.

Lemma startsWithCI_In (p1 : jsstring) (x : N) (p2 e : jsstring) :
  startsWithCI (p1 ++ x :: p2) e = true ->
  exists c, In c e /\ lowerUnit x = lowerUnit c.
Proof.
  revert e. induction p1 as [|y p1 IH]; intros [|c e] H; try discriminate.
  - cbn [app startsWithCI] in H. apply andb_true_iff in H as [H _].
    apply N.eqb_eq in H. exists c. split; [now left | exact H].
  - cbn [app startsWithCI] in H. apply andb_true_iff in H as [_ H].
    destruct (IH e H) as (d & Hd & Hl). exists d. split; [now right | exact Hl].
Qed.

Lemma prefix_safe (e : jsstring) :
  Forall uriSafe e -> startsWithCI (js "file://") e = false.
Proof.
  intro H. destruct (startsWithCI (js "file://") e) eqn:E; [|reflexivity].
  change (js "file://") with (js "file" ++ 58 :: js "//") in E.
  apply startsWithCI_In in E as (c & Hin & Hl).
  rewrite Forall_forall in H. destruct (H c Hin) as [_ Hc].
  exfalso. apply Hc. change (lowerUnit 58) with 58 in Hl.
  unfold lowerUnit in Hl. destruct ((65 <=? c) && (c <=? 90)) eqn:El; props; lia.
Qed.

(** On a string with nothing to trim, strip or decode, [norm] only folds
    case and slashes. *)
Lemma norm_plain (p : jsstring) :
  ~ In 37 p -> startsWithCI (js "file://") p = false -> trim p = p ->
  norm (Some p) = toLowerCase (replaceBackslashes p).
Proof.
  intros Hp Hf Ht. rewrite norm_eq, Ht. unfold stripFilePrefix. rewrite Hf.
  unfold decodeOrKeep. now rewrite decodeURIComponent_plain.
Qed.

Lemma norm_encoded (p e : jsstring) :
  codeUnits p -> encodeURIComponent p = Some e ->
  norm (Some e) = toLowerCase (replaceBackslashes p).
Proof.
  intros Hu He.
  destruct (encode_decode (List.length p) p e (le_n _) Hu He) as [Hs Hd].
  rewrite norm_eq, (trim_safe e Hs). unfold stripFilePrefix.
  rewrite (prefix_safe e Hs). unfold decodeOrKeep, decodeURIComponent.
  rewrite Hd by lia. reflexivity.
Qed.

Lemma stripExt_prefix (n : jsstring) : exists r, n = stripExt n ++ r.
Proof.
  induction n as [|c n [r IH]]; [now exists []|].
  cbn [stripExt]. destruct ((c =? 46) && isExtension n).
  - now exists (c :: n).
  - exists r. cbn [app]. now rewrite <- IH.
Qed.

Lemma map_prefix_fixed (g : N -> N) (k r : jsstring) :
  map g (k ++ r) = k ++ r -> map g k = k.
Proof.
  induction k as [|c k IH]; [reflexivity|]. cbn [app map]. intro H.
  injection H as Hc Hr. f_equal; [exact Hc | exact (IH Hr)].
Qed.

(** A key without extension and with nothing left to remove is stable. *)
Lemma matchKey_stable (x : jsstring) :
  let k := matchKey (Some x) in
  ~ In 37 k -> startsWithCI (js "file://") k = false -> trim k = k ->
  stripExt k = k -> matchKey (Some k) = k.
Proof.
  intros k Hp Hf Ht He. unfold matchKey at 1.
  rewrite (norm_plain k Hp Hf Ht).
  assert (Hk : toLowerCase (replaceBackslashes k) = k).
  { destruct (stripExt_prefix (norm (Some x))) as [r Hr]. fold (matchKey (Some x)) in Hr.
    fold k in Hr. pose proof (fold_idem (decodeOrKeep (stripFilePrefix (trim x)))) as Hi.
    rewrite <- norm_eq, Hr in Hi.
    unfold toLowerCase, replaceBackslashes in *. rewrite map_map in *.
    exact (map_prefix_fixed _ k r Hi). }
  rewrite Hk. exact He.
Qed.

End CleanKeys.




(* ------------------------------------------------------------------ *)
(** ** The used set of a run and the spellings of a path *)
(* ------------------------------------------------------------------ *)

Lemma isUsed_same_key (used : KeySet) (id id' : option jsstring) :
  matchKey id' = matchKey id -> isUsed (markUsed used id) id' = true.
Proof.
  intro E. unfold isUsed, markUsed. rewrite E. apply Set_has_add. now right.
Qed.

Lemma matchKey_of_norm (a b : jsstring) :
  norm (Some a) = norm (Some b) -> matchKey (Some a) = matchKey (Some b).
Proof. intro H. unfold matchKey. now rewrite H. Qed.



(* ------------------------------------------------------------------ *)
(** * Further properties of the code *)
(* ------------------------------------------------------------------ *)

(* ------------------------------------------------------------------ *)
(** ** Camelot distance, key sets and id resolution *)
(* ------------------------------------------------------------------ *)

Section CamelotMetric.

Local Open Scope Z_scope.

Lemma indexOf_inj (l : list jsstring) (a b : jsstring) :
  In a l -> In b l -> indexOf l a = indexOf l b -> a = b.
Proof.
  induction l as [|x l IH]; intros Ha Hb E; [destruct Ha|].
  cbn [indexOf] in E.
  destruct (jseqb x a) eqn:Ea, (jseqb x b) eqn:Eb.
  - apply jseqb_eq in Ea, Eb. congruence.
  - assert (Hb' : In b l).
    { destruct Hb as [->|Hb]; [rewrite jseqb_refl in Eb; discriminate | exact Hb]. }
    pose proof (indexOf_range l b Hb'). destruct (indexOf l b <? 0) eqn:F; lia.
  - assert (Ha' : In a l).
    { destruct Ha as [->|Ha]; [rewrite jseqb_refl in Ea; discriminate | exact Ha]. }
    pose proof (indexOf_range l a Ha'). destruct (indexOf l a <? 0) eqn:F; lia.
  - assert (Ha' : In a l).
    { destruct Ha as [->|Ha]; [rewrite jseqb_refl in Ea; discriminate | exact Ha]. }
    assert (Hb' : In b l).
    { destruct Hb as [->|Hb]; [rewrite jseqb_refl in Eb; discriminate | exact Hb]. }
    pose proof (indexOf_range l a Ha'). pose proof (indexOf_range l b Hb').
    destruct (indexOf l a <? 0) eqn:Fa; [lia|].
    destruct (indexOf l b <? 0) eqn:Fb; [lia|].
    apply IH; [assumption | assumption | lia].
Qed.

Lemma validKey_index (k : jsstring) :
  validKey k -> 0 <= indexOf CAMELOT_ORDER k < 24.
Proof. intro H. exact (indexOf_range CAMELOT_ORDER k H). Qed.

End CamelotMetric.

(** X1: on the keys of the wheel [camelotDistance] is a metric: the
    distance from [a] to [c] is at most the distance over any third key
    [b], and two keys are at distance 0 only when they are the same key. *)
Theorem camelotDistance_triangle_and_separation :
  (forall a b c : jsstring,
      validKey a -> validKey b -> validKey c ->
      (camelotDistance (Some a) (Some c) <=
       camelotDistance (Some a) (Some b) + camelotDistance (Some b) (Some c))%Z) /\
  (forall a b : jsstring,
      validKey a -> validKey b ->
      (camelotDistance (Some a) (Some b) = 0%Z <-> a = b)).
Proof.
  split.
  - intros a b c Ha Hb Hc.
    rewrite !camelotDistance_valid by assumption.
    pose proof (validKey_index a Ha). pose proof (validKey_index b Hb).
    pose proof (validKey_index c Hc). lia.
  - intros a b Ha Hb. rewrite camelotDistance_valid by assumption.
    pose proof (validKey_index a Ha). pose proof (validKey_index b Hb).
    split.
    + intro E. apply (indexOf_inj CAMELOT_ORDER); [exact Ha | exact Hb | lia].
    + intros ->. lia.
Qed.

Lemma camelotDistance_triangle_and_separation_witness :
  (camelotDistance (Some (js "1A")) (Some (js "12B")) <=
   camelotDistance (Some (js "1A")) (Some (js "6B")) +
   camelotDistance (Some (js "6B")) (Some (js "12B")))%Z /\
  js "8A" = js "8A".
Proof.
  destruct camelotDistance_triangle_and_separation as [Ht Hs].
  split.
  - apply Ht; unfold validKey; vm_compute; tauto.
  - apply (Hs (js "8A") (js "8A")); [unfold validKey; vm_compute; tauto ..|].
    vm_compute. reflexivity.
Defined.

Section KeySetLookup.

Lemma toSet_from (ids : list (option jsstring)) :
  forall acc : KeySet,
    let s := fold_left (fun acc x => Set_add acc (matchKey x)) ids acc in
    (NoDup acc -> NoDup s) /\
    (forall k, Set_has s k = true <->
               Set_has acc k = true \/ exists id, In id ids /\ matchKey id = k).
Proof.
  induction ids as [|x ids IH]; intros acc s; subst s; cbn [fold_left].
  - split; [auto|]. intro k. split; [auto|]. intros [H|[id [[] _]]]. exact H.
  - destruct (IH (Set_add acc (matchKey x))) as [H1 H2]. split.
    + intro Hn. apply H1. now apply Set_add_NoDup.
    + intro k. rewrite H2, Set_has_add. split.
      * intros [[H|H]|[id [Hin E]]].
        -- now left.
        -- right. exists x. split; [now left | now symmetry].
        -- right. exists id. split; [now right | exact E].
      * intros [H|[id [[->|Hin] E]]].
        -- left. now left.
        -- left. right. now symmetry.
        -- right. exists id. split; assumption.
Qed.

Lemma findLast_None {A : Type} (p : A -> bool) (l : list A) :
  findLast p l = None <-> forall x, In x l -> p x = false.
Proof.
  unfold findLast. split.
  - intros H x Hx. apply in_rev in Hx. exact (find_none _ _ H x Hx).
  - intro H. destruct (find p (rev l)) as [x|] eqn:E; [|reflexivity].
    apply find_some in E as [Hx Hp]. apply in_rev in Hx.
    rewrite (H x Hx) in Hp. discriminate.
Qed.

Lemma findLast_last {A : Type} (p : A -> bool) (l : list A) (x : A) :
  p x = true -> findLast p (l ++ [x]) = Some x.
Proof.
  intro H. unfold findLast. rewrite rev_app_distr. cbn. now rewrite H.
Qed.

End KeySetLookup.

(** X2: [toSet] holds each normalised key once, and a key is in the set
    exactly when it is the [matchKey] of one of the ids given; so
    membership of an id can be asked under any spelling with the same
    key. *)
Theorem toSet_holds_exactly_the_keys :
  forall ids : list (option jsstring),
    NoDup (toSet ids) /\
    forall k : jsstring,
      Set_has (toSet ids) k = true <-> exists id, In id ids /\ matchKey id = k.
Proof.
  intro ids. destruct (toSet_from ids []) as [H1 H2]. split.
  - apply H1. constructor.
  - intro k. unfold toSet. rewrite H2. split.
    + intros [H|H]; [discriminate | exact H].
    + intro H. now right.
Qed.

(** X3: [resolveByAnyId] finds nothing exactly when no track of the
    working set has the normalised key of the id; what it finds is a track
    of the working set with that key; a track whose id is the given id
    letter for letter is preferred to one that only shares the key; and of
    two tracks with the same id the later one is found. *)
Theorem resolveByAnyId_lookup :
  forall (workingSet : list Track) (id : jsstring),
    (resolveByAnyId workingSet id = None <->
     forall t, In t workingSet -> matchKey (getId t) <> matchKey (Some id)) /\
    (forall t, resolveByAnyId workingSet id = Some t ->
               In t workingSet /\ matchKey (getId t) = matchKey (Some id)) /\
    ((exists t, In t workingSet /\ getId t = Some id) ->
     exists t, resolveByAnyId workingSet id = Some t /\ getId t = Some id) /\
    (forall t, getId t = Some id ->
               resolveByAnyId (workingSet ++ [t]) id = Some t).
Proof.
  intros ws id. split; [|split; [|split]].
  - unfold resolveByAnyId. split.
    + destruct (findLast (fun t => optEqb (getId t) (Some id)) ws); [discriminate|].
      intros H t Ht E. rewrite findLast_None in H.
      specialize (H t Ht). cbv beta in H. rewrite E, jseqb_refl in H. discriminate.
    + intro H.
      assert (H1 : findLast (fun t => optEqb (getId t) (Some id)) ws = None).
      { apply findLast_None. intros t Ht.
        destruct (optEqb (getId t) (Some id)) eqn:E; [|reflexivity].
        apply optEqb_eq in E. exfalso. apply (H t Ht). now rewrite E. }
      rewrite H1. apply findLast_None. intros t Ht. apply jseqb_neq. now apply H.
  - intros t H. now apply resolveByAnyId_Some.
  - intros [t [Ht E]]. unfold resolveByAnyId.
    destruct (findLast (fun t => optEqb (getId t) (Some id)) ws) as [u|] eqn:F.
    + exists u. split; [reflexivity|]. apply findLast_Some in F as [_ F].
      now apply optEqb_eq in F.
    + rewrite findLast_None in F. specialize (F t Ht). cbv beta in F.
      rewrite E in F. assert (optEqb (Some id) (Some id) = true) by now apply optEqb_eq.
      congruence.
  - intros t E. unfold resolveByAnyId. rewrite findLast_last; [reflexivity|].
    now apply optEqb_eq.
Qed.

Lemma resolveByAnyId_lookup_witness :
  resolveByAnyId Examples.sixTangos (js "zz") = None /\
  (exists t, resolveByAnyId Examples.sixTangos (js "t3") = Some t /\
             getId t = Some (js "t3")).
Proof.
  destruct (resolveByAnyId_lookup Examples.sixTangos (js "zz")) as [Hn _].
  destruct (resolveByAnyId_lookup Examples.sixTangos (js "t3")) as [_ [_ [He _]]].
  split.
  - apply Hn. intros t Ht. vm_compute in Ht.
    repeat (destruct Ht as [<-|Ht]; [vm_compute; discriminate|]). destruct Ht.
  - apply He. eexists. split; [right; right; left; reflexivity | reflexivity].
Defined.
(* ------------------------------------------------------------------ *)
(** ** Duration parsers, orchestra names, profiles and the ladder *)
(* ------------------------------------------------------------------ *)

(** X4: the three duration parsers read every value alike, except that on
    a value none of them can read (a malformed string, a non-finite number)
    [toSeconds] of generate.js answers 165 where [durationSecSafe] and
    [toSeconds] of dj-lib.js answer 0. *)
Theorem duration_parsers_differ_only_in_fallback :
  forall v : jsval,
    durationSecSafe_parse v = djlib_toSeconds v /\
    (toSeconds v = djlib_toSeconds v \/
     (toSeconds v = 165%Q /\ djlib_toSeconds v = 0%Q)).
Proof.
  intro v. split; [destruct v; reflexivity|].
  destruct v as [|q| |s]; cbn [toSeconds djlib_toSeconds].
  - now left.
  - now left.
  - now right.
  - unfold secondsOfString. destruct (plainDecimal (trim s)); [now left|].
    destruct (allFinite (map StringToNumber (splitOn 58 (trim s))))
      as [[|a [|b [|c [|d l]]]]|]; first [now left | now right].
Qed.

Section TrimFacts.

Lemma dropWhile_idem {A : Type} (p : A -> bool) (l : list A) :
  dropWhile p (dropWhile p l) = dropWhile p l.
Proof.
  induction l as [|x l IH]; [reflexivity|]. cbn [dropWhile].
  destruct (p x) eqn:E; [exact IH|]. cbn [dropWhile]. now rewrite E.
Qed.

Lemma dropWhile_suffix {A : Type} (p : A -> bool) (l : list A) :
  exists a, l = a ++ dropWhile p l.
Proof.
  induction l as [|x l [a IH]]; [now exists []|]. cbn [dropWhile].
  destruct (p x); [|now exists []].
  exists (x :: a). cbn [app]. now rewrite <- IH.
Qed.

Lemma dropWhile_length {A : Type} (p : A -> bool) (l : list A) :
  (List.length (dropWhile p l) <= List.length l)%nat.
Proof.
  destruct (dropWhile_suffix p l) as [a E]. rewrite E at 2.
  rewrite length_app. lia.
Qed.

Lemma headed_cons (c : N) (u : jsstring) : headed (c :: u) -> isWhiteSpace c = false.
Proof.
  unfold headed, trimStart. cbn [dropWhile].
  destruct (isWhiteSpace c); [|reflexivity]. intro H.
  pose proof (dropWhile_length isWhiteSpace u) as L. rewrite H in L.
  cbn [List.length] in L. lia.
Qed.

Lemma headed_trimStart (s : jsstring) : headed (trimStart s).
Proof. apply dropWhile_idem. Qed.

Lemma headed_prefix (t c r : jsstring) : headed t -> t = c ++ r -> headed c.
Proof.
  intros H E. destruct c as [|x c]; [reflexivity|]. subst t.
  apply headed_cons in H. unfold headed, trimStart. cbn [dropWhile]. now rewrite H.
Qed.

Lemma trimEnd_cons (c : N) (u : jsstring) :
  isWhiteSpace c = false -> trimEnd (c :: u) = c :: trimEnd u.
Proof.
  intro H. unfold trimEnd. cbn [rev].
  rewrite (dropWhile_app_stop (rev u) [] c H), rev_app_distr. reflexivity.
Qed.

Lemma trimEnd_prefix (u : jsstring) : exists r, u = trimEnd u ++ r.
Proof.
  unfold trimEnd. destruct (dropWhile_suffix isWhiteSpace (rev u)) as [a E].
  exists (rev a). rewrite <- rev_app_distr, <- E. symmetry. apply rev_involutive.
Qed.

Lemma trimEnd_idem (u : jsstring) : trimEnd (trimEnd u) = trimEnd u.
Proof. unfold trimEnd. now rewrite rev_involutive, dropWhile_idem. Qed.

Lemma headed_trimEnd (u : jsstring) : headed u -> headed (trimEnd u).
Proof.
  intro H. destruct u as [|c u]; [reflexivity|].
  pose proof (headed_cons c u H) as Hc. rewrite (trimEnd_cons c u Hc).
  unfold headed, trimStart. cbn [dropWhile]. now rewrite Hc.
Qed.

Lemma trim_headed (u : jsstring) : headed u -> trim u = trimEnd u.
Proof. intro H. unfold trim. now rewrite H. Qed.

Lemma headed_trim (s : jsstring) : headed (trim s).
Proof. apply headed_trimEnd, headed_trimStart. Qed.

Lemma trim_idem (s : jsstring) : trim (trim s) = trim s.
Proof.
  rewrite (trim_headed (trim s) (headed_trim s)). unfold trim. apply trimEnd_idem.
Qed.

Lemma cutAt_prefix (m : jsstring -> bool) (s : jsstring) :
  exists r, s = cutAt m s ++ r.
Proof.
  induction s as [|c s [r IH]].
  - exists []. cbn. now destruct (m []).
  - cbn [cutAt]. destruct (m (c :: s)).
    + now exists (c :: s).
    + exists r. cbn [app]. now rewrite <- IH.
Qed.

End TrimFacts.

(** X5: [normalizeOrchestra] only ever cuts a tail off the trimmed name:
    its result is a prefix of the trimmed name, has no outer white space,
    and is empty only when the name is blank or missing. *)
Theorem normalizeOrchestra_keeps_a_prefix :
  forall orch : option jsstring,
    (exists rest, trim (optStr orch) = normalizeOrchestra orch ++ rest) /\
    trim (normalizeOrchestra orch) = normalizeOrchestra orch /\
    (normalizeOrchestra orch = [] <-> trim (optStr orch) = []).
Proof.
  intros [o|]; [|repeat split; try reflexivity; now exists []].
  destruct o as [|x o]; [repeat split; try reflexivity; now exists []|].
  cbn [optStr]. unfold normalizeOrchestra.
  set (t := trim (x :: o)).
  set (c := cutAt matchYSu (cutAt matchYSuOrquesta (cutAt matchOTcon t))).
  assert (Hc : exists r, t = c ++ r).
  { destruct (cutAt_prefix matchOTcon t) as [r1 E1].
    destruct (cutAt_prefix matchYSuOrquesta (cutAt matchOTcon t)) as [r2 E2].
    destruct (cutAt_prefix matchYSu (cutAt matchYSuOrquesta (cutAt matchOTcon t)))
      as [r3 E3].
    exists (r3 ++ r2 ++ r1). fold c in E3. rewrite app_assoc, <- E3.
    rewrite app_assoc, <- E2. exact E1. }
  destruct Hc as [r Hc].
  assert (Hh : headed c) by (apply (headed_prefix t c r); [apply headed_trim | exact Hc]).
  assert (Hn : exists r', t = trim c ++ r').
  { rewrite (trim_headed c Hh). destruct (trimEnd_prefix c) as [r' E].
    exists (r' ++ r). rewrite app_assoc, <- E. exact Hc. }
  destruct (trim c) as [|y n] eqn:En.
  - split; [exists []; now rewrite app_nil_r|]. split; [apply trim_idem | tauto].
  - split; [exact Hn|]. split; [rewrite <- En; apply trim_idem|].
    split; [discriminate|]. intro E. destruct Hn as [r' Hn]. rewrite E in Hn.
    discriminate.
Qed.

Section AlternativesFacts.

Lemma insertBy_perm {A : Type} (cmp : A -> A -> Z) (x : A) (l : list A) :
  Permutation (insertBy cmp x l) (x :: l).
Proof.
  induction l as [|y l IH]; [apply Permutation_refl|]. cbn [insertBy].
  destruct (0 <? cmp y x)%Z; [apply Permutation_refl|].
  eapply Permutation_trans; [apply perm_skip, IH | apply perm_swap].
Qed.

Lemma sortBy_perm {A : Type} (cmp : A -> A -> Z) (l : list A) :
  Permutation (sortBy cmp l) l.
Proof.
  unfold sortBy.
  assert (H : forall acc, Permutation (fold_left (fun acc x => insertBy cmp x acc) l acc)
                                      (acc ++ l)).
  { induction l as [|x l IH]; intro acc; cbn [fold_left].
    - rewrite app_nil_r. apply Permutation_refl.
    - eapply Permutation_trans; [apply IH|].
      eapply Permutation_trans;
        [apply Permutation_app_tail, insertBy_perm|].
      cbn [app]. apply Permutation_middle. }
  exact (H []).
Qed.

Lemma NoDup_firstn {A : Type} (n : nat) (l : list A) : NoDup l -> NoDup (firstn n l).
Proof.
  intro H. rewrite <- (firstn_skipn n l) in H. exact (NoDup_app_remove_r _ _ H).
Qed.

Lemma In_truthyIds (ids : list (option jsstring)) (x : jsstring) :
  In x (truthyIds ids) <-> In (Some x) ids /\ x <> [].
Proof.
  unfold truthyIds. rewrite in_flat_map. split.
  - intros [i [Hin H]]. destruct i as [[|c r]|]; cbn in H; try contradiction.
    destruct H as [<-|[]]. split; [exact Hin | discriminate].
  - intros [Hin Hx]. exists (Some x). split; [exact Hin|].
    destruct x; [contradiction | now left].
Qed.

End AlternativesFacts.

(** X6: [getAlternativeOrchestras] returns at most eight names, each the
    orchestra of a profile and none of them an excluded (non-empty) name;
    the names are
    pairwise distinct when the profiles' are, and when at most eight
    profiles are left after the exclusion every one of them is returned. *)
Theorem getAlternativeOrchestras_contract :
  forall (profiles : list Profile) (exclude : list (option jsstring)),
    let alts := getAlternativeOrchestras profiles exclude in
    let left := filter (fun p => negb (includesStr (truthyIds exclude) (p_orchestra p)))
                       profiles in
    (List.length alts <= 8)%nat /\
    (forall o, In o alts ->
       (exists p, In p profiles /\ p_orchestra p = o) /\
       (o <> [] -> ~ In (Some o) exclude)) /\
    (NoDup (map p_orchestra profiles) -> NoDup alts) /\
    ((List.length left <= 8)%nat ->
     forall p, In p left -> In (p_orchestra p) alts).
Proof.
  intros profiles exclude alts left. subst alts. unfold getAlternativeOrchestras.
  fold left.
  pose proof (sortBy_perm compareAlternatives left) as HP.
  split; [|split; [|split]].
  - rewrite length_map, length_firstn. lia.
  - intros o Ho. apply in_map_iff in Ho as [p [<- Hp]].
    apply In_firstn in Hp. apply (Permutation_in _ HP) in Hp.
    apply filter_In in Hp as [Hp Hx]. split; [now exists p|].
    intros Hne Hin. apply negb_true_iff in Hx.
    assert (includesStr (truthyIds exclude) (p_orchestra p) = true); [|congruence].
    apply includesStr_In, In_truthyIds. split; assumption.
  - intro Hn. change (NoDup (map p_orchestra
                               (firstn 8 (sortBy compareAlternatives left)))).
    rewrite <- firstn_map. apply NoDup_firstn.
    apply (Permutation_NoDup (Permutation_map p_orchestra (Permutation_sym HP))).
    unfold left. now apply NoDup_map_filter.
  - intros Hl p Hp. apply in_map.
    rewrite firstn_all2; [apply (Permutation_in _ (Permutation_sym HP)), Hp|].
    rewrite (Permutation_length HP). exact Hl.
Qed.

Lemma duration_parsers_differ_only_in_fallback_witness :
  toSeconds (VStr (js "n/a")) = 165%Q /\ djlib_toSeconds (VStr (js "n/a")) = 0%Q.
Proof.
  destruct (duration_parsers_differ_only_in_fallback (VStr (js "n/a"))) as [_ [H|H]].
  - vm_compute in H. discriminate H.
  - exact H.
Defined.

Lemma normalizeOrchestra_keeps_a_prefix_witness :
  trim (normalizeOrchestra (Some (js "  Carlos Di Sarli y su Orquesta Tipica "))) =
  js "Carlos Di Sarli".
Proof.
  destruct (normalizeOrchestra_keeps_a_prefix
              (Some (js "  Carlos Di Sarli y su Orquesta Tipica "))) as [_ [H _]].
  rewrite H. vm_compute. reflexivity.
Defined.

Lemma getAlternativeOrchestras_contract_witness :
  In (js "Canaro")
     (getAlternativeOrchestras
        (buildOrchestraProfiles (Examples.sixTangos ++ Examples.fourValses))
        [Some (js "Di Sarli")]).
Proof.
  destruct (getAlternativeOrchestras_contract
              (buildOrchestraProfiles (Examples.sixTangos ++ Examples.fourValses))
              [Some (js "Di Sarli")]) as (_ & _ & _ & Hall).
  refine (Hall _ {| p_orchestra := js "Canaro";
                    p_sampleIds := map js ["v1"; "v2"; "v3"; "v4"]%string |} _).
  - vm_compute. lia.
  - vm_compute. left. reflexivity.
Defined.

Section ProfileFacts.

Lemma groupByOrchestra_keys (t : Track) (m : list (jsstring * list Track)) :
  (In (orchestraOf t) (map fst m) /\
   map fst (groupByOrchestra t m) = map fst m) \/
  (~ In (orchestraOf t) (map fst m) /\
   map fst (groupByOrchestra t m) = map fst m ++ [orchestraOf t]).
Proof.
  induction m as [|[k ts] m IH]; [right; split; [intros [] | reflexivity]|].
  cbn [groupByOrchestra]. destruct (jseqb k (orchestraOf t)) eqn:E.
  - left. apply jseqb_eq in E. split; [now left | reflexivity].
  - apply jseqb_neq in E. destruct IH as [[H1 H2]|[H1 H2]].
    + left. split; [now right|]. cbn [map fst]. now rewrite H2.
    + right. split; [intros [H|H]; [now apply E | now apply H1]|].
      cbn [map fst app]. now rewrite H2.
Qed.

Lemma groupByOrchestra_member (t : Track) (m : list (jsstring * list Track))
    (k : jsstring) (ts : list Track) :
  In (k, ts) (groupByOrchestra t m) ->
  In (k, ts) m \/
  (k = orchestraOf t /\
   exists old, ts = old ++ [t] /\ (old = [] \/ In (k, old) m)).
Proof.
  induction m as [|[k' ts'] m IH]; cbn [groupByOrchestra].
  - intros [H|[]]. inversion H; subst. right. split; [reflexivity|].
    exists []. split; [reflexivity | now left].
  - destruct (jseqb k' (orchestraOf t)) eqn:E.
    + apply jseqb_eq in E. intros [H|H]; [|left; now right].
      inversion H; subst. right. split; [reflexivity|].
      exists ts'. split; [reflexivity | right; now left].
    + intros [H|H]; [left; now left|].
      destruct (IH H) as [H1|[H1 [old [H2 H3]]]]; [left; now right|].
      right. split; [exact H1|]. exists old. split; [exact H2|].
      destruct H3 as [H3|H3]; [now left | right; now right].
Qed.

Lemma grouped_step (t : Track) (m : list (jsstring * list Track)) (seen : list Track) :
  grouped m seen -> grouped (groupByOrchestra t m) (seen ++ [t]).
Proof.
  intros [G1 [G2 G3]].
  assert (Hk : forall k, In k (map fst m) -> In k (map fst (groupByOrchestra t m))).
  { intros k Hk. destruct (groupByOrchestra_keys t m) as [[_ E]|[_ E]]; rewrite E;
      [exact Hk | apply in_or_app; now left]. }
  split; [|split].
  - destruct (groupByOrchestra_keys t m) as [[_ E]|[Hn E]]; rewrite E; [exact G1|].
    apply (Permutation_NoDup (Permutation_cons_append _ _)).
    constructor; assumption.
  - intros k ts H. destruct (groupByOrchestra_member t m k ts H)
      as [H1|[H1 [old [H2 H3]]]].
    + destruct (G2 k ts H1) as [Hne Hts]. split; [exact Hne|].
      intros t' Ht'. destruct (Hts t' Ht') as [Ho Hs]. split; [exact Ho|].
      apply in_or_app. now left.
    + subst ts. split; [destruct old; discriminate|].
      intros t' Ht'. apply in_app_or in Ht' as [Ht'|[<-|[]]].
      * destruct H3 as [->|H3]; [destruct Ht'|].
        destruct (G2 k old H3) as [_ Hts]. destruct (Hts t' Ht') as [Ho Hs].
        split; [exact Ho | apply in_or_app; now left].
      * split; [now symmetry | apply in_or_app; right; now left].
  - intros t' Ht'. apply in_app_or in Ht' as [Ht'|[<-|[]]].
    + apply Hk, G3, Ht'.
    + destruct (groupByOrchestra_keys t m) as [[Hin E]|[_ E]]; rewrite E;
        [exact Hin | apply in_or_app; right; now left].
Qed.

Lemma grouped_fold (tracks : list Track) :
  forall m seen,
    grouped m seen ->
    grouped (fold_left (fun m t => groupByOrchestra t m) tracks m) (seen ++ tracks).
Proof.
  induction tracks as [|t tracks IH]; intros m seen H; cbn [fold_left].
  - now rewrite app_nil_r.
  - replace (seen ++ t :: tracks) with ((seen ++ [t]) ++ tracks)
      by (rewrite <- app_assoc; reflexivity).
    apply IH. now apply grouped_step.
Qed.

End ProfileFacts.

(** X7: [buildOrchestraProfiles] makes one profile per orchestra: the
    orchestra names of the profiles are pairwise distinct and are exactly
    the (trimmed) artists of the tracks; a profile lists at most 30 sample
    ids, each the id of a track of that orchestra. *)
Theorem buildOrchestraProfiles_one_per_orchestra :
  forall tracks : list Track,
    let ps := buildOrchestraProfiles tracks in
    NoDup (map p_orchestra ps) /\
    (forall o, In o (map p_orchestra ps) <->
               exists t, In t tracks /\ orchestraOf t = o) /\
    (forall p, In p ps ->
       (List.length (p_sampleIds p) <= 30)%nat /\
       forall id, In id (p_sampleIds p) ->
         exists t, In t tracks /\ orchestraOf t = p_orchestra p /\ getId t = Some id).
Proof.
  intros tracks ps. subst ps. unfold buildOrchestraProfiles.
  set (groups := fold_left (fun m t => groupByOrchestra t m) tracks []).
  assert (G : grouped groups tracks).
  { apply (grouped_fold tracks [] []). split; [constructor|].
    split; [intros k ts []|intros t []]. }
  destruct G as [G1 [G2 G3]].
  assert (E : map p_orchestra
                (map (fun kv => {| p_orchestra := fst kv;
                                   p_sampleIds := firstn 30 (truthyIds (map getId (snd kv))) |})
                     groups) = map fst groups).
  { rewrite map_map. apply map_ext. reflexivity. }
  rewrite E. split; [exact G1|]. split.
  - intro o. split.
    + intro Ho. apply in_map_iff in Ho as [[k ts] [<- Hin]].
      destruct (G2 k ts Hin) as [Hne Hts].
      destruct ts as [|t ts]; [contradiction|].
      exists t. destruct (Hts t (or_introl eq_refl)) as [Ho Hs]. split; assumption.
    + intros [t [Ht <-]]. now apply G3.
  - intros p Hp. apply in_map_iff in Hp as [[k ts] [<- Hin]]. cbn [p_sampleIds p_orchestra fst snd].
    split; [rewrite length_firstn; lia|].
    intros id Hid. apply In_firstn in Hid. apply In_truthyIds in Hid as [Hid _].
    apply in_map_iff in Hid as [t [Eid Ht]].
    destruct (G2 k ts Hin) as [_ Hts]. destruct (Hts t Ht) as [Ho Hs].
    exists t. repeat split; assumption.
Qed.

Lemma buildOrchestraProfiles_one_per_orchestra_witness :
  In (js "Canaro")
     (map p_orchestra (buildOrchestraProfiles (Examples.sixTangos ++ Examples.fourValses))).
Proof.
  destruct (buildOrchestraProfiles_one_per_orchestra
              (Examples.sixTangos ++ Examples.fourValses)) as [_ [H _]].
  apply H. exists (Examples.mkTrack "v1" "Canaro" "Vals" 150).
  split; [vm_compute; tauto | reflexivity].
Defined.

Section LadderBest.

Local Open Scope Z_scope.

Variable oracle : TandaOracle.
Variables (style : jsstring) (size : Z) (usedIds : KeySet).
Variables (candidates : list Candidate) (allStyleCandidates : option (list Candidate)).

Lemma keepBetter_max (last new : option PlanResult) :
  countReal (keepBetter last new) = Z.max (countReal last) (countReal new).
Proof.
  unfold keepBetter. destruct new as [r|].
  - destruct (countReal last <? countReal (Some r)) eqn:E.
    + apply Z.ltb_lt in E. lia.
    + apply Z.ltb_ge in E. lia.
  - pose proof (countReal_nonneg last). cbn [countReal]. lia.
Qed.

Lemma keepBetter_source (last new : option PlanResult) :
  keepBetter last new = last \/ keepBetter last new = new.
Proof.
  unfold keepBetter. destruct new as [r|]; [|now left].
  destruct (countReal last <? countReal (Some r)); [now right | now left].
Qed.

Lemma retryLoop_best (alts : list jsstring) :
  forall i n last,
    let res := retryLoop oracle style size usedIds candidates allStyleCandidates
                 alts i n last in
    (List.length (snd res) <= List.length alts)%nat /\
    countReal last <= countReal (fst res) /\
    (forall a, In a (snd res) -> countReal (a_result a) <= countReal (fst res)) /\
    (fst res = last \/ exists a, In a (snd res) /\ a_result a = fst res).
Proof.
  induction alts as [|alt rest IH]; intros i n last res; subst res.
  - cbn [retryLoop fst snd List.length].
    split; [lia|]. split; [lia|]. split; [intros a []|now left].
  - cbn [retryLoop].
    remember (attempt oracle style size usedIds candidates allStyleCandidates
                n (Alternative i alt) (Some alt)) as a eqn:Ea.
    clear Ea.
    remember (keepBetter last (a_result a)) as last' eqn:El.
    pose proof (keepBetter_max last (a_result a)) as Hm. rewrite <- El in Hm.
    pose proof (keepBetter_source last (a_result a)) as Hs. rewrite <- El in Hs.
    specialize (IH (S i) (S n) last').
    destruct (retryLoop oracle style size usedIds candidates allStyleCandidates
                rest (S i) (S n) last') as [res log] eqn:ER.
    cbn [fst snd] in IH. destruct IH as [I1 [I2 [I3 I4]]].
    assert (Hcont :
      (List.length (a :: log) <= List.length (alt :: rest))%nat /\
      countReal last <= countReal res /\
      (forall x, In x (a :: log) -> countReal (a_result x) <= countReal res) /\
      (res = last \/ exists x, In x (a :: log) /\ a_result x = res)).
    { split; [cbn [List.length]; lia|]. split; [lia|]. split.
      - intros x [<-|Hx]; [lia | now apply I3].
      - destruct I4 as [I4|[x [Hx Ex]]].
        + destruct Hs as [Hs|Hs]; [left; congruence|].
          right. exists a. split; [now left | congruence].
        + right. exists x. split; [now right | exact Ex]. }
    assert (Hstop :
      (List.length [a] <= List.length (alt :: rest))%nat /\
      countReal last <= countReal last' /\
      (forall x, In x [a] -> countReal (a_result x) <= countReal last') /\
      (last' = last \/ exists x, In x [a] /\ a_result x = last')).
    { split; [cbn [List.length]; lia|]. split; [lia|]. split.
      - intros x [<-|[]]. lia.
      - destruct Hs as [Hs|Hs]; [now left|].
        right. exists a. split; [now left | now symmetry]. }
    destruct (a_result a) as [r|] eqn:Er.
    + destruct (size - 1 <=? countReal (Some r)); cbn [fst snd];
        [exact Hstop | exact Hcont].
    + cbn [fst snd]. exact Hcont.
Qed.

End LadderBest.

(** X8: [planOneTandaWithRetry] makes at most [2 + min(maxRetries, 8)]
    planner calls, and what it returns is the best of them: no call
    returned more real ids than the result holds, and the result is either
    the answer of one of the calls or, when none is kept, the empty
    result. *)
Theorem retry_ladder_returns_the_best_attempt :
  forall (oracle : TandaOracle) (style : jsstring) (size : Z) (usedIds : KeySet)
         (candidates : list Candidate) (allStyleCandidates : option (list Candidate))
         (profiles : list Profile) (maxRetries : nat) (orchestra : option jsstring)
         (n0 : nat),
    let run := planOneTandaWithRetry oracle style size usedIds candidates
                 allStyleCandidates profiles maxRetries orchestra n0 in
    (List.length (snd run) <= 2 + Nat.min maxRetries 8)%nat /\
    (forall a, In a (snd run) ->
       (countReal (a_result a) <= countRealIds (r_trackIds (fst run)))%Z) /\
    (fst run = emptyResult style \/
     exists a, In a (snd run) /\ a_result a = Some (fst run)).
Proof.
  intros oracle style size usedIds candidates allStyle profiles maxRetries orchestra n0
         run.
  subst run. unfold planOneTandaWithRetry.
  set (first := attempt oracle style size usedIds candidates allStyle n0
                  FirstAttempt orchestra).
  set (alts := getAlternativeOrchestras profiles [orchestra]).
  assert (Ha : (List.length alts <= 8)%nat).
  { unfold alts, getAlternativeOrchestras. rewrite length_map, length_firstn. lia. }
  assert (Hstage : exists last1 retries,
    (if needsAlternatives size (a_result first)
     then retryLoop oracle style size usedIds candidates allStyle
            (firstn (Nat.min maxRetries (List.length alts)) alts) 0 (S n0)
            (a_result first)
     else (a_result first, [])) = (last1, retries) /\
    (List.length retries <= Nat.min maxRetries 8)%nat /\
    (countReal (a_result first) <= countReal last1)%Z /\
    (forall a, In a retries -> (countReal (a_result a) <= countReal last1)%Z) /\
    (last1 = a_result first \/ exists a, In a retries /\ a_result a = last1)).
  { destruct (needsAlternatives size (a_result first)).
    - pose proof (retryLoop_best oracle style size usedIds candidates allStyle
                    (firstn (Nat.min maxRetries (List.length alts)) alts) 0 (S n0)
                    (a_result first)) as H.
      destruct (retryLoop oracle style size usedIds candidates allStyle
                  (firstn (Nat.min maxRetries (List.length alts)) alts) 0 (S n0)
                  (a_result first)) as [last1 retries].
      cbn [fst snd] in H. destruct H as [H1 [H2 [H3 H4]]].
      exists last1, retries. split; [reflexivity|].
      split; [rewrite length_firstn in H1; lia|]. repeat split; assumption.
    - exists (a_result first), []. split; [reflexivity|].
      split; [cbn; lia|]. split; [lia|]. split; [intros a []|now left]. }
  destruct Hstage as [last1 [retries [E [H1 [H2 [H3 H4]]]]]]. rewrite E.
  set (f := attempt oracle style size usedIds candidates allStyle
              (S n0 + List.length retries) NoOrchestra None).
  assert (Hfinal : exists last2 final,
    (if needsFallback last1
     then (keepBetter last1 (a_result f), [f]) else (last1, [])) = (last2, final) /\
    (List.length final <= 1)%nat /\
    (countReal last1 <= countReal last2)%Z /\
    (forall a, In a final -> (countReal (a_result a) <= countReal last2)%Z) /\
    (last2 = last1 \/ exists a, In a final /\ a_result a = last2)).
  { destruct (needsFallback last1).
    - exists (keepBetter last1 (a_result f)), [f]. split; [reflexivity|].
      pose proof (keepBetter_max last1 (a_result f)) as Hm.
      split; [cbn; lia|]. split; [lia|]. split.
      + intros a [<-|[]]. lia.
      + destruct (keepBetter_source last1 (a_result f)) as [Hs|Hs]; [now left|].
        right. exists f. split; [now left | now symmetry].
    - exists last1, []. split; [reflexivity|]. split; [cbn; lia|].
      split; [lia|]. split; [intros a [] | now left]. }
  destruct Hfinal as [last2 [final [E2 [F1 [F2 [F3 F4]]]]]]. rewrite E2.
  cbn [fst snd].
  assert (Hres : countRealIds (r_trackIds (match last2 with
                                           | Some r => r
                                           | None => emptyResult style
                                           end)) = countReal last2).
  { destruct last2; reflexivity. }
  rewrite Hres. split; [|split].
  - cbn [List.length]. rewrite length_app. lia.
  - intros a [<-|Ha']; [lia|]. apply in_app_or in Ha' as [Ha'|Ha'].
    + specialize (H3 a Ha'). lia.
    + now apply F3.
  - destruct last2 as [r|]; [right | now left].
    destruct F4 as [->|[a [Ha' Ea]]].
    + destruct H4 as [H4|[a [Ha' Ea]]].
      * exists first. split; [now left | now symmetry].
      * exists a. split; [right; apply in_or_app; now left | exact Ea].
    + exists a. split; [right; apply in_or_app; now right | exact Ea].
Qed.

Lemma retry_ladder_returns_the_best_attempt_witness :
  exists a,
    In a (snd (planOneTandaWithRetry Examples.alwaysPair (js "Tango") 4 []
                 Examples.tangoRows (Some Examples.tangoRows) [] 3
                 (Some (js "Di Sarli")) 0)) /\
    (countReal (a_result a) <= 2)%Z.
Proof.
  pose proof (retry_ladder_returns_the_best_attempt Examples.alwaysPair (js "Tango") 4 []
                Examples.tangoRows (Some Examples.tangoRows) [] 3
                (Some (js "Di Sarli")) 0) as [_ [H _]].
  eexists. split; [left; reflexivity|].
  eapply Z.le_trans; [apply H; left; reflexivity|]. vm_compute. discriminate.
Defined.

Section RequestFacts.

Local Open Scope Z_scope.

Lemma filteredCandidates_source (size : Z) (orchestra : option jsstring)
    (candidates : list Candidate) (allStyleCandidates : option (list Candidate))
    (c : Candidate) :
  In c (filteredCandidates size orchestra candidates allStyleCandidates) ->
  In c candidates \/ exists broader, allStyleCandidates = Some broader /\ In c broader.
Proof.
  unfold filteredCandidates. destruct (orchestraGiven orchestra); [|now left].
  destruct (Z.of_nat (List.length (filter (matchesOrchestra orchestra) candidates))
            <? broadenThreshold size).
  - destruct allStyleCandidates as [[|b broader]|].
    + now left.
    + intro H. right. now exists (b :: broader).
    + destruct candidates; now left.
  - destruct (filter (matchesOrchestra orchestra) candidates) as [|x l] eqn:E;
      [now left|].
    intro H. left. rewrite <- E in H. now apply filter_In in H as [H _].
Qed.

Lemma filteredCandidates_plenty (size : Z) (orchestra : option jsstring)
    (candidates : list Candidate) (allStyleCandidates : option (list Candidate)) :
  orchestraGiven orchestra = true ->
  broadenThreshold size <=
    Z.of_nat (List.length (filter (matchesOrchestra orchestra) candidates)) ->
  filteredCandidates size orchestra candidates allStyleCandidates =
  filter (matchesOrchestra orchestra) candidates.
Proof.
  intros Hg Hn. unfold filteredCandidates. rewrite Hg.
  destruct (Z.of_nat (List.length (filter (matchesOrchestra orchestra) candidates))
            <? broadenThreshold size) eqn:E; [apply Z.ltb_lt in E; lia|].
  destruct (filter (matchesOrchestra orchestra) candidates) as [|x l] eqn:EF;
    [|reflexivity].
  cbn [List.length] in Hn. unfold broadenThreshold in Hn. lia.
Qed.

End RequestFacts.

(** X9: what [planOneTanda] sends and returns.  At most 80 rows are sent,
    each a row of the caller's list or of the broader pool; when at least
    [max(4, size)] rows match the requested orchestra every row sent is a
    matching row of the caller's list.  A result exists only when the agent
    answered with 2 to 6 ids, and then it is the agent's style and ids,
    in order and uncut, followed by ["replace"] up to [size]: the ids are
    not checked against the rows sent. *)
Theorem planOneTanda_request_and_padding :
  forall (ask : AskTanda) (style : jsstring) (size : Z) (usedIds : KeySet)
         (candidates : list Candidate) (allStyleCandidates : option (list Candidate))
         (orchestra : option jsstring),
    let req := planRequest style size usedIds candidates allStyleCandidates orchestra in
    (List.length (q_candidates req) <= 80)%nat /\
    (forall c, In c (q_candidates req) ->
       In c candidates \/
       exists broader, allStyleCandidates = Some broader /\ In c broader) /\
    (orchestraGiven orchestra = true ->
     (broadenThreshold size <=
        Z.of_nat (List.length (filter (matchesOrchestra orchestra) candidates)))%Z ->
     forall c, In c (q_candidates req) ->
       In c candidates /\ matchesOrchestra orchestra c = true) /\
    (forall r,
       planOneTanda ask style size usedIds candidates allStyleCandidates orchestra
         = Some r ->
       exists out,
         ask req = Some out /\
         (2 <= List.length (o_tracks out) <= 6)%nat /\
         r_style r = o_style out /\
         r_trackIds r =
           o_tracks out ++
           repeat REPLACE (Z.to_nat (size - Z.of_nat (List.length (o_tracks out))))).
Proof.
  intros ask style size usedIds candidates allStyle orchestra req.
  split; [|split; [|split]].
  - unfold req, planRequest, CAND_MAX. cbn [q_candidates].
    rewrite length_firstn. lia.
  - intros c Hc. unfold req, planRequest in Hc. cbn [q_candidates] in Hc.
    apply In_firstn in Hc. now apply filteredCandidates_source in Hc.
  - intros Hg Hn c Hc. unfold req, planRequest in Hc. cbn [q_candidates] in Hc.
    apply In_firstn in Hc. rewrite (filteredCandidates_plenty _ _ _ _ Hg Hn) in Hc.
    now apply filter_In in Hc.
  - intros r Hr. unfold planOneTanda in Hr. fold req in Hr.
    destruct (ask req) as [out|]; [|discriminate].
    destruct (validNextTanda out) eqn:Ev; [|discriminate].
    injection Hr as <-. exists out. split; [reflexivity|].
    unfold validNextTanda in Ev.
    apply andb_true_iff in Ev as [Ev E6]. apply andb_true_iff in Ev as [_ E2].
    apply Nat.leb_le in E2, E6. split; [lia|].
    unfold padTracks.
    destruct (Z.of_nat (List.length (o_tracks out)) <? size)%Z eqn:E;
      cbn [r_style r_trackIds]; split; try reflexivity.
    apply Z.ltb_ge in E.
    replace (Z.to_nat (size - Z.of_nat (List.length (o_tracks out)))) with 0%nat by lia.
    cbn [repeat]. now rewrite app_nil_r.
Qed.

Lemma planOneTanda_request_and_padding_witness :
  exists out,
    Examples.alwaysPair 0%nat
      (planRequest (js "Tango") 4 [] Examples.tangoRows None (Some (js "Di Sarli")))
      = Some out /\
    (2 <= List.length (o_tracks out) <= 6)%nat.
Proof.
  destruct (planOneTanda_request_and_padding (Examples.alwaysPair 0%nat) (js "Tango") 4 []
              Examples.tangoRows None (Some (js "Di Sarli"))) as (_ & _ & _ & H).
  destruct (H (padTracks 4 {| o_style := js "Tango"; o_tracks := [js "t1"; js "t2"];
                              o_notes := None; o_warnings := [] |}))
    as [out [E [L _]]]; [vm_compute; reflexivity|].
  exists out. split; assumption.
Defined.

Section RoleFacts.

Local Open Scope Q_scope.

Lemma Qmaxq_spec (a b : Q) : a <= Qmaxq a b /\ (Qmaxq a b = a \/ Qmaxq a b = b).
Proof.
  unfold Qmaxq. destruct (Qle_bool a b) eqn:E.
  - apply Qle_bool_iff in E. auto.
  - split; [apply Qle_refl | auto].
Qed.

Lemma Qminq_spec (a b : Q) : Qminq a b <= a /\ (Qminq a b = a \/ Qminq a b = b).
Proof.
  unfold Qminq. destruct (Qle_bool a b) eqn:E.
  - split; [apply Qle_refl | auto].
  - split; [|auto]. apply Qlt_le_weak, Qnot_le_lt. intro H.
    apply Qle_bool_iff in H. congruence.
Qed.

Lemma clampYear_range (v : jsval) (y : Q) :
  clampYear v = Some y -> 1900 <= y <= 2100 /\ exists z : Z, y = inject_Z z.
Proof.
  unfold clampYear. destruct (NumberOf v) as [n|]; [|discriminate].
  intro E. injection E as <-.
  destruct (Qminq_spec 2100 (Math_round n)) as [Hm Hm'].
  destruct (Qmaxq_spec 1900 (Qminq 2100 (Math_round n))) as [HM HM'].
  split.
  - split; [exact HM|]. destruct HM' as [->| ->]; [discriminate | exact Hm].
  - destruct HM' as [->| ->]; [now exists 1900%Z|].
    destruct Hm' as [->| ->]; [now exists 2100%Z|].
    unfold Math_round. eexists. reflexivity.
Qed.

Lemma effectiveYear_range (t : Track) (y : Q) :
  effectiveYear t = Some y -> 1900 <= y <= 2100 /\ exists z : Z, y = inject_Z z.
Proof.
  unfold effectiveYear.
  destruct (clampYear _) as [c|] eqn:E; [|discriminate].
  destruct (_ && _); [discriminate|]. intro H. injection H as <-.
  eapply clampYear_range. exact E.
Qed.

Lemma trackFitsRole_era (t : Track) (role : jsstring) (rule : RoleRule) :
  role <> [] -> ROLE_RULES role = Some rule -> preferAlt rule = false ->
  trackFitsRole t (Some role) =
  match effectiveYear t with
  | None => true
  | Some y => Qle_bool (minYear rule) y && Qle_bool y (maxYear rule)
  end.
Proof.
  intros Hne Hr Hp. unfold trackFitsRole. destruct role as [|c r]; [contradiction|].
  rewrite Hr, Hp. reflexivity.
Qed.

Lemma trackFitsRole_alt (t : Track) :
  trackFitsRole t (Some (js "alt")) = true ->
  match effectiveYear t with
  | None => True
  | Some y => 1995 <= y <= 2100
  end.
Proof.
  change (trackFitsRole t (Some (js "alt")))
    with (match effectiveYear t with
          | None => true
          | Some y => Qle_bool 1995 y && Qle_bool y 2100
          end &&
          existsb (fun w => includes
                     (toLowerCase (join (js " ") (readGenres t ++ stylesArray t))) w)
                  ALT_WORDS).
  intro H. apply andb_true_iff in H as [H _].
  destruct (effectiveYear t) as [y|]; [|exact I].
  apply andb_true_iff in H as [H1 H2]. apply Qle_bool_iff in H1, H2. now split.
Qed.

End RoleFacts.

(** X10: the year [effectiveYear] reports is a whole number between 1900
    and 2100.  A track without a usable year fits each of the roles
    "classic", "rich" and "modern"; a track with one never fits both
    "classic" and "rich"; and a track that fits "alt" also fits
    "modern". *)
Theorem effectiveYear_and_role_eras :
  forall t : Track,
    (forall y, effectiveYear t = Some y ->
               (1900 <= y <= 2100)%Q /\ exists z : Z, y = inject_Z z) /\
    (effectiveYear t = None ->
       trackFitsRole t (Some (js "classic")) = true /\
       trackFitsRole t (Some (js "rich")) = true /\
       trackFitsRole t (Some (js "modern")) = true) /\
    (effectiveYear t <> None ->
       ~ (trackFitsRole t (Some (js "classic")) = true /\
          trackFitsRole t (Some (js "rich")) = true)) /\
    (trackFitsRole t (Some (js "alt")) = true ->
       trackFitsRole t (Some (js "modern")) = true).
Proof.
  intro t.
  pose proof (trackFitsRole_era t (js "classic")
                {| minYear := 1930; maxYear := 1945; preferAlt := false |}) as Hc.
  pose proof (trackFitsRole_era t (js "rich")
                {| minYear := 1946; maxYear := 1958; preferAlt := false |}) as Hr.
  pose proof (trackFitsRole_era t (js "modern")
                {| minYear := 1990; maxYear := 2100; preferAlt := false |}) as Hm.
  rewrite Hc, Hr, Hm by (try discriminate; reflexivity).
  cbn [minYear maxYear]. clear Hc Hr Hm.
  split; [intros y Hy; exact (effectiveYear_range t y Hy)|].
  split; [intros ->; repeat split|]. split.
  - intros Hy [H1 H2]. destruct (effectiveYear t) as [y|]; [|now apply Hy].
    apply andb_true_iff in H1 as [_ H1]. apply andb_true_iff in H2 as [H2 _].
    apply Qle_bool_iff in H1, H2. lra.
  - intro Ha. apply trackFitsRole_alt in Ha.
    destruct (effectiveYear t) as [y|]; [|reflexivity].
    apply andb_true_iff. split; apply Qle_bool_iff; lra.
Qed.

Lemma effectiveYear_and_role_eras_witness :
  trackFitsRole (Examples.mkTrack "t1" "Di Sarli" "Tango" 100) (Some (js "classic")) = true.
Proof.
  destruct (effectiveYear_and_role_eras (Examples.mkTrack "t1" "Di Sarli" "Tango" 100))
    as (_ & H & _).
  apply H. vm_compute. reflexivity.
Defined.
(* ------------------------------------------------------------------ *)
(** ** The streaming route, line by line *)
(* ------------------------------------------------------------------ *)

Section LadderLength.

Lemma ladder_log_length (oracle : TandaOracle) (style : jsstring) (size : Z)
    (used : KeySet) (candidates : list Candidate)
    (allStyleCandidates : option (list Candidate)) (profiles : list Profile)
    (maxRetries : nat) (orchestra : option jsstring) (n0 : nat) :
  (List.length (snd (planOneTandaWithRetry oracle style size used candidates
                       allStyleCandidates profiles maxRetries orchestra n0))
   <= 2 + Nat.min maxRetries 8)%nat.
Proof.
  unfold planOneTandaWithRetry.
  set (alts := getAlternativeOrchestras profiles [orchestra]).
  assert (Ha : (List.length alts <= 8)%nat).
  { unfold alts, getAlternativeOrchestras. rewrite length_map, length_firstn. lia. }
  destruct (needsAlternatives size _).
  - pose proof (retryLoop_best oracle style size used candidates allStyleCandidates
                  (firstn (Nat.min maxRetries (List.length alts)) alts) 0 (S n0)
                  (a_result (attempt oracle style size used candidates
                               allStyleCandidates n0 FirstAttempt orchestra))) as H.
    cbv zeta in H.
    destruct (retryLoop _ _ _ _ _ _ _ _ _ _) as [last1 retries].
    cbn [fst snd] in H. destruct H as [H _]. rewrite length_firstn in H.
    destruct (needsFallback last1); cbn [snd List.length]; rewrite length_app;
      cbn [List.length]; lia.
  - destruct (needsFallback _); cbn [snd List.length app]; lia.
Qed.

End LadderLength.

Section StreamTrace.

Local Open Scope Q_scope.

Variable world : Collaborators.
Variable workingSet : list Track.

Lemma quiet_refl (st : RunState) : quiet st st.
Proof. repeat split. Qed.

Lemma quiet_withPlanning (st : RunState) (used : KeySet) (n : nat) (log : list Attempt) :
  quiet st (withPlanning st used n log).
Proof. repeat split. Qed.

Lemma pushed_after_quiet (st st1 st' : RunState) (td : Tanda) :
  quiet st st1 -> pushed st1 st' td -> pushed st st' td.
Proof.
  intros [Q1 [Q2 Q3]] [P1 [P2 P3]]. unfold pushed.
  rewrite P1, P2, P3, Q1, Q2, Q3. repeat split.
Qed.

Lemma quiet_trans (st st1 st' : RunState) : quiet st st1 -> quiet st1 st' -> quiet st st'.
Proof.
  intros [Q1 [Q2 Q3]] [P1 [P2 P3]]. unfold quiet.
  rewrite P1, P2, P3. repeat split; assumption.
Qed.

(** The acceptance test, common to the two paths. *)
Lemma accepted_push (st : RunState) (slot : Slot) (chosen : list Track) (secs : Q)
    (orchestra : option jsstring) :
  let tracks := padWithPlaceholders (s_size slot) chosen in
  let td := {| td_style := s_style slot; td_role := s_role slot;
               td_tracks := tracks; td_seconds := secs |} in
  60 < remainingSeconds st ->
  (0 <? List.length tracks)%nat = true ->
  Qltb 0 secs = true ->
  Qle_bool secs (remainingSeconds st + 30) = true ->
  (0 < sumSeconds tracks -> secs = sumSeconds tracks) ->
  (sumSeconds tracks <= 0 -> secs = 180 * lengthQ tracks) ->
  accepted (remainingSeconds st) slot td /\ pushed st (pushTanda st slot tracks secs orchestra) td.
Proof.
  intros tracks td Hg Hl Hp Hf Hs Hd. split; [|repeat split].
  constructor; cbn [td td_style td_role td_tracks td_seconds]; try assumption;
    try reflexivity.
  - pose proof (padWithPlaceholders_length (s_size slot) chosen). fold tracks in H. lia.
  - apply Nat.ltb_lt in Hl. destruct tracks; [cbn in Hl; lia | discriminate].
  - now apply Qltb_true.
  - now apply Qle_bool_iff.
Qed.

Lemma orchestraPath_step (st : RunState) (slot : Slot) :
  60 < remainingSeconds st ->
  let st' := fst (orchestraPath world workingSet st slot) in
  grown 5 6 st st' /\
  ((snd (orchestraPath world workingSet st slot) = false /\ quiet st st') \/
   (snd (orchestraPath world workingSet st slot) = true /\
    exists td, accepted (remainingSeconds st) slot td /\ pushed st st' td)).
Proof.
  intros Hg st'. subst st'. unfold orchestraPath.
  assert (H1 : let st1 := withPlanning st (usedIds st) (S (calls st)) [] in
               grown 5 6 st st1 /\
               ((snd (st1, false) = false /\ quiet st st1) \/
                (snd (st1, false) = true /\
                 exists td, accepted (remainingSeconds st) slot td /\ pushed st st1 td))).
  { split; [split; cbn [withPlanning attempts calls]; rewrite ?length_app;
            cbn [List.length]; lia|].
    left. split; [reflexivity | apply quiet_withPlanning]. }
  cbv zeta in H1.
  destruct (askOrchestras world (calls st)) as [[|s suggestions]|]; try exact H1.
  destruct (pickTarget _ _ _) as [target|]; [|exact H1].
  destruct (filter _ _) as [|c0 cs] eqn:EF; [exact H1|]. clear H1.
  match goal with
  | |- context [planOneTandaWithRetry ?a ?b ?c ?d ?e ?f ?g ?h ?i ?j] =>
      pose proof (ladder_log_length a b c d e f g h i j) as HL;
      destruct (planOneTandaWithRetry a b c d e f g h i j) as [next log]
  end.
  cbn [snd Nat.min] in HL.
  cbn [withPlanning usedIds remainingSeconds calls].
  destruct (chooseTracks workingSet _ (r_trackIds next) (usedIds st))
    as [chosen used'] eqn:EC.
  set (tracks := padWithPlaceholders (s_size slot) chosen).
  set (secs := if Qle_bool (sumSeconds tracks) 0 then 180 * lengthQ tracks
               else sumSeconds tracks).
  set (st2 := withPlanning (withPlanning st (usedIds st) (S (calls st)) []) used'
                (S (calls st) + List.length log) log).
  assert (Hq : quiet st st2) by repeat split.
  assert (Hgr : grown 5 6 st st2).
  { split; cbn [st2 withPlanning attempts calls]; rewrite ?length_app;
      cbn [List.length]; lia. }
  match goal with
  | |- context [if ?c then _ else _] =>
      match c with
      | andb _ _ => destruct c eqn:Ecnd
      end
  end; cbn [fst snd].
  - apply andb_true_iff in Ecnd as [Ecnd Hfit].
    apply andb_true_iff in Ecnd as [Hlen Hpos].
    split; [exact Hgr|]. right. split; [reflexivity|].
    eexists.
    assert (HA := accepted_push st2 slot chosen secs (Some target)).
    cbv zeta in HA. fold tracks in HA.
    destruct HA as [HA HP]; try assumption.
    + unfold secs. intro H. destruct (Qle_bool (sumSeconds tracks) 0) eqn:E;
        [|reflexivity].
      apply Qle_bool_iff in E. lra.
    + unfold secs. intro H. apply Qle_bool_iff in H. now rewrite H.
    + split; [exact HA|]. exact (pushed_after_quiet st st2 _ _ Hq HP).
  - split; [exact Hgr|]. left. split; [reflexivity | exact Hq].
Qed.

Lemma styleOnlyPath_step (st st' : RunState) (slot : Slot) :
  60 < remainingSeconds st ->
  styleOnlyPath world workingSet st slot = Some st' ->
  grown 5 5 st st' /\
  (quiet st st' \/
   (exists td, accepted (remainingSeconds st) slot td /\ pushed st st' td)).
Proof.
  intros Hg. unfold styleOnlyPath.
  destruct (2 <=? List.length _)%nat; [discriminate|].
  match goal with
  | |- context [planOneTandaWithRetry ?a ?b ?c ?d ?e ?f ?g ?h ?i ?j] =>
      pose proof (ladder_log_length a b c d e f g h i j) as HL;
      destruct (planOneTandaWithRetry a b c d e f g h i j) as [next log]
  end.
  cbn [snd Nat.min] in HL.
  destruct (chooseTracks workingSet _ (r_trackIds next) (usedIds st))
    as [chosen used'] eqn:EC.
  set (tracks := padWithPlaceholders (s_size slot) chosen).
  set (secs := orNum (sumSeconds tracks) (180 * lengthQ tracks)).
  set (st2 := withPlanning st used' (calls st + List.length log) log).
  assert (Hq : quiet st st2) by repeat split.
  assert (Hgr : grown 5 5 st st2).
  { split; cbn [st2 withPlanning attempts calls]; rewrite ?length_app; lia. }
  match goal with
  | |- (if ?c then _ else _) = _ -> _ => destruct c eqn:Ecnd
  end; intro E; injection E as <-.
  - apply andb_true_iff in Ecnd as [Ecnd _].
    apply andb_true_iff in Ecnd as [Ecnd Hfit].
    apply andb_true_iff in Ecnd as [Hlen Hpos].
    split; [exact Hgr|]. right.
    eexists.
    assert (HA := accepted_push st2 slot chosen secs None).
    cbv zeta in HA. fold tracks in HA.
    destruct HA as [HA HP]; try assumption.
    + unfold secs, orNum. intro H. destruct (Qeq_bool (sumSeconds tracks) 0) eqn:E;
        [|reflexivity].
      apply Qeq_bool_iff in E. lra.
    + intro H. apply Qltb_true in Hpos. unfold secs, orNum in *.
      destruct (Qeq_bool (sumSeconds tracks) 0) eqn:E; [reflexivity|]. lra.
    + split; [exact HA|]. exact (pushed_after_quiet st st2 _ _ Hq HP).
  - split; [exact Hgr|]. left. exact Hq.
Qed.

Lemma grown_trans (a c a' c' : nat) (st st1 st' : RunState) :
  grown a c st st1 -> grown a' c' st1 st' -> grown (a + a') (c + c') st st'.
Proof. unfold grown. lia. Qed.

Lemma planSlot_step (st st' : RunState) (slot : Slot) :
  60 < remainingSeconds st ->
  planSlot world workingSet st slot = Some st' ->
  grown 10 11 st st' /\
  (quiet st st' \/
   (exists td, accepted (remainingSeconds st) slot td /\ pushed st st' td)).
Proof.
  intros Hg. unfold planSlot.
  pose proof (orchestraPath_step st slot Hg) as H. cbv zeta in H.
  destruct (orchestraPath world workingSet st slot) as [st1 made].
  cbn [fst snd] in H. destruct H as [G1 H].
  destruct made.
  - intro E. injection E as <-. split; [unfold grown in *; lia|].
    destruct H as [[H _]|[_ H]]; [discriminate | now right].
  - destruct H as [[_ Hq]|[H _]]; [|discriminate].
    intro E. pose proof Hq as [_ [_ Hr]].
    assert (Hg1 : 60 < remainingSeconds st1) by now rewrite Hr.
    destruct (styleOnlyPath_step st1 st' slot Hg1 E) as [G2 H].
    split; [exact (grown_trans 5 6 5 5 _ _ _ G1 G2)|].
    destruct H as [H|[td [HA HP]]].
    + left. exact (quiet_trans _ _ _ Hq H).
    + right. exists td. rewrite Hr in HA. split; [exact HA|].
      exact (pushed_after_quiet _ _ _ _ Hq HP).
Qed.

End StreamTrace.

Section StreamRun.

Local Open Scope Q_scope.

Variable world : Collaborators.
Variable workingSet : list Track.

Lemma planningLoop_trace (slots : list Slot) :
  forall st,
    let st' := stopped (planningLoop world workingSet slots st) in
    exists tandas,
      planned (remainingSeconds st) slots tandas /\
      tandasResolved st' = tandasResolved st ++ tandas /\
      sent st' = sent st ++
                 eventsFrom (List.length (tandasResolved st)) (remainingSeconds st) tandas /\
      grown (10 * List.length slots) (11 * List.length slots) st st'.
Proof.
  induction slots as [|slot rest IH]; intros st st'; subst st'; cbn [planningLoop].
  - exists []. cbn [stopped eventsFrom]. rewrite !app_nil_r.
    repeat split; try constructor; lia.
  - destruct (Qle_bool (remainingSeconds st) 60) eqn:Eg.
    + exists []. cbn [stopped eventsFrom]. rewrite !app_nil_r.
      repeat split; try constructor; lia.
    + assert (Hg : 60 < remainingSeconds st).
      { apply Qnot_le_lt. intro H. apply Qle_bool_iff in H. congruence. }
      destruct (planSlot world workingSet st slot) as [st1|] eqn:EP.
      * destruct (planSlot_step world workingSet st st1 slot Hg EP) as [G H].
        destruct (IH st1) as [tandas [T1 [T2 [T3 T4]]]].
        assert (Hgr : grown (10 * List.length (slot :: rest))
                            (11 * List.length (slot :: rest)) st
                            (stopped (planningLoop world workingSet rest st1))).
        { pose proof (grown_trans _ _ _ _ _ _ _ G T4) as H'.
          unfold grown in *. cbn [List.length]. lia. }
        destruct H as [[Q1 [Q2 Q3]]|[td [HA [P1 [P2 P3]]]]].
        -- exists tandas. rewrite Q3 in T1. rewrite Q1 in T2, T3. rewrite Q2, Q3 in T3.
           split; [now apply planned_skip|].
           split; [exact T2|]. split; [exact T3 | exact Hgr].
        -- exists (td :: tandas). rewrite P3 in T1. rewrite P1 in T2, T3.
           rewrite P2, P3 in T3.
           split; [now apply planned_take|].
           split; [rewrite T2, <- app_assoc; reflexivity|].
           split; [|exact Hgr].
           rewrite T3, <- app_assoc, length_app. cbn [List.length app eventsFrom].
           rewrite Nat.add_1_r. reflexivity.
      * pose proof (orchestraPath_step world workingSet st slot Hg) as H.
        cbv zeta in H. destruct H as [G H]. cbn [stopped].
        assert (Hq : quiet st (fst (orchestraPath world workingSet st slot))).
        { unfold planSlot in EP.
          destruct (orchestraPath world workingSet st slot) as [st1 made].
          cbn [fst snd] in *. destruct made; [discriminate|].
          destruct H as [[_ H]|[H _]]; [exact H | discriminate]. }
        destruct Hq as [Q1 [Q2 Q3]].
        exists []. cbn [eventsFrom]. rewrite !app_nil_r.
        split; [constructor|]. split; [exact Q1|]. split; [exact Q2|].
        unfold grown in *. cbn [List.length]. lia.
Qed.

(** The run as a whole: what was planned, what was written, and how the
    stream was closed. *)
Lemma generateStream_trace (minutes : Q) (slots : list Slot) :
  let run := generateStream world workingSet minutes slots in
  exists closing,
    planned (minutes * 60) slots (tandasResolved run) /\
    sent run = EvStart minutes slots ::
               eventsFrom 0 (minutes * 60) (tandasResolved run) ++ [closing] /\
    (closing = EvError \/
     closing = EvDone (planBlocksFrom
                         (listCortinas world (List.length (tandasResolved run))) 0
                         (tandasResolved run))
                      (listCortinas world (List.length (tandasResolved run)))) /\
    (List.length (attempts run) <= 10 * List.length slots)%nat /\
    (calls run <= 11 * List.length slots)%nat.
Proof.
  intro run. subst run. unfold generateStream.
  destruct (planningLoop_trace slots (initialState minutes slots))
    as [tandas [T1 [T2 [T3 [T4 T5]]]]].
  cbn [initialState remainingSeconds tandasResolved sent attempts calls app
       List.length] in T1, T2, T3, T4, T5.
  destruct (planningLoop world workingSet slots (initialState minutes slots))
    as [st|st]; cbn [stopped] in T2, T3, T4, T5;
    cbn [tandasResolved sent attempts calls]; rewrite T2, T3.
  - eexists. split; [exact T1|]. split; [reflexivity|].
    split; [right; reflexivity|]. split; lia.
  - exists EvError. split; [exact T1|]. split; [reflexivity|].
    split; [left; reflexivity|]. split; lia.
Qed.

Lemma planned_length (remaining : Q) (slots : list Slot) (tandas : list Tanda) :
  planned remaining slots tandas -> (List.length tandas <= List.length slots)%nat.
Proof. induction 1; cbn [List.length]; lia. Qed.

Lemma planned_In (remaining : Q) (slots : list Slot) (tandas : list Tanda) :
  planned remaining slots tandas ->
  forall td, In td tandas ->
    exists slot before, In slot slots /\ accepted before slot td.
Proof.
  induction 1 as [r s|r slot s tandas H IH|r slot s td0 tandas HA H IH]; intros td Hin.
  - destruct Hin.
  - destruct (IH td Hin) as [sl [b [H1 H2]]]. exists sl, b. split; [now right | exact H2].
  - destruct Hin as [<-|Hin].
    + exists slot, r. split; [now left | exact HA].
    + destruct (IH td Hin) as [sl [b [H1 H2]]]. exists sl, b.
      split; [now right | exact H2].
Qed.

End StreamRun.

(** X11: the lines of the stream.  A run writes the start line, then one
    tanda line per accepted tanda, numbered from 1 and each carrying the
    seconds of the budget left after it, then exactly one closing line: the
    error line, or the done line with the plan built from these tandas and
    the cortinas asked for their number. *)
Theorem stream_lines_follow_the_tandas :
  forall (world : Collaborators) (workingSet : list Track) (minutes : Q)
         (slots : list Slot),
    let run := generateStream world workingSet minutes slots in
    let tandas := emittedTandas (sent run) in
    let cortinas := listCortinas world (List.length tandas) in
    exists closing,
      sent run = EvStart minutes slots ::
                 eventsFrom 0 (minutes * 60)%Q tandas ++ [closing] /\
      (closing = EvError \/
       closing = EvDone (planBlocksFrom cortinas 0 tandas) cortinas).
Proof.
  intros world workingSet minutes slots run tandas cortinas.
  subst cortinas tandas run. rewrite generateStream_emitted.
  destruct (generateStream_trace world workingSet minutes slots)
    as [closing [_ [H1 [H2 _]]]].
  exists closing. split; assumption.
Qed.

Lemma stream_lines_follow_the_tandas_witness :
  List.length (sent (generateStream Examples.threePairs Examples.sixTangos 10
                       [Examples.slot "Tango" 2; Examples.slot "Tango" 2;
                        Examples.slot "Tango" 2])) = 5%nat.
Proof.
  destruct (stream_lines_follow_the_tandas Examples.threePairs Examples.sixTangos 10
              [Examples.slot "Tango" 2; Examples.slot "Tango" 2;
               Examples.slot "Tango" 2]) as [closing [H _]].
  rewrite H. vm_compute. reflexivity.
Defined.

(** X12: the tandas of a run against its slots.  Each slot yields no tanda
    or one, in slot order, so there are never more tandas than slots; and
    every tanda has the style and role of its slot, at least as many
    entries as the slot asks for and at least one, was started with more
    than 60 seconds left, lasts a positive number of seconds that is at
    most the seconds left plus 30, namely the summed durations of its
    entries or, when these sum to nothing, 180 seconds per entry. *)
Theorem stream_tandas_follow_the_slots :
  forall (world : Collaborators) (workingSet : list Track) (minutes : Q)
         (slots : list Slot),
    let tandas := emittedTandas (sent (generateStream world workingSet minutes slots)) in
    planned (minutes * 60)%Q slots tandas /\
    (List.length tandas <= List.length slots)%nat /\
    (forall td, In td tandas ->
       exists slot before, In slot slots /\ accepted before slot td).
Proof.
  intros world workingSet minutes slots tandas. subst tandas.
  rewrite generateStream_emitted.
  destruct (generateStream_trace world workingSet minutes slots)
    as [closing [H _]].
  split; [exact H|]. split.
  - exact (planned_length _ _ _ H).
  - exact (planned_In _ _ _ H).
Qed.

Lemma stream_tandas_follow_the_slots_witness :
  exists slot before,
    In slot [Examples.slot "Vals" 3] /\
    accepted before slot
      {| td_style := js "Vals"; td_role := Some (js "classic");
         td_tracks := Examples.fourValses; td_seconds := 600 |}.
Proof.
  destruct (stream_tandas_follow_the_slots Examples.fourForThree Examples.fourValses 30
              [Examples.slot "Vals" 3]) as [_ [_ H]].
  apply H. vm_compute. left. reflexivity.
Defined.

(** X13: the cost of a run.  A run makes at most 10 planner calls and 11
    agent calls in all per slot; and with a budget of 60 seconds or less,
    or without slots, it calls no agent at all and answers with the start
    line and an empty plan. *)
Theorem stream_calls_are_bounded :
  forall (world : Collaborators) (workingSet : list Track) (minutes : Q)
         (slots : list Slot),
    let run := generateStream world workingSet minutes slots in
    (List.length (attempts run) <= 10 * List.length slots)%nat /\
    (calls run <= 11 * List.length slots)%nat /\
    ((minutes * 60 <= 60)%Q \/ slots = [] ->
     calls run = 0%nat /\ attempts run = [] /\
     sent run = [EvStart minutes slots; EvDone [] (listCortinas world 0)]).
Proof.
  intros world workingSet minutes slots run. subst run.
  destruct (generateStream_trace world workingSet minutes slots)
    as [closing [_ [_ [_ [H1 H2]]]]].
  split; [exact H1|]. split; [exact H2|].
  intro H. unfold generateStream.
  assert (E : planningLoop world workingSet slots (initialState minutes slots) =
              inl (initialState minutes slots)).
  { destruct slots as [|slot rest]; [reflexivity|]. cbn [planningLoop].
    destruct H as [H|H]; [|discriminate].
    apply Qle_bool_iff in H. cbn [initialState remainingSeconds]. now rewrite H. }
  rewrite E. repeat split.
Qed.

Lemma stream_calls_are_bounded_witness :
  sent (generateStream Examples.threePairs Examples.sixTangos 1
          [Examples.slot "Tango" 2]) =
  [EvStart 1 [Examples.slot "Tango" 2];
   EvDone [] (listCortinas Examples.threePairs 0)].
Proof.
  destruct (stream_calls_are_bounded Examples.threePairs Examples.sixTangos 1
              [Examples.slot "Tango" 2]) as [_ [_ H]].
  apply H. left. vm_compute. discriminate.
Defined.
(* ------------------------------------------------------------------ *)
(** ** The replacement route: when it fails and how much it returns *)
(* ------------------------------------------------------------------ *)

Section ReplaceOutcome.

Variable rankByContinuity : list Track -> list Track.
Hypothesis rank_rearranges : forall l, Permutation (rankByContinuity l) l.

Variable workingSet : list Track.
Variables (style : jsstring) (orchestra : option jsstring).
Variables (avoidIds previouslySelected : list (option jsstring)).
Variables (topK : nat) (homogenize : bool).

Local Abbreviation allowedKey := (notExcluded avoidIds previouslySelected).
Local Abbreviation base := (broadenedBase workingSet style orchestra avoidIds
                              previouslySelected topK homogenize).
Local Abbreviation rows := (slim rankByContinuity workingSet style orchestra avoidIds
                              previouslySelected topK homogenize).

Lemma broadenedBase_last_resort :
  base = [] -> filter (fun t => allowedKey (idKeyOf t)) workingSet = [].
Proof.
  unfold broadenedBase.
  destruct (_ || _) eqn:Ec.
  - match goal with
    | |- match ?b with [] => _ | _ :: _ => _ end = [] -> _ =>
        destruct b; [auto | discriminate]
    end.
  - apply orb_false_iff in Ec as [Ec _]. apply Nat.eqb_neq in Ec.
    intro E. rewrite E in Ec. cbn in Ec. lia.
Qed.

Lemma base_empty_iff :
  base = [] <-> forall t, In t workingSet -> allowedKey (idKeyOf t) = false.
Proof.
  split.
  - intros E t Ht. apply broadenedBase_last_resort in E.
    destruct (allowedKey (idKeyOf t)) eqn:Ea; [|reflexivity].
    assert (Hin : In t (filter (fun t => allowedKey (idKeyOf t)) workingSet))
      by (apply filter_In; now split).
    rewrite E in Hin. destruct Hin.
  - intro H. destruct base as [|x l] eqn:E; [reflexivity|]. exfalso.
    assert (Hx : In x base) by (rewrite E; now left).
    apply broadenedBase_allowed in Hx as [Hin Ha]. rewrite (H x Hin) in Ha.
    discriminate.
Qed.

Lemma rows_empty_iff : rows = [] <-> base = [].
Proof.
  unfold slim. split.
  - intro E. apply map_eq_nil in E.
    destruct (rankByContinuity base) as [|x l] eqn:Er.
    + apply Permutation_nil. rewrite <- Er. apply rank_rearranges.
    + destruct (Nat.max 80 topK) eqn:Em; [lia|]. discriminate.
  - intro E. rewrite E.
    rewrite (Permutation_nil (Permutation_sym (rank_rearranges []))).
    now rewrite firstn_nil.
Qed.

Lemma suggestionsOut_length (replacementId : option jsstring)
    (proposed : list (option jsstring)) :
  (List.length (suggestionsOut rankByContinuity workingSet style orchestra avoidIds
                  previouslySelected topK homogenize replacementId proposed)
   <= topK)%nat.
Proof.
  unfold suggestionsOut.
  set (out := firstn topK _).
  assert (Hout : (List.length out <= topK)%nat)
    by (unfold out; rewrite length_firstn; lia).
  destruct (List.length out <? topK)%nat; [|exact Hout].
  rewrite length_app, length_map, length_firstn. lia.
Qed.

End ReplaceOutcome.


(* ------------------------------------------------------------------ *)
(** ** The blocks of the final plan *)
(* ------------------------------------------------------------------ *)

Section PlanBlocks.

Variable cortinas : list Cortina.

Lemma planBlocksFrom_two (i : nat) (td td2 : Tanda) (rest : list Tanda) :
  planBlocksFrom cortinas i (td :: td2 :: rest) =
  BTanda td :: BCortina (cortinaAt cortinas i) (cortinaSeconds (cortinaAt cortinas i))
    :: planBlocksFrom cortinas (S i) (td2 :: rest).
Proof. reflexivity. Qed.

Lemma planBlocksFrom_length (tandas : list Tanda) :
  forall i, List.length (planBlocksFrom cortinas i tandas) = (2 * List.length tandas - 1)%nat.
Proof.
  induction tandas as [|td rest IH]; intro i; [reflexivity|].
  destruct rest as [|td2 rest]; [reflexivity|].
  rewrite planBlocksFrom_two. cbn [List.length] in *. rewrite (IH (S i)). lia.
Qed.

Lemma planBlocksFrom_tanda (tandas : list Tanda) :
  forall i j td,
    nth_error tandas j = Some td ->
    nth_error (planBlocksFrom cortinas i tandas) (2 * j) = Some (BTanda td).
Proof.
  induction tandas as [|td0 rest IH]; intros i j td H; [destruct j; discriminate|].
  destruct j as [|j].
  - cbn in H. injection H as <-. destruct rest; reflexivity.
  - cbn [nth_error] in H. destruct rest as [|td2 rest]; [destruct j; discriminate|].
    rewrite planBlocksFrom_two.
    replace (2 * S j)%nat with (S (S (2 * j))) by lia. cbn [nth_error].
    now apply IH.
Qed.

Lemma planBlocksFrom_cortina (tandas : list Tanda) :
  forall i j,
    (S j < List.length tandas)%nat ->
    nth_error (planBlocksFrom cortinas i tandas) (2 * j + 1) =
    Some (BCortina (cortinaAt cortinas (i + j))
            (cortinaSeconds (cortinaAt cortinas (i + j)))).
Proof.
  induction tandas as [|td0 rest IH]; intros i j H; [cbn in H; lia|].
  destruct rest as [|td2 rest]; [cbn in H; lia|].
  rewrite planBlocksFrom_two. destruct j as [|j].
  - cbn [Nat.mul Nat.add nth_error]. now rewrite Nat.add_0_r.
  - replace (2 * S j + 1)%nat with (S (S (2 * j + 1))) by lia. cbn [nth_error].
    rewrite (IH (S i) j) by (cbn [List.length] in *; lia).
    now replace (S i + j)%nat with (i + S j)%nat by lia.
Qed.

Lemma cortinaAt_cycles (j : nat) :
  cortinas <> [] ->
  exists c, cortinaAt cortinas j = Some c /\
            nth_error cortinas (j mod List.length cortinas) = Some c.
Proof.
  intro Hne. unfold cortinaAt. destruct cortinas as [|c0 l] eqn:E; [contradiction|].
  destruct (nth_error (c0 :: l) (j mod List.length (c0 :: l))) as [c|] eqn:En.
  - now exists c.
  - apply nth_error_None in En.
    pose proof (Nat.mod_upper_bound j (List.length (c0 :: l))) as Hb.
    cbn [List.length] in *. lia.
Qed.

End PlanBlocks.

(** X15: the plan of the done line alternates: [n] tandas give [2n - 1]
    blocks, tanda [j] at position [2j] and between two tandas one cortina;
    the cortina after tanda [j] is row [j mod length] of the pool with its
    own seconds, so a short pool is cycled, and without a pool the block
    names no cortina and lasts 60 seconds. *)
Theorem plan_blocks_alternate :
  forall (cortinas : list Cortina) (tandas : list Tanda),
    let blocks := planBlocksFrom cortinas 0 tandas in
    List.length blocks = (2 * List.length tandas - 1)%nat /\
    (forall j td, nth_error tandas j = Some td ->
                  nth_error blocks (2 * j) = Some (BTanda td)) /\
    (forall j, (S j < List.length tandas)%nat ->
       nth_error blocks (2 * j + 1) =
       Some (BCortina (cortinaAt cortinas j) (cortinaSeconds (cortinaAt cortinas j)))) /\
    (forall j, cortinas <> [] ->
       exists c, cortinaAt cortinas j = Some c /\
                 nth_error cortinas (j mod List.length cortinas) = Some c) /\
    (forall j, cortinas = [] ->
       cortinaAt cortinas j = None /\ cortinaSeconds (cortinaAt cortinas j) = 60%Q).
Proof.
  intros cortinas tandas blocks. subst blocks.
  split; [apply planBlocksFrom_length|].
  split; [intros j td H; now apply planBlocksFrom_tanda|].
  split; [intros j H; exact (planBlocksFrom_cortina cortinas tandas 0 j H)|].
  split; [intros j H; now apply cortinaAt_cycles|].
  intros j ->. split; reflexivity.
Qed.

Lemma plan_blocks_alternate_witness :
  nth_error
    (planBlocksFrom [] 0
       [{| td_style := js "Tango"; td_role := None; td_tracks := []; td_seconds := 600 |};
        {| td_style := js "Vals"; td_role := None; td_tracks := []; td_seconds := 450 |}])
    1 = Some (BCortina None 60%Q).
Proof.
  destruct (plan_blocks_alternate []
              [{| td_style := js "Tango"; td_role := None; td_tracks := [];
                  td_seconds := 600 |};
               {| td_style := js "Vals"; td_role := None; td_tracks := [];
                  td_seconds := 450 |}]) as (_ & _ & H & _).
  exact (H 0%nat ltac:(cbn; lia)).
Defined.
(* ------------------------------------------------------------------ *)
(** ** The fallback planner of dj-lib.js *)
(* ------------------------------------------------------------------ *)

Section FallbackFacts.

Local Open Scope Q_scope.

Variable merged : list PlanTrack.
Variable sizes : jsstring -> option Q.

Lemma takeUpTo_prefix (size : Q) (rest : list PlanTrack) :
  forall have, exists r, rest = takeUpTo size have rest ++ r.
Proof.
  induction rest as [|t rest IH]; intro have; [now exists []|].
  cbn [takeUpTo]. destruct (Qltb _ size); [|now exists (t :: rest)].
  destruct (IH (S have)) as [r E]. exists r. cbn [app]. now rewrite <- E.
Qed.

Lemma takeUpTo_length (size : Q) (rest : list PlanTrack) :
  forall have,
    takeUpTo size have rest = [] \/
    inject_Z (Z.of_nat (have + List.length (takeUpTo size have rest))) - 1 < size.
Proof.
  induction rest as [|t rest IH]; intro have; [now left|].
  cbn [takeUpTo]. destruct (Qltb _ size) eqn:E; [|now left]. right.
  apply Qltb_true in E. cbn [List.length].
  destruct (IH (S have)) as [H|H].
  - rewrite H. cbn [List.length]. replace (have + 1)%nat with (S have) by lia.
    rewrite Nat2Z.inj_succ. unfold Z.succ. rewrite inject_Z_plus.
    change (inject_Z 1) with 1. lra.
  - now replace (have + S (List.length (takeUpTo size (S have) rest)))%nat
      with (S have + List.length (takeUpTo size (S have) rest))%nat by lia.
Qed.

Lemma fillPattern_budget (pattern : list jsstring) :
  forall picks timeLeft,
    0 <= timeLeft ->
    plannedSeconds (fillPattern merged sizes pattern picks timeLeft) <= timeLeft.
Proof.
  induction pattern as [|style rest IH]; intros picks tl Htl; cbn [fillPattern].
  - exact Htl.
  - destruct (takeUpTo _ _ _) as [|c chosen]; [now apply IH|].
    destruct (Qle_bool (sumTrackSeconds (c :: chosen)) 0); [now apply IH|].
    destruct (Qltb tl (sumTrackSeconds (c :: chosen))) eqn:Ef; [exact Htl|].
    apply Qltb_false in Ef. cbn [plannedSeconds ft_seconds].
    destruct (Qle_bool (tl - sumTrackSeconds (c :: chosen)) 0) eqn:Ez.
    + cbn [plannedSeconds]. lra.
    + assert (H : 0 <= tl - sumTrackSeconds (c :: chosen)) by lra.
      specialize (IH (bump picks style (List.length (c :: chosen))) _ H). lra.
Qed.

Lemma fillPattern_tandas (pattern : list jsstring) :
  forall picks timeLeft td,
    In td (fillPattern merged sizes pattern picks timeLeft) ->
    In (ft_style td) pattern /\
    ft_tracks td <> [] /\
    0 < ft_seconds td /\
    ft_seconds td = sumTrackSeconds (ft_tracks td) /\
    inject_Z (Z.of_nat (List.length (ft_tracks td))) - 1 < sizeOf sizes (ft_style td).
Proof.
  induction pattern as [|style rest IH]; intros picks tl td; cbn [fillPattern];
    [intros []|].
  assert (Hrest : forall p t, In td (fillPattern merged sizes rest p t) ->
                  In (ft_style td) (style :: rest) /\ ft_tracks td <> [] /\
                  0 < ft_seconds td /\
                  ft_seconds td = sumTrackSeconds (ft_tracks td) /\
                  inject_Z (Z.of_nat (List.length (ft_tracks td))) - 1
                    < sizeOf sizes (ft_style td)).
  { intros p t H. destruct (IH p t td H) as [H1 H2]. split; [now right | exact H2]. }
  pose proof (takeUpTo_length (sizeOf sizes style)
                (skipn (picks style) (poolOf merged style)) 0) as Hlen.
  destruct (takeUpTo _ _ _) as [|c chosen] eqn:Ec; [apply Hrest|].
  destruct (Qle_bool (sumTrackSeconds (c :: chosen)) 0) eqn:Ez; [apply Hrest|].
  destruct (Qltb tl (sumTrackSeconds (c :: chosen))); [intros []|].
  intros [<-|H].
  - cbn [ft_style ft_tracks ft_seconds]. split; [now left|]. split; [discriminate|].
    split.
    + apply Qnot_le_lt. intro H. apply Qle_bool_iff in H. congruence.
    + split; [reflexivity|]. destruct Hlen as [Hlen|Hlen]; [discriminate | exact Hlen].
  - destruct (Qle_bool _ 0) in H; [destruct H | now apply Hrest in H].
Qed.

Lemma fillPattern_length (pattern : list jsstring) :
  forall picks timeLeft,
    (List.length (fillPattern merged sizes pattern picks timeLeft)
     <= List.length pattern)%nat.
Proof.
  induction pattern as [|style rest IH]; intros picks tl; cbn [fillPattern];
    [apply Nat.le_refl|].
  assert (Hrest : forall p t, (List.length (fillPattern merged sizes rest p t)
                               <= List.length (style :: rest))%nat).
  { intros p t. specialize (IH p t). cbn [List.length]. lia. }
  destruct (takeUpTo _ _ _) as [|c chosen]; [apply Hrest|].
  destruct (Qle_bool (sumTrackSeconds (c :: chosen)) 0); [apply Hrest|].
  destruct (Qltb tl _); [cbn; lia|].
  destruct (Qle_bool _ 0); [cbn [List.length]; lia|].
  change (S (List.length (fillPattern merged sizes rest
                            (bump picks style (List.length (c :: chosen)))
                            (tl - sumTrackSeconds (c :: chosen))))
          <= S (List.length rest))%nat.
  apply le_n_S, IH.
Qed.

(** Where the tracks of a later tanda come from. *)
Lemma In_skipn_more {A : Type} (a b : nat) (l : list A) (x : A) :
  (a <= b)%nat -> In x (skipn b l) -> In x (skipn a l).
Proof.
  intros Hab H. replace b with ((b - a) + a)%nat in H by lia.
  rewrite <- skipn_skipn in H.
  rewrite <- (firstn_skipn (b - a) (skipn a l)). apply in_or_app. now right.
Qed.

Lemma unpicked_bump (picks : jsstring -> nat) (style s : jsstring) (n : nat)
    (t : PlanTrack) :
  In t (unpicked merged (bump picks style n) s) -> In t (unpicked merged picks s).
Proof.
  unfold unpicked, bump. destruct (jseqb s style); [|auto].
  apply In_skipn_more. lia.
Qed.

Lemma fillPattern_unpicked (pattern : list jsstring) :
  forall picks timeLeft td t,
    In td (fillPattern merged sizes pattern picks timeLeft) ->
    In t (ft_tracks td) ->
    In t (unpicked merged picks (ft_style td)).
Proof.
  induction pattern as [|style rest IH]; intros picks tl td t; cbn [fillPattern];
    [intros []|].
  assert (Hrest : forall n tl', In td (fillPattern merged sizes rest
                                         (bump picks style n) tl') ->
                  In t (ft_tracks td) -> In t (unpicked merged picks (ft_style td))).
  { intros n tl' H Ht. eapply unpicked_bump. eapply IH; eassumption. }
  destruct (takeUpTo_prefix (sizeOf sizes style)
              (skipn (picks style) (poolOf merged style)) 0) as [r Er].
  destruct (takeUpTo _ _ _) as [|c chosen] eqn:Ec; [apply Hrest|].
  destruct (Qle_bool (sumTrackSeconds (c :: chosen)) 0); [apply Hrest|].
  destruct (Qltb tl _); [intros []|].
  intros [<-|H].
  - cbn [ft_style ft_tracks]. intro Ht. unfold unpicked. rewrite Er.
    apply in_or_app. now left.
  - destruct (Qle_bool _ 0) in H; [destruct H|].
    intro Ht. exact (Hrest _ _ H Ht).
Qed.

Lemma poolOf_genre (style : jsstring) (t : PlanTrack) :
  In t (poolOf merged style) ->
  In t merged /\ genreOf t = GOne style /\
  In style [js "Tango"; js "Vals"; js "Milonga"].
Proof.
  unfold poolOf. destruct (includesStr _ style) eqn:E; [|intros []].
  intro H. apply filter_In in H as [Hin Hg]. split; [exact Hin|].
  split; [|now apply includesStr_In].
  unfold isGenre in Hg. destruct (genreOf t) as [|g|gs]; try discriminate.
  apply jseqb_eq in Hg. now subst.
Qed.

Lemma unpicked_pool (picks : jsstring -> nat) (style : jsstring) (t : PlanTrack) :
  In t (unpicked merged picks style) -> In t (poolOf merged style).
Proof.
  unfold unpicked. intro H. rewrite <- (firstn_skipn (picks style) (poolOf merged style)).
  apply in_or_app. now right.
Qed.

Lemma apart_in_NoDup {A : Type} (front back : list A) (x : A) :
  NoDup (front ++ back) -> In x front -> In x back -> False.
Proof.
  induction front as [|y front IH]; cbn [app]; intros Hn Hf Hb; [destruct Hf|].
  apply NoDup_cons_iff in Hn as [Hy Hn]. destruct Hf as [->|Hf].
  - apply Hy. apply in_or_app. now right.
  - exact (IH Hn Hf Hb).
Qed.

Lemma NoDup_skipn {A : Type} (n : nat) (l : list A) : NoDup l -> NoDup (skipn n l).
Proof.
  intro H. rewrite <- (firstn_skipn n l) in H. exact (NoDup_app_remove_l _ _ H).
Qed.

Lemma poolOf_NoDup (style : jsstring) : NoDup merged -> NoDup (poolOf merged style).
Proof.
  intro H. unfold poolOf. destruct (includesStr _ style); [|constructor].
  apply NoDup_filter. exact H.
Qed.

Lemma fillPattern_NoDup (pattern : list jsstring) :
  NoDup merged ->
  forall picks timeLeft,
    NoDup (flat_map ft_tracks (fillPattern merged sizes pattern picks timeLeft)).
Proof.
  intro Hm. induction pattern as [|style rest IH]; intros picks tl; cbn [fillPattern];
    [constructor|].
  destruct (takeUpTo_prefix (sizeOf sizes style)
              (skipn (picks style) (poolOf merged style)) 0) as [r Er].
  destruct (takeUpTo _ _ _) as [|c chosen] eqn:Ec; [apply IH|].
  destruct (Qle_bool (sumTrackSeconds (c :: chosen)) 0); [apply IH|].
  destruct (Qltb tl _); [constructor|].
  assert (Hu : NoDup (unpicked merged picks style))
    by (apply NoDup_skipn, poolOf_NoDup, Hm).
  unfold unpicked in Hu. rewrite Er in Hu.
  cbn [flat_map ft_tracks].
  destruct (Qle_bool _ 0); cbn [flat_map].
  - rewrite app_nil_r. exact (NoDup_app_remove_r _ _ Hu).
  - apply NoDup_app; [exact (NoDup_app_remove_r _ _ Hu) | apply IH|].
    intros t Ht Hlater. apply in_flat_map in Hlater as [td [Htd Htt]].
    pose proof (fillPattern_unpicked rest _ _ td t Htd Htt) as Hsrc.
    destruct (jsstring_eq_dec (ft_style td) style) as [Es|Es].
    + rewrite Es in Hsrc. unfold unpicked, bump in Hsrc. rewrite jseqb_refl in Hsrc.
      rewrite Nat.add_comm, <- skipn_skipn, Er in Hsrc.
      rewrite skipn_app, skipn_all, Nat.sub_diag in Hsrc. cbn [app skipn] in Hsrc.
      exact (apart_in_NoDup _ _ t Hu Ht Hsrc).
    + apply unpicked_pool, poolOf_genre in Hsrc as [_ [Hg _]].
      assert (Hc : In t (poolOf merged style)).
      { apply (unpicked_pool picks). unfold unpicked. rewrite Er.
        apply in_or_app. now left. }
      apply poolOf_genre in Hc as [_ [Hg' _]]. congruence.
Qed.

End FallbackFacts.

(** X16: the fallback planner keeps to its budget.  The budget is
    [max(60, floor(minutes) * 60)] seconds, so never less than a minute;
    the seconds of the tandas sum to at most the budget; every tanda lasts
    a positive number of seconds, the sum of the durations of its tracks;
    there are at most as many tandas as entries in the pattern; and the
    cortinas are handed back untouched. *)
Theorem makePlan_keeps_to_the_budget :
  forall (C : Type) (merged : list PlanTrack) (sizes : jsstring -> option Q)
         (pattern : list jsstring) (minutes : Q) (cortinas : C),
    let plan := makePlan merged sizes pattern minutes cortinas in
    (60 <= timeBudget minutes)%Q /\
    (inject_Z (Qfloor minutes) * 60 <= timeBudget minutes)%Q /\
    (plannedSeconds (fst plan) <= timeBudget minutes)%Q /\
    (forall td, In td (fst plan) ->
       (0 < ft_seconds td)%Q /\ ft_seconds td = sumTrackSeconds (ft_tracks td)) /\
    (List.length (fst plan) <= List.length pattern)%nat /\
    snd plan = cortinas.
Proof.
  intros C merged sizes pattern minutes cortinas plan. subst plan.
  unfold makePlan. cbn [fst snd].
  assert (H60 : (60 <= timeBudget minutes)%Q) by apply Qmaxq_spec.
  split; [exact H60|]. split.
  - unfold timeBudget, Qmaxq.
    destruct (Qle_bool 60 (inject_Z (Qfloor minutes) * 60)) eqn:E; [apply Qle_refl|].
    apply Qlt_le_weak, Qnot_le_lt. intro H. apply Qle_bool_iff in H. congruence.
  - split; [apply fillPattern_budget; lra|]. split.
    + intros td H.
      destruct (fillPattern_tandas merged sizes pattern _ _ td H) as (_ & _ & H1 & H2 & _).
      now split.
    + split; [apply fillPattern_length | reflexivity].
Qed.

Lemma makePlan_keeps_to_the_budget_witness :
  (plannedSeconds
     (fst (makePlan MoreExamples.smallCatalog MoreExamples.noSizes
             [js "Tango"; js "Vals"; js "Tango"] 10 tt)) <= timeBudget 10)%Q /\
  List.length
    (fst (makePlan MoreExamples.smallCatalog MoreExamples.noSizes
            [js "Tango"; js "Vals"; js "Tango"] 10 tt)) = 1%nat.
Proof.
  destruct (makePlan_keeps_to_the_budget unit MoreExamples.smallCatalog
              MoreExamples.noSizes [js "Tango"; js "Vals"; js "Tango"] 10 tt)
    as (_ & _ & H & _).
  split; [exact H | vm_compute; reflexivity].
Defined.

(** X17: the fallback planner never uses a track twice.  Every track of a
    tanda is an entry of the catalog whose genre is exactly the style of
    the tanda, one of Tango, Vals and Milonga; a tanda has the style of a
    pattern entry, at least one track and no more than its size rounded
    up; and when the catalog lists no entry twice, no track occurs twice
    in the plan. *)
Theorem makePlan_never_reuses_a_track :
  forall (C : Type) (merged : list PlanTrack) (sizes : jsstring -> option Q)
         (pattern : list jsstring) (minutes : Q) (cortinas : C),
    let tandas := fst (makePlan merged sizes pattern minutes cortinas) in
    (forall td t, In td tandas -> In t (ft_tracks td) ->
       In t merged /\ genreOf t = GOne (ft_style td) /\
       In (ft_style td) [js "Tango"; js "Vals"; js "Milonga"]) /\
    (forall td, In td tandas ->
       In (ft_style td) pattern /\ ft_tracks td <> [] /\
       (inject_Z (Z.of_nat (List.length (ft_tracks td))) - 1
        < sizeOf sizes (ft_style td))%Q) /\
    (NoDup merged -> NoDup (flat_map ft_tracks tandas)).
Proof.
  intros C merged sizes pattern minutes cortinas tandas. subst tandas.
  unfold makePlan. cbn [fst]. split; [|split].
  - intros td t Htd Ht.
    apply (poolOf_genre merged (ft_style td) t).
    apply (unpicked_pool merged (fun _ => 0%nat)).
    eapply fillPattern_unpicked; eassumption.
  - intros td Htd.
    destruct (fillPattern_tandas merged sizes pattern _ _ td Htd)
      as (H1 & H2 & _ & _ & H3).
    repeat split; assumption.
  - intro Hn. now apply fillPattern_NoDup.
Qed.

Lemma makePlan_never_reuses_a_track_witness :
  NoDup (flat_map ft_tracks
           (fst (makePlan MoreExamples.smallCatalog MoreExamples.noSizes
                   [js "Tango"; js "Vals"; js "Tango"] 30 tt))).
Proof.
  destruct (makePlan_never_reuses_a_track unit MoreExamples.smallCatalog
              MoreExamples.noSizes [js "Tango"; js "Vals"; js "Tango"] 30 tt)
    as (_ & _ & H).
  apply H. unfold MoreExamples.smallCatalog.
  repeat (constructor; [cbn; intuition discriminate|]). constructor.
Defined.
(* ------------------------------------------------------------------ *)
(** ** The helpers of listCortinas *)
(* ------------------------------------------------------------------ *)

Section DedupeFacts.

Context {A : Type} (keyFn : A -> jsstring).

Lemma dedupeFrom_spec (arr : list A) :
  forall seen,
    let out := dedupeFrom keyFn seen arr in
    NoDup (map keyFn out) /\
    (forall x, In x out ->
       Set_has seen (keyFn x) = false /\
       exists a b, arr = a ++ x :: b /\ ~ In (keyFn x) (map keyFn a)) /\
    (forall x, In x arr ->
       Set_has seen (keyFn x) = true \/ In (keyFn x) (map keyFn out)).
Proof.
  induction arr as [|it r IH]; intros seen out; subst out; cbn [dedupeFrom].
  - split; [constructor|]. split; intros x [].
  - destruct (Set_has seen (keyFn it)) eqn:Es.
    + destruct (IH seen) as [H1 [H2 H3]]. split; [exact H1|]. split.
      * intros x Hx. destruct (H2 x Hx) as [Hs [a [b [E Hn]]]].
        split; [exact Hs|]. exists (it :: a), b. split; [now rewrite E|].
        cbn [map]. intros [Hk|Hk]; [congruence | now apply Hn].
      * intros x [<-|Hx]; [now left | now apply H3].
    + destruct (IH (Set_add seen (keyFn it))) as [H1 [H2 H3]].
      assert (Hfresh : forall x, In x (dedupeFrom keyFn (Set_add seen (keyFn it)) r) ->
                Set_has seen (keyFn x) = false /\ keyFn x <> keyFn it).
      { intros x Hx. destruct (H2 x Hx) as [Hs _].
        split.
        - destruct (Set_has seen (keyFn x)) eqn:E; [|reflexivity].
          rewrite <- Hs. symmetry. apply Set_has_add. now left.
        - intro E.
          assert (Set_has (Set_add seen (keyFn it)) (keyFn x) = true)
            by (apply Set_has_add; now right).
          congruence. }
      split; [|split].
      * cbn [map]. constructor; [|exact H1].
        intro Hin. apply in_map_iff in Hin as [x [Ex Hx]].
        now apply (Hfresh x Hx).
      * intros x [<-|Hx].
        -- split; [exact Es|]. exists [], r. split; [reflexivity | intros []].
        -- destruct (Hfresh x Hx) as [Hs Hne]. split; [exact Hs|].
           destruct (H2 x Hx) as [_ [a [b [E Hn]]]].
           exists (it :: a), b. split; [now rewrite E|].
           cbn [map]. intros [Hk|Hk]; [now apply Hne | now apply Hn].
      * intros x [<-|Hx]; [right; now left|].
        destruct (H3 x Hx) as [H|H]; [|right; now right].
        apply Set_has_add in H as [H|H]; [now left|].
        right. left. now symmetry.
Qed.

Lemma dedupeFrom_fixed (arr : list A) :
  forall seen,
    NoDup (map keyFn arr) ->
    (forall x, In x arr -> Set_has seen (keyFn x) = false) ->
    dedupeFrom keyFn seen arr = arr.
Proof.
  induction arr as [|it r IH]; intros seen Hn Hs; [reflexivity|].
  cbn [dedupeFrom]. rewrite (Hs it (or_introl eq_refl)). f_equal.
  cbn [map] in Hn. apply NoDup_cons_iff in Hn as [Hit Hn].
  apply IH; [exact Hn|]. intros x Hx.
  destruct (Set_has (Set_add seen (keyFn it)) (keyFn x)) eqn:E; [|reflexivity].
  apply Set_has_add in E as [E|E].
  - rewrite (Hs x (or_intror Hx)) in E. discriminate.
  - exfalso. apply Hit. rewrite <- E. now apply in_map.
Qed.

End DedupeFacts.

(** X18: [dedupeBy] keeps one row per key, the first: the keys of the
    result are pairwise distinct and are exactly the keys of the input;
    a row of the result stands in the input with no row of the same key
    before it; and running it again, or on rows whose keys are already
    distinct, changes nothing. *)
Theorem dedupeBy_keeps_first_of_each_key :
  forall (A : Type) (keyFn : A -> jsstring) (arr : list A),
    let out := dedupeBy arr keyFn in
    NoDup (map keyFn out) /\
    (forall k, In k (map keyFn arr) <-> In k (map keyFn out)) /\
    (forall x, In x out ->
       exists a b, arr = a ++ x :: b /\ ~ In (keyFn x) (map keyFn a)) /\
    dedupeBy out keyFn = out /\
    (NoDup (map keyFn arr) -> out = arr).
Proof.
  intros A keyFn arr out. subst out. unfold dedupeBy.
  destruct (dedupeFrom_spec keyFn arr []) as [H1 [H2 H3]].
  split; [exact H1|]. split; [|split; [|split]].
  - intro k. split.
    + intro Hk. apply in_map_iff in Hk as [x [<- Hx]].
      destruct (H3 x Hx) as [H|H]; [discriminate | exact H].
    + intro Hk. apply in_map_iff in Hk as [x [<- Hx]].
      destruct (H2 x Hx) as [_ [a [b [E _]]]]. apply in_map. rewrite E.
      apply in_or_app. right. now left.
  - intros x Hx. now destruct (H2 x Hx) as [_ H].
  - apply dedupeFrom_fixed; [exact H1 | reflexivity].
  - intro Hn. apply dedupeFrom_fixed; [exact Hn | reflexivity].
Qed.

Lemma dedupeBy_keeps_first_of_each_key_witness :
  dedupeBy [js "a"; js "b"; js "c"] (fun s => s) = [js "a"; js "b"; js "c"].
Proof.
  destruct (dedupeBy_keeps_first_of_each_key jsstring (fun s => s)
              [js "a"; js "b"; js "c"]) as (_ & _ & _ & _ & H).
  apply H. repeat (constructor; [cbn; intuition discriminate|]). constructor.
Defined.

Section ShuffleFacts.

Context {A : Type}.

Lemma setAt_at (front : list A) (old x : A) (back : list A) :
  setAt (List.length front) x (front ++ old :: back) = front ++ x :: back.
Proof.
  unfold setAt. rewrite firstn_app, firstn_all, Nat.sub_diag. cbn [firstn].
  rewrite app_nil_r. f_equal. f_equal.
  change (S (List.length front)) with (1 + List.length front)%nat.
  rewrite <- skipn_skipn, skipn_app, skipn_all, Nat.sub_diag. reflexivity.
Qed.

Lemma split_at (a : list A) (i : nat) (x : A) :
  nth_error a i = Some x ->
  exists front back, a = front ++ x :: back /\ List.length front = i.
Proof.
  intro H. exists (firstn i a), (skipn (S i) a). split.
  - symmetry. now apply firstn_skipn_middle.
  - apply firstn_length_le. apply Nat.lt_le_incl, nth_error_Some. congruence.
Qed.

Lemma split_two (a : list A) (i j : nat) (x y : A) :
  (i < j)%nat -> nth_error a i = Some x -> nth_error a j = Some y ->
  exists front mid back,
    a = front ++ x :: mid ++ y :: back /\
    List.length front = i /\ List.length (front ++ x :: mid) = j.
Proof.
  intros Hij Hi Hj. destruct (split_at a i x Hi) as [front [rest [E L]]].
  assert (Hr : nth_error rest (j - S i) = Some y).
  { rewrite E in Hj. rewrite nth_error_app2 in Hj by lia.
    rewrite L in Hj. destruct (j - i)%nat as [|d] eqn:Ed; [lia|].
    cbn [nth_error] in Hj. now replace (j - S i)%nat with d by lia. }
  destruct (split_at rest _ y Hr) as [mid [back [E' L']]].
  exists front, mid, back. split; [now rewrite E, E'|]. split; [exact L|].
  rewrite length_app. cbn [List.length]. lia.
Qed.

Lemma swap_rearranges (i j : nat) (a : list A) : Permutation (swap i j a) a.
Proof.
  unfold swap.
  destruct (nth_error a i) as [x|] eqn:Hi; [|apply Permutation_refl].
  destruct (nth_error a j) as [y|] eqn:Hj; [|apply Permutation_refl].
  destruct (Nat.lt_trichotomy i j) as [Hlt|[->|Hlt]].
  - destruct (split_two a i j x y Hlt Hi Hj) as [f [m [b [E [L1 L2]]]]].
    rewrite E, <- L1, setAt_at.
    replace (f ++ y :: m ++ y :: b) with ((f ++ y :: m) ++ y :: b)
      by (rewrite <- app_assoc; reflexivity).
    replace (List.length f) with i by (symmetry; exact L1).
    assert (L3 : List.length (f ++ y :: m) = j)
      by (rewrite length_app in *; cbn [List.length] in *; lia).
    rewrite <- L3, setAt_at, <- app_assoc. cbn [app].
    apply Permutation_app_head.
    apply Permutation_trans with (y :: x :: m ++ b).
    + apply perm_skip. apply Permutation_sym, Permutation_middle.
    + apply Permutation_trans with (x :: y :: m ++ b); [apply perm_swap|].
      apply perm_skip. apply Permutation_middle.
  - rewrite Hi in Hj. injection Hj as <-.
    destruct (split_at a j x Hi) as [f [b [E L]]].
    rewrite E, <- L, setAt_at, setAt_at. apply Permutation_refl.
  - destruct (split_two a j i y x Hlt Hj Hi) as [f [m [b [E [L1 L2]]]]].
    rewrite E.
    replace (f ++ y :: m ++ x :: b) with ((f ++ y :: m) ++ x :: b)
      by (rewrite <- app_assoc; reflexivity).
    rewrite <- L2, setAt_at, <- app_assoc. cbn [app].
    rewrite <- L1, setAt_at, <- app_assoc. cbn [app].
    apply Permutation_app_head.
    apply Permutation_trans with (x :: y :: m ++ b).
    + apply perm_skip. apply Permutation_sym, Permutation_middle.
    + apply Permutation_trans with (y :: x :: m ++ b); [apply perm_swap|].
      apply perm_skip. apply Permutation_middle.
Qed.

Lemma shuffleDown_rearranges (draws : nat -> Q) (i : nat) :
  forall (k : nat) (a : list A), Permutation (shuffleDown draws i k a) a.
Proof.
  induction i as [|i IH]; intros k a; cbn [shuffleDown]; [apply Permutation_refl|].
  eapply Permutation_trans; [apply IH | apply swap_rearranges].
Qed.

Lemma shuffled_rearranges (draws : nat -> Q) (a : list A) :
  Permutation (shuffled draws a) a.
Proof. apply shuffleDown_rearranges. Qed.

End ShuffleFacts.

Section DrawFacts.

Local Open Scope Q_scope.

Lemma randomBelow_range (u : Q) (n : nat) :
  0 <= u < 1 -> (randomBelow u (S n) <= n)%nat.
Proof.
  intros [H0 H1]. unfold randomBelow.
  set (x := u * inject_Z (Z.of_nat (S n))).
  assert (Hn : 0 < inject_Z (Z.of_nat (S n))).
  { change 0 with (inject_Z 0). rewrite <- Zlt_Qlt. lia. }
  assert (Hx : x < inject_Z (Z.of_nat (S n))) by (unfold x; nra).
  pose proof (Qfloor_le x) as Hf.
  assert (Hz : (Qfloor x < Z.of_nat (S n))%Z).
  { rewrite Zlt_Qlt. lra. }
  lia.
Qed.

End DrawFacts.

(** X19: [shuffled] only rearranges: for draws of [Math.random()], which
    lie in [0, 1), every index it swaps with is at or below the current
    one, and the result holds the same rows as the input, each as often,
    so none is lost or doubled; an array of at most one row comes back as
    it is. *)
Theorem shuffled_only_rearranges :
  forall (A : Type) (draws : nat -> Q) (arr : list A),
    (forall k, 0 <= draws k < 1)%Q ->
    Permutation (shuffled draws arr) arr /\
    List.length (shuffled draws arr) = List.length arr /\
    (forall k i, (randomBelow (draws k) (S i) <= i)%nat) /\
    ((List.length arr <= 1)%nat -> shuffled draws arr = arr).
Proof.
  intros A draws arr Hd.
  pose proof (shuffled_rearranges draws arr) as HP.
  split; [exact HP|]. split; [exact (Permutation_length HP)|]. split.
  - intros k i. apply randomBelow_range, Hd.
  - intro H. unfold shuffled.
    replace (List.length arr - 1)%nat with 0%nat by lia. reflexivity.
Qed.

Lemma shuffled_only_rearranges_witness :
  Permutation (shuffled (fun _ => 1 # 2) [js "a"; js "b"; js "c"; js "d"])
              [js "a"; js "b"; js "c"; js "d"].
Proof.
  refine (proj1 (shuffled_only_rearranges jsstring (fun _ => 1 # 2)
                   [js "a"; js "b"; js "c"; js "d"] _)).
  intro k. split; [discriminate | reflexivity].
Defined.

Section CortinaPool.

Local Open Scope Q_scope.

Lemma Qmaxq_floor0 (n : Z) : Qmaxq 0 (inject_Z n) == inject_Z (Z.max 0 n).
Proof.
  unfold Qmaxq. destruct (Qle_bool 0 (inject_Z n)) eqn:E.
  - apply Qle_bool_iff in E. change 0 with (inject_Z 0) in E.
    rewrite <- Zle_Qle in E. now replace (Z.max 0 n) with n by lia.
  - assert (H : ~ 0 <= inject_Z n) by (intro H; apply Qle_bool_iff in H; congruence).
    change 0 with (inject_Z 0) in H. rewrite <- Zle_Qle in H.
    now replace (Z.max 0 n) with 0%Z by lia.
Qed.

Lemma target_integral (includeFinal : bool) (n : Z) :
  (if includeFinal then Qmaxq 0 (inject_Z n) else Qmaxq 0 (inject_Z n - 1)) ==
  inject_Z (Z.max 0 (if includeFinal then n else n - 1)).
Proof.
  destruct includeFinal; [apply Qmaxq_floor0|].
  rewrite <- Qmaxq_floor0. unfold Qmaxq.
  assert (E : inject_Z n - 1 == inject_Z (n - 1)).
  { unfold Z.sub. rewrite inject_Z_plus, inject_Z_opp. reflexivity. }
  rewrite (Qleb_comp 0 0 (Qeq_refl 0) _ _ E).
  destruct (Qle_bool 0 (inject_Z (n - 1))); [exact E | reflexivity].
Qed.

Lemma dedupeBy_nonempty {A : Type} (keyFn : A -> jsstring) (arr : list A) :
  arr <> [] -> dedupeBy arr keyFn <> [].
Proof. destruct arr; [contradiction | discriminate]. Qed.

Lemma dedupeBy_incl {A : Type} (keyFn : A -> jsstring) (arr : list A) (x : A) :
  In x (dedupeBy arr keyFn) -> In x arr.
Proof.
  intro H. destruct (dedupeFrom_spec keyFn arr []) as [_ [H2 _]].
  destruct (H2 x H) as [_ [a [b [E _]]]]. rewrite E.
  apply in_or_app. right. now left.
Qed.

Lemma cycled_spec {A : Type} (count : nat) (base : list A) :
  base <> [] ->
  List.length (cycled count base) = count /\
  (forall x, In x (cycled count base) -> In x base) /\
  (forall i, (i < count)%nat ->
     nth_error (cycled count base) i = nth_error base (i mod List.length base)).
Proof.
  intro Hne. destruct base as [|d l]; [contradiction|].
  unfold cycled. set (base := d :: l).
  assert (Hlen : List.length base <> 0%nat) by discriminate.
  split; [now rewrite length_map, length_seq|]. split.
  - intros x Hx. apply in_map_iff in Hx as [i [<- _]]. apply nth_In.
    now apply Nat.mod_upper_bound.
  - intros i Hi. rewrite nth_error_map, nth_error_seq.
    destruct (i <? count)%nat eqn:Ei; [|apply Nat.ltb_ge in Ei; lia].
    cbn [option_map Nat.add]. symmetry. apply nth_error_nth'.
    now apply Nat.mod_upper_bound.
Qed.

End CortinaPool.

(** X20: [listCortinas] returns the right number of cortinas.  Without a
    pool it returns nothing; without a count it returns the whole pool,
    rearranged.  For a count [n] and a pool that is not empty it returns
    exactly [max(0, n - 1)] rows ([max(0, n)] with [includeFinal]), all
    of them rows of the pool; no key occurs twice among them as long as
    the pool has that many distinct keys, and otherwise the rows are
    cycled: without shuffling, row [i] is row [i mod length] of the
    de-duplicated pool. *)
Theorem selectCortinas_returns_the_right_number :
  forall (pool : list CortinaRow) (includeFinal shuffle : bool) (draws : nat -> Q),
    (forall k, 0 <= draws k < 1)%Q ->
    (forall count, selectCortinas [] count includeFinal shuffle draws = []) /\
    Permutation (selectCortinas pool None includeFinal shuffle draws) pool /\
    (forall n : Z,
       pool <> [] ->
       let target := Z.to_nat (Z.max 0 (if includeFinal then n else n - 1)) in
       let distinct := dedupeBy pool rowKey in
       let out := selectCortinas pool (Some (inject_Z n)) includeFinal shuffle draws in
       List.length out = target /\
       (forall r, In r out -> In r pool) /\
       ((target <= List.length distinct)%nat -> NoDup (map rowKey out)) /\
       (shuffle = false ->
        forall i, (i < target)%nat ->
          nth_error out i = nth_error distinct (i mod List.length distinct))).
Proof.
  intros pool includeFinal shuffle draws _.
  split; [reflexivity|]. split.
  - unfold selectCortinas. destruct pool as [|r0 pool]; [apply Permutation_refl|].
    destruct shuffle; [apply shuffled_rearranges | apply Permutation_refl].
  - intros n Hne target distinct out. subst out.
    destruct pool as [|r0 rest]; [contradiction|]. unfold selectCortinas.
    set (pool := r0 :: rest) in *.
    set (tq := if includeFinal then Qmaxq 0 (inject_Z n) else Qmaxq 0 (inject_Z n - 1)).
    set (T := Z.max 0 (if includeFinal then n else n - 1)).
    assert (Htq : tq == inject_Z T) by apply target_integral.
    assert (Hfloor : Qfloor tq = T)
      by (rewrite (Qfloor_comp_Proper _ _ Htq); apply Qfloor_Z).
    assert (Hceil : Qceiling tq = T)
      by (rewrite (Qceiling_comp_Proper _ _ Htq); apply Qceiling_Z).
    rewrite Hfloor, Hceil. fold distinct.
    set (base := if shuffle then shuffled draws distinct else distinct).
    assert (Hbase : Permutation base distinct).
    { unfold base. destruct shuffle; [apply shuffled_rearranges | apply Permutation_refl]. }
    assert (Hd : distinct <> []) by (apply dedupeBy_nonempty; exact Hne).
    assert (Hb : base <> []).
    { intro E. rewrite E in Hbase. apply Permutation_nil in Hbase. contradiction. }
    assert (Hin : forall r, In r base -> In r pool).
    { intros r Hr. apply (dedupeBy_incl rowKey). exact (Permutation_in _ Hbase Hr). }
    assert (Hkeys : NoDup (map rowKey base)).
    { apply (Permutation_NoDup (Permutation_map rowKey (Permutation_sym Hbase))).
      apply (dedupeFrom_spec rowKey pool []). }
    pose proof (Permutation_length Hbase) as Hlen.
    fold target.
    destruct (Qeq_bool tq 0) eqn:Ez.
    + apply Qeq_bool_iff in Ez. rewrite Htq in Ez. change 0%Q with (inject_Z 0) in Ez.
      rewrite inject_Z_injective in Ez.
      assert (Ht : target = 0%nat) by (unfold target; fold T; lia).
      rewrite Ht. split; [reflexivity|]. split; [intros r []|].
      split; [constructor|]. intros _ i Hi. lia.
    + destruct (Qle_bool tq (lengthQ base)) eqn:El.
      * apply Qle_bool_iff in El. rewrite Htq in El. unfold lengthQ in El.
        rewrite <- Zle_Qle in El.
        assert (Ht : (target <= List.length base)%nat) by (unfold target; fold T; lia).
        split; [rewrite length_firstn; lia|]. split.
        -- intros r Hr. apply Hin. exact (In_firstn _ _ _ Hr).
        -- split.
           ++ intros _. rewrite <- firstn_map. now apply NoDup_firstn.
           ++ intros Hs i Hi.
              assert (Eb : base = distinct) by (unfold base; now rewrite Hs).
              rewrite Eb, nth_error_firstn.
              replace (i <? Z.to_nat T)%nat with true
                by (symmetry; apply Nat.ltb_lt; exact Hi).
              rewrite Nat.mod_small; [reflexivity|]. lia.
      * assert (Hgt : (List.length base < target)%nat).
        { assert (H : ~ tq <= lengthQ base)
            by (intro H; apply Qle_bool_iff in H; congruence).
          rewrite Htq in H. unfold lengthQ in H. rewrite <- Zle_Qle in H.
          unfold target. fold T. lia. }
        destruct (cycled_spec target base Hb) as [C1 [C2 C3]].
        split; [exact C1|]. split; [intros r Hr; apply Hin, C2, Hr|].
        split; [intro H; lia|].
        intros Hs i Hi. etransitivity; [exact (C3 i Hi)|].
        assert (Eb : base = distinct) by (unfold base; now rewrite Hs).
        now rewrite Eb.
Qed.

Lemma selectCortinas_returns_the_right_number_witness :
  List.length
    (selectCortinas
       [{| cr_id := js "c1"; cr_title := js "Swing"; cr_seconds := 60;
           cr_approxMinutes := 1 |};
        {| cr_id := js "c2"; cr_title := js "Jazz"; cr_seconds := 45;
           cr_approxMinutes := 1 |}]
       (Some (inject_Z 6)) false true (fun _ => 1 # 3)) = 5%nat.
Proof.
  destruct (selectCortinas_returns_the_right_number
              [{| cr_id := js "c1"; cr_title := js "Swing"; cr_seconds := 60;
                  cr_approxMinutes := 1 |};
               {| cr_id := js "c2"; cr_title := js "Jazz"; cr_seconds := 45;
                  cr_approxMinutes := 1 |}]
              false true (fun _ => 1 # 3)) as (_ & _ & H).
  - intro k. split; [discriminate | reflexivity].
  - destruct (H 6%Z) as [L _]; [discriminate | exact L].
Defined.
(* ------------------------------------------------------------------ *)
(** ** The weighted orchestra pick *)
(* ------------------------------------------------------------------ *)

Section AvailabilityFacts.

Local Open Scope Z_scope.

Lemma availableFor_countInto (k o : jsstring) (m : list (jsstring * Z)) :
  availableFor (countInto k m) o =
  availableFor m o + (if jseqb k o then 1 else 0).
Proof.
  induction m as [|[k' n] r IH].
  - unfold availableFor. cbn [countInto find fst snd].
    destruct (jseqb k o); reflexivity.
  - cbn [countInto]. destruct (jseqb k' k) eqn:Ek.
    + apply jseqb_eq in Ek. subst k'. unfold availableFor. cbn [find fst snd].
      destruct (jseqb k o); cbn [snd]; lia.
    + unfold availableFor in *. cbn [find fst snd].
      destruct (jseqb k' o) eqn:Eo; [|exact IH].
      apply jseqb_eq in Eo. subst k'. rewrite jseqb_neq in Ek.
      destruct (jseqb k o) eqn:E; [|lia].
      apply jseqb_eq in E. subst k. now contradiction Ek.
Qed.

Lemma countAvailable_from (style : jsstring) (isUsed : option jsstring -> bool)
    (o : jsstring) (ws : list Track) :
  forall m,
    availableFor
      (fold_left (fun m t => if countsFor style isUsed t
                             then countInto (orchestraOf t) m else m) ws m) o =
    availableFor m o +
    Z.of_nat (List.length
                (filter (fun t => countsFor style isUsed t && jseqb (orchestraOf t) o)
                        ws)).
Proof.
  induction ws as [|t ws IH]; intro m; cbn [fold_left filter List.length]; [lia|].
  rewrite IH. destruct (countsFor style isUsed t); cbn [andb]; [|reflexivity].
  rewrite availableFor_countInto.
  destruct (jseqb (orchestraOf t) o); cbn [List.length]; lia.
Qed.

Lemma countAvailable_value (style : jsstring) (isUsed : option jsstring -> bool)
    (o : jsstring) (ws : list Track) :
  availableFor (countAvailableByOrchestra ws style isUsed) o =
  Z.of_nat (List.length
              (filter (fun t => countsFor style isUsed t && jseqb (orchestraOf t) o)
                      ws)).
Proof. unfold countAvailableByOrchestra. now rewrite countAvailable_from. Qed.

End AvailabilityFacts.

Section BagFacts.

Local Open Scope Q_scope.

Variable draws : nat -> Q.
Hypothesis draws_range : forall k, 0 <= draws k < 1.

Variable availabilityMap : list (jsstring * Z).
Variable window : list jsstring.
Variable sizeTarget : Z.

Lemma diversityMultiplier_pos (avail : Z) : 0 < diversityMultiplier avail.
Proof.
  unfold diversityMultiplier.
  destruct (avail <=? 15)%Z; [reflexivity|]. destruct (30 <? avail)%Z; reflexivity.
Qed.

Lemma weightOf_sign (avail rc : Z) (u : Q) :
  0 <= u -> (0 <= rc)%Z -> (0 < weightOf avail rc u <-> (0 < avail)%Z).
Proof.
  intros Hu Hrc. unfold weightOf.
  set (j := (85 # 100) + (30 # 100) * u).
  set (d := 1 / (1 + inject_Z rc)).
  set (mu := diversityMultiplier avail).
  assert (Hj : 0 < j) by (unfold j; lra).
  assert (Hd : 0 < d).
  { unfold d. apply Qlt_shift_div_l.
    - assert (0 <= inject_Z rc) by (change 0 with (inject_Z 0); now rewrite <- Zle_Qle).
      lra.
    - lra. }
  assert (Hm : 0 < mu) by apply diversityMultiplier_pos.
  assert (Hp : 0 < j * d * mu).
  { apply Qmult_lt_0_compat; [apply Qmult_lt_0_compat|]; assumption. }
  assert (E : inject_Z avail * j * d * mu == inject_Z avail * (j * d * mu)) by ring.
  rewrite E. split.
  - intro H. destruct (Z_lt_le_dec 0 avail) as [Ha|Ha]; [exact Ha|]. exfalso.
    assert (inject_Z avail <= 0) by (change 0 with (inject_Z 0); now rewrite <- Zle_Qle).
    nra.
  - intro Ha.
    assert (0 < inject_Z avail) by (change 0 with (inject_Z 0); now rewrite <- Zlt_Qlt).
    now apply Qmult_lt_0_compat.
Qed.

Lemma recentCount_nonneg (orch : jsstring) : (0 <= recentCount window orch)%Z.
Proof. unfold recentCount. lia. Qed.

Lemma buildBag_spec (suggestions : list (option jsstring)) :
  forall k,
    let bag := fst (buildBag draws k availabilityMap window sizeTarget suggestions) in
    (forall x, In x bag ->
       (exists s, In s suggestions /\ w_orch x = trim (optStr s)) /\
       (sizeTarget <= availableFor availabilityMap (w_orch x))%Z /\
       (0 < availableFor availabilityMap (w_orch x))%Z) /\
    (forall s, In s suggestions ->
       (sizeTarget <= availableFor availabilityMap (trim (optStr s)))%Z ->
       (0 < availableFor availabilityMap (trim (optStr s)))%Z ->
       exists x, In x bag /\ w_orch x = trim (optStr s)).
Proof.
  induction suggestions as [|s rest IH]; intros k bag; subst bag.
  - split; [intros x []|intros s []].
  - cbn [buildBag].
    set (orch := trim (optStr s)).
    set (avail := availableFor availabilityMap orch).
    pose proof (weightOf_sign avail (recentCount window orch) (draws k)
                  (proj1 (draws_range k)) (recentCount_nonneg orch)) as Hw.
    destruct (avail <? sizeTarget)%Z eqn:Ea.
    + apply Z.ltb_lt in Ea. destruct (IH k) as [H1 H2]. split.
      * intros x Hx. destruct (H1 x Hx) as [[s' [Hs' E]] Hrest].
        split; [exists s'; split; [now right | exact E] | exact Hrest].
      * intros s' [<-|Hs'] Hsz Hpos; [fold orch in Hsz; fold avail in Hsz; lia|].
        now apply H2.
    + apply Z.ltb_ge in Ea. specialize (IH (S k)).
      destruct (buildBag draws (S k) availabilityMap window sizeTarget rest)
        as [bag k'].
      cbn [fst] in IH. destruct IH as [H1 H2].
      assert (Hold : forall x, In x bag ->
                (exists s0, In s0 (s :: rest) /\ w_orch x = trim (optStr s0)) /\
                (sizeTarget <= availableFor availabilityMap (w_orch x))%Z /\
                (0 < availableFor availabilityMap (w_orch x))%Z).
      { intros x Hx. destruct (H1 x Hx) as [[s' [Hs' E]] Hrest].
        split; [exists s'; split; [now right | exact E] | exact Hrest]. }
      destruct (Qltb 0 (weightOf avail (recentCount window orch) (draws k))) eqn:Ew;
        cbn [fst].
      * apply Qltb_true in Ew. apply Hw in Ew. split.
        -- intros x [<-|Hx]; [|now apply Hold]. cbn [w_orch]. fold avail.
           split; [exists s; split; [now left | reflexivity]|]. split; assumption.
        -- intros s' [<-|Hs'] Hsz Hpos.
           ++ eexists. split; [now left | reflexivity].
           ++ destruct (H2 s' Hs' Hsz Hpos) as [x [Hx E]].
              exists x. split; [now right | exact E].
      * apply Qltb_false in Ew. split; [exact Hold|].
        intros s' [<-|Hs'] Hsz Hpos; [|now apply H2].
        fold orch in Hpos. fold avail in Hpos. apply Hw in Hpos. lra.
Qed.

Lemma roulette_member (bag : list Weighted) :
  forall r o, roulette r bag = Some o -> exists x, In x bag /\ w_orch x = o.
Proof.
  induction bag as [|x rest IH]; intros r o; cbn [roulette]; [discriminate|].
  destruct (Qle_bool (r - w_weight x) 0).
  - intro E. injection E as <-. exists x. split; [now left | reflexivity].
  - intro E. destruct (IH _ _ E) as [y [Hy Ey]]. exists y. split; [now right | exact Ey].
Qed.

End BagFacts.

(** X21: [pickOrchestraWeighted] over the counts of
    [countAvailableByOrchestra] only picks an orchestra that can fill the
    tanda.  A picked orchestra is the trimmed name of a suggestion, and
    the working set holds at least [sizeTarget] tracks, and at least one,
    of that orchestra that are unused, have an id and have exactly the
    style as first genre; and nothing is picked exactly when no suggestion
    names such an orchestra.  The draws of [Math.random()] lie in
    [0, 1). *)
Theorem pickOrchestraWeighted_can_fill_the_tanda :
  forall (draws : nat -> Q) (workingSet : list Track) (style : jsstring)
         (isUsed : option jsstring -> bool) (suggestions : list (option jsstring))
         (recentOrchestras : list jsstring) (sizeTarget : Z) (windowLen : nat),
    (forall k, 0 <= draws k < 1)%Q ->
    let available := fun o =>
      Z.of_nat (List.length
                  (filter (fun t => countsFor style isUsed t &&
                                    jseqb (orchestraOf t) o) workingSet)) in
    let eligible := fun o => (sizeTarget <= available o)%Z /\ (0 < available o)%Z in
    let pick := pickOrchestraWeighted draws suggestions
                  (countAvailableByOrchestra workingSet style isUsed)
                  recentOrchestras sizeTarget windowLen in
    (forall o, pick = Some o ->
       (exists s, In s suggestions /\ o = trim (optStr s)) /\ eligible o) /\
    (pick = None <-> forall s, In s suggestions -> ~ eligible (trim (optStr s))).
Proof.
  intros draws ws style isUsed suggestions recent sizeTarget windowLen Hd
         available eligible pick.
  assert (Hav : forall o, availableFor (countAvailableByOrchestra ws style isUsed) o
                          = available o)
    by (intro o; apply countAvailable_value).
  pose proof (buildBag_spec draws Hd (countAvailableByOrchestra ws style isUsed)
                (lastN windowLen recent) sizeTarget suggestions 0) as HB.
  cbv zeta in HB. subst pick. unfold pickOrchestraWeighted.
  destruct suggestions as [|s0 rest] eqn:Es.
  - split; [discriminate|]. split; [intros _ s [] | reflexivity].
  - rewrite <- Es in *.
    destruct (buildBag draws 0 (countAvailableByOrchestra ws style isUsed)
                (lastN windowLen recent) sizeTarget suggestions) as [bag k].
    cbn [fst] in HB. destruct HB as [H1 H2].
    assert (Hmember : forall x, In x bag ->
              (exists s, In s suggestions /\ w_orch x = trim (optStr s)) /\
              eligible (w_orch x)).
    { intros x Hx. destruct (H1 x Hx) as [Hs [Ha Hp]]. rewrite Hav in Ha, Hp.
      split; [exact Hs | split; assumption]. }
    destruct bag as [|x0 bag'] eqn:Eb.
    + split; [discriminate|]. split; [|reflexivity].
      intros _ s Hs [Ha Hp]. rewrite <- Hav in Ha, Hp.
      destruct (H2 s Hs Ha Hp) as [x [[] _]].
    + rewrite <- Eb in *.
      assert (Hpicked : exists x, In x bag /\
                (match roulette (draws k * fold_left (fun s x => s + w_weight x)%Q bag 0)%Q
                         bag with
                 | Some o => Some o
                 | None => Some (w_orch (last bag x0))
                 end) = Some (w_orch x)).
      { destruct (roulette _ bag) as [o|] eqn:Er.
        - destruct (roulette_member bag _ _ Er) as [x [Hx Ex]].
          exists x. split; [exact Hx | now rewrite Ex].
        - exists (last bag x0). split; [|reflexivity].
          destruct (exists_last (l := bag)) as [l' [a E]];
            [rewrite Eb; discriminate|].
          rewrite E, last_last. apply in_or_app. right. now left. }
      destruct Hpicked as [x [Hx Ex]]. rewrite Ex. split.
      * intros o E. injection E as <-.
        destruct (Hmember x Hx) as [[s [Hs E]] He].
        split; [exists s; split; [exact Hs | exact E] | exact He].
      * split; [discriminate|]. intro H. exfalso.
        destruct (Hmember x Hx) as [[s [Hs E]] He]. apply (H s Hs). now rewrite <- E.
Qed.

Lemma pickOrchestraWeighted_can_fill_the_tanda_witness :
  exists s, In s [Some (js "Pugliese"); Some (js " Di Sarli ")] /\
            js "Di Sarli" = trim (optStr s).
Proof.
  destruct (pickOrchestraWeighted_can_fill_the_tanda (fun _ => 1 # 2)
              Examples.sixTangos (js "Tango") (fun _ => false)
              [Some (js "Pugliese"); Some (js " Di Sarli ")] [] 4 2) as [H _].
  - intro k. split; [discriminate | reflexivity].
  - destruct (H (js "Di Sarli")) as [Hs _]; [vm_compute; reflexivity | exact Hs].
Defined.
(* ------------------------------------------------------------------ *)
(** ** The seconds that merge-duration.js writes, read by the planner *)
(* ------------------------------------------------------------------ *)

Section WholeSeconds.

Local Open Scope Q_scope.

Lemma Math_round_whole (z : Z) : Math_round (inject_Z z) = inject_Z z.
Proof.
  unfold Math_round. f_equal.
  pose proof (Qfloor_le (inject_Z z + (1 # 2))) as Hle.
  pose proof (Qlt_floor (inject_Z z + (1 # 2))) as Hlt.
  assert (H1 : (z <= Qfloor (inject_Z z + (1 # 2)))%Z).
  { rewrite <- (Qfloor_Z z) at 1. apply Qfloor_resp_le. lra. }
  assert (H2 : (Qfloor (inject_Z z + (1 # 2)) < z + 1)%Z).
  { rewrite Zlt_Qlt, inject_Z_plus. change (inject_Z 1) with 1. lra. }
  lia.
Qed.

Lemma toIntSeconds_whole (v : jsval) (n : Q) :
  toIntSeconds v = VNum n -> exists z, n = inject_Z z.
Proof.
  unfold toIntSeconds. destruct v as [|q| |s]; try discriminate.
  - cbn [NumberOf]. intro E. injection E as <-. unfold Math_round. eexists. reflexivity.
  - cbn [NumberOf]. destruct (StringToNumber s) as [num|].
    + intro E. injection E as <-. unfold Math_round. eexists. reflexivity.
    + destruct (clockPattern s); [|discriminate].
      destruct (allFinite _) as [[|a [|b [|c [|d l]]]]|]; try discriminate;
        intro E; injection E as <-; unfold Math_round; eexists; reflexivity.
Qed.

End WholeSeconds.


(* ------------------------------------------------------------------ *)
(** ** The display timeline *)
(* ------------------------------------------------------------------ *)

Section TimelineFacts.

Local Open Scope Q_scope.

Lemma spansFrom_length (td : Tanda) (tracks : list Track) :
  forall j c, List.length (spansFrom td j c tracks) = List.length tracks.
Proof.
  induction tracks as [|tr rest IH]; intros j c; cbn [spansFrom List.length];
    [reflexivity|].
  now rewrite IH.
Qed.

Lemma spansFrom_span (td : Tanda) (tracks : list Track) :
  forall j c k sp,
    nth_error (spansFrom td j c tracks) k = Some sp ->
    ts_index sp = S (j + k) /\
    (k = 0%nat -> ts_startSec sp = c) /\
    exists tr,
      nth_error tracks k = Some tr /\ ts_track sp = tr /\
      ts_endSec sp = ts_startSec sp + trackLength td tr /\
      ts_startClock sp = fmtClock (ts_startSec sp) /\
      ts_endClock sp = fmtClock (ts_endSec sp).
Proof.
  induction tracks as [|tr rest IH]; intros j c k sp H; [destruct k; discriminate|].
  destruct k as [|k]; cbn [spansFrom nth_error] in H.
  - injection H as <-. cbn. rewrite Nat.add_0_r. split; [reflexivity|].
    split; [reflexivity|]. exists tr. repeat split.
  - destruct (IH _ _ _ _ H) as [H1 [_ H3]]. split; [rewrite H1; f_equal; lia|].
    split; [discriminate | exact H3].
Qed.

Lemma spansFrom_next (td : Tanda) (tracks : list Track) :
  forall j c k s1 s2,
    nth_error (spansFrom td j c tracks) k = Some s1 ->
    nth_error (spansFrom td j c tracks) (S k) = Some s2 ->
    ts_startSec s2 = ts_endSec s1.
Proof.
  induction tracks as [|tr rest IH]; intros j c k s1 s2 H1 H2;
    [destruct k; discriminate|].
  destruct k as [|k]; cbn [spansFrom nth_error] in H1, H2.
  - injection H1 as <-. cbn [ts_endSec].
    destruct (spansFrom_span td rest (S j) (c + trackLength td tr) 0%nat s2 H2)
      as [_ [H _]].
    now apply H.
  - exact (IH _ _ _ _ _ H1 H2).
Qed.

Lemma timelineFrom_length (tandas : list Tanda) :
  forall i c, List.length (timelineFrom i c tandas) = List.length tandas.
Proof.
  induction tandas as [|td rest IH]; intros i c; cbn [timelineFrom List.length];
    [reflexivity|].
  now rewrite IH.
Qed.

Lemma timelineFrom_row (tandas : list Tanda) :
  forall i0 c i row,
    nth_error (timelineFrom i0 c tandas) i = Some row ->
    tl_index row = S (i0 + i) /\
    (i = 0%nat -> tl_startSec row = c) /\
    tl_startSec row == c + tandaSecondsTotal (firstn i tandas) /\
    exists td,
      nth_error tandas i = Some td /\
      tl_style row = td_style td /\ tl_durationSec row = td_seconds td /\
      tl_endSec row = tl_startSec row + td_seconds td /\
      tl_startClock row = fmtClock (tl_startSec row) /\
      tl_endClock row = fmtClock (tl_endSec row) /\
      tl_tracks row = spansFrom td 0 (tl_startSec row) (td_tracks td).
Proof.
  induction tandas as [|td rest IH]; intros i0 c i row H; [destruct i; discriminate|].
  destruct i as [|i]; cbn [timelineFrom nth_error] in H.
  - injection H as <-. cbn [tl_index tl_startSec tl_endSec tl_style tl_durationSec
                            tl_startClock tl_endClock tl_tracks firstn
                            tandaSecondsTotal].
    rewrite Nat.add_0_r. split; [reflexivity|]. split; [reflexivity|].
    split; [lra|]. exists td. repeat split.
  - destruct (IH _ _ _ _ H) as [H1 [_ [H2 H3]]].
    split; [rewrite H1; f_equal; lia|]. split; [discriminate|].
    split; [|exact H3].
    rewrite H2. cbn [firstn tandaSecondsTotal]. lra.
Qed.

Lemma timelineFrom_next (tandas : list Tanda) :
  forall i0 c i r1 r2,
    nth_error (timelineFrom i0 c tandas) i = Some r1 ->
    nth_error (timelineFrom i0 c tandas) (S i) = Some r2 ->
    tl_startSec r2 = tl_endSec r1.
Proof.
  induction tandas as [|td rest IH]; intros i0 c i r1 r2 H1 H2;
    [destruct i; discriminate|].
  destruct i as [|i]; cbn [timelineFrom nth_error] in H1, H2.
  - injection H1 as <-. cbn [tl_endSec].
    destruct (timelineFrom_row rest (S i0) (c + td_seconds td) 0%nat r2 H2)
      as [_ [H _]].
    now apply H.
  - exact (IH _ _ _ _ _ H1 H2).
Qed.

Lemma trackLength_nonneg (td : Tanda) (tr : Track) :
  0 <= td_seconds td -> 0 <= trackLength td tr.
Proof.
  intro Hs. unfold trackLength. destruct (Qltb 0 (durationSec tr)) eqn:E.
  - apply Qltb_true in E. lra.
  - set (d := Qmaxq 1 (lengthQ (td_tracks td))).
    assert (Hd : 1 <= d) by apply Qmaxq_spec.
    assert (Hq : 0 <= td_seconds td / d).
    { apply Qle_shift_div_l; lra. }
    unfold Math_round. change 0 with (inject_Z 0). rewrite <- Zle_Qle.
    rewrite <- (Qfloor_Z 0). apply Qfloor_resp_le. change (inject_Z 0) with 0. lra.
Qed.

End TimelineFacts.

(** X23: the rows of [buildDisplayTimeline] tile the evening.  There is
    one row per tanda, numbered from 1, carrying the tanda's seconds; the
    first row starts at 0, every row ends its tanda's seconds after it
    starts, and the next row starts where it ends, so a row starts at the
    summed seconds of the tandas before it; the clocks are those of these
    seconds.  Inside a row there is one span per track, numbered from 1;
    the first starts with the row, each starts where the one before ends,
    and a span lasts the track's duration if that is positive and
    otherwise the rounded share [seconds / max(1, tracks)], which is never
    negative for a tanda of non-negative seconds. *)
Theorem display_timeline_tiles_the_evening :
  forall tandas : list Tanda,
    let rows := buildDisplayTimeline tandas in
    List.length rows = List.length tandas /\
    (forall i row, nth_error rows i = Some row ->
       tl_index row = S i /\
       (tl_startSec row == tandaSecondsTotal (firstn i tandas))%Q /\
       tl_startClock row = fmtClock (tl_startSec row) /\
       tl_endClock row = fmtClock (tl_endSec row) /\
       (forall next, nth_error rows (S i) = Some next ->
                     tl_startSec next = tl_endSec row) /\
       exists td,
         nth_error tandas i = Some td /\
         tl_durationSec row = td_seconds td /\
         tl_endSec row = (tl_startSec row + td_seconds td)%Q /\
         List.length (tl_tracks row) = List.length (td_tracks td) /\
         forall j sp, nth_error (tl_tracks row) j = Some sp ->
           ts_index sp = S j /\
           (j = 0%nat -> ts_startSec sp = tl_startSec row) /\
           (forall after, nth_error (tl_tracks row) (S j) = Some after ->
                          ts_startSec after = ts_endSec sp) /\
           exists tr,
             nth_error (td_tracks td) j = Some tr /\
             ts_endSec sp = (ts_startSec sp + trackLength td tr)%Q /\
             ((0 < durationSec tr)%Q -> trackLength td tr = durationSec tr) /\
             ((0 <= td_seconds td)%Q -> (0 <= trackLength td tr)%Q)).
Proof.
  intros tandas rows. subst rows. unfold buildDisplayTimeline.
  split; [apply timelineFrom_length|].
  intros i row H.
  destruct (timelineFrom_row tandas 0 0 i row H)
    as [H1 [_ [H2 [td [T1 [T2 [T3 [T4 [T5 [T6 T7]]]]]]]]]].
  split; [exact H1|]. split; [rewrite H2; lra|]. split; [exact T5|].
  split; [exact T6|]. split.
  - intros next Hn. exact (timelineFrom_next tandas 0 0 i row next H Hn).
  - exists td. split; [exact T1|]. split; [exact T3|]. split; [exact T4|].
    rewrite T7. split; [apply spansFrom_length|].
    intros j sp Hs.
    destruct (spansFrom_span td (td_tracks td) 0 _ j sp Hs)
      as [S1 [S2 [tr [S3 [_ [S5 _]]]]]].
    split; [exact S1|]. split; [exact S2|]. split.
    + intros after Ha. exact (spansFrom_next td (td_tracks td) 0 _ j sp after Hs Ha).
    + exists tr. split; [exact S3|]. split; [exact S5|]. split.
      * intro Hp. unfold trackLength. apply Qltb_true in Hp. now rewrite Hp.
      * apply trackLength_nonneg.
Qed.

Lemma display_timeline_tiles_the_evening_witness :
  exists row,
    nth_error
      (buildDisplayTimeline
         [{| td_style := js "Tango"; td_role := None;
             td_tracks := Examples.sixTangos; td_seconds := 600 |};
          {| td_style := js "Vals"; td_role := None;
             td_tracks := Examples.fourValses; td_seconds := 600 |}]) 1 = Some row /\
    tl_index row = 2%nat /\ tl_startClock row = js "10:00".
Proof.
  eexists. split; [reflexivity|].
  destruct (display_timeline_tiles_the_evening
              [{| td_style := js "Tango"; td_role := None;
                  td_tracks := Examples.sixTangos; td_seconds := 600 |};
               {| td_style := js "Vals"; td_role := None;
                  td_tracks := Examples.fourValses; td_seconds := 600 |}]) as [_ H].
  destruct (H 1%nat _ eq_refl) as [H1 _].
  split; [exact H1 | vm_compute; reflexivity].
Defined.
(* ------------------------------------------------------------------ *)
(** ** Clock strings read back as seconds *)
(* ------------------------------------------------------------------ *)

Section DigitFacts.

Local Open Scope N_scope.

Lemma digitsValue_app (a b : jsstring) :
  forall acc, digitsValue acc (a ++ b) = digitsValue (digitsValue acc a) b.
Proof.
  induction a as [|c a IH]; intro acc; cbn [app digitsValue]; [reflexivity|].
  apply IH.
Qed.

Lemma digitsFrom_acc (fuel : nat) :
  forall n acc, digitsFrom fuel n acc = digitsFrom fuel n [] ++ acc.
Proof.
  induction fuel as [|f IH]; intros n acc; cbn [digitsFrom]; [reflexivity|].
  destruct (n <? 10); [reflexivity|].
  rewrite (IH _ (_ :: acc)), (IH _ [_]), <- app_assoc. reflexivity.
Qed.

Lemma digit_unit (n : N) : isDigit (48 + n mod 10) = true.
Proof.
  destruct (isDigit (48 + n mod 10)) eqn:E; [reflexivity|].
  unfold isDigit in E. props; lia.
Qed.

Lemma digitsFrom_spec (f : nat) :
  forall n, n < 2 ^ N.of_nat (S f) ->
    forallb isDigit (digitsFrom (S f) n []) = true /\
    digitsFrom (S f) n [] <> [] /\
    digitsValue 0 (digitsFrom (S f) n []) = n.
Proof.
  assert (Hstep : forall g m,
            digitsFrom (S g) m [] =
            if m <? 10 then [48 + m mod 10]
            else digitsFrom g (m / 10) [48 + m mod 10]) by reflexivity.
  induction f as [|f IH]; intros n Hn; rewrite Hstep.
  - change (2 ^ N.of_nat 1) with 2 in Hn.
    replace (n <? 10) with true by (symmetry; apply N.ltb_lt; lia).
    cbn [forallb digitsValue]. rewrite digit_unit.
    split; [reflexivity|]. split; [discriminate | lia].
  - destruct (n <? 10) eqn:E.
    + apply N.ltb_lt in E. cbn [forallb digitsValue]. rewrite digit_unit.
      split; [reflexivity|]. split; [discriminate | lia].
    + apply N.ltb_ge in E. rewrite digitsFrom_acc.
      assert (Hq : n / 10 < 2 ^ N.of_nat (S f)).
      { rewrite Nat2N.inj_succ, N.pow_succ_r' in Hn.
        set (p := 2 ^ N.of_nat (S f)) in *. lia. }
      destruct (IH (n / 10) Hq) as [H1 [H2 H3]].
      split; [|split].
      * rewrite forallb_app, H1. cbn [forallb]. now rewrite digit_unit.
      * intro H. apply app_eq_nil in H as [_ H]. discriminate.
      * rewrite digitsValue_app, H3. cbn [digitsValue]. lia.
Qed.

Lemma decimalString_spec (n : N) :
  forallb isDigit (decimalString n) = true /\
  decimalString n <> [] /\
  digitsValue 0 (decimalString n) = n.
Proof.
  unfold decimalString. apply digitsFrom_spec.
  rewrite Nat2N.inj_succ, N2Nat.id.
  destruct n as [|p]; [reflexivity|].
  apply N.log2_spec. reflexivity.
Qed.

Lemma padStart2_spec (ds : jsstring) :
  forallb isDigit ds = true -> ds <> [] ->
  forallb isDigit (padStart2 ds) = true /\
  padStart2 ds <> [] /\
  digitsValue 0 (padStart2 ds) = digitsValue 0 ds.
Proof.
  intros Hd Hne. unfold padStart2.
  destruct ds as [|a [|b r]]; [contradiction| |]; cbn [List.length Nat.sub repeat app].
  - cbn [forallb] in *. rewrite Hd. repeat split; discriminate.
  - split; [exact Hd|]. split; [discriminate | reflexivity].
Qed.

End DigitFacts.

Section ParseFacts.

Local Open Scope N_scope.

Lemma digit_range (ds : jsstring) :
  forallb isDigit ds = true -> Forall (fun c => 48 <= c <= 57) ds.
Proof.
  intro H. apply Forall_forall. intros c Hc.
  rewrite forallb_forall in H. specialize (H c Hc). unfold isDigit in H. props. lia.
Qed.

Lemma trim_plain (s : jsstring) : Forall (fun c => 48 <= c <= 58) s -> trim s = s.
Proof.
  intro H.
  assert (Hw : Forall (fun c => isWhiteSpace c = false) s).
  { eapply Forall_impl; [|exact H]. intros c Hc. cbv beta in Hc.
    apply isWhiteSpace_printable. lia. }
  destruct s as [|c s]; [reflexivity|].
  unfold trim, trimStart. cbn [dropWhile]. rewrite (Forall_inv Hw).
  apply (trimEnd_app_stop [] (c :: s)); [discriminate | exact Hw].
Qed.

Lemma splitOn_none (sep : N) (a : jsstring) :
  Forall (fun c => c <> sep) a -> splitOn sep a = [a].
Proof.
  induction a as [|c a IH]; intro H; [reflexivity|].
  cbn [splitOn]. replace (c =? sep) with false
    by (symmetry; apply N.eqb_neq; exact (Forall_inv H)).
  now rewrite (IH (Forall_inv_tail H)).
Qed.

Lemma splitOn_at (sep : N) (a b : jsstring) :
  Forall (fun c => c <> sep) a -> splitOn sep (a ++ sep :: b) = a :: splitOn sep b.
Proof.
  induction a as [|c a IH]; intro H; cbn [app splitOn].
  - now rewrite N.eqb_refl.
  - replace (c =? sep) with false
      by (symmetry; apply N.eqb_neq; exact (Forall_inv H)).
    now rewrite (IH (Forall_inv_tail H)).
Qed.

Lemma span_digits (ds : jsstring) :
  forallb isDigit ds = true -> span isDigit ds = (ds, []).
Proof.
  induction ds as [|c ds IH]; intro H; [reflexivity|].
  cbn [forallb] in H. apply andb_true_iff in H as [Hc Hr].
  cbn [span]. now rewrite Hc, (IH Hr).
Qed.

Local Open Scope Q_scope.

Lemma decimalValue_whole (ds : jsstring) :
  decimalValue ds [] == inject_Z (Z.of_N (digitsValue 0 ds)).
Proof.
  unfold decimalValue. rewrite app_nil_r. cbn [List.length].
  change (inject_Z (Z.of_N (10 ^ N.of_nat 0))) with 1. field.
Qed.

Lemma unsignedDecimal_digits (ds : jsstring) :
  forallb isDigit ds = true -> ds <> [] ->
  (digitsValue 0 ds <= 2 ^ 53)%N ->
  unsignedDecimal ds = Some (decimalValue ds []).
Proof.
  intros Hd Hne Hb. unfold unsignedDecimal. rewrite (span_digits ds Hd).
  destruct ds as [|c r]; [contradiction|].
  unfold finiteOrNaN.
  replace (Qle_bool MAX_FINITE (Qabs (decimalValue (c :: r) []))) with false;
    [reflexivity|].
  symmetry. destruct (Qle_bool _ _) eqn:E; [|reflexivity]. exfalso.
  apply Qle_bool_iff in E. rewrite decimalValue_whole in E.
  rewrite Qabs_pos in E
    by (change 0 with (inject_Z 0); rewrite <- Zle_Qle; lia).
  unfold MAX_FINITE in E. rewrite <- Zle_Qle in E.
  assert (H : (Z.of_N (2 ^ 53) < 2 ^ 1024 - 2 ^ 970)%Z) by (vm_compute; reflexivity).
  lia.
Qed.

Lemma StringToNumber_digits (ds : jsstring) :
  forallb isDigit ds = true -> ds <> [] ->
  (digitsValue 0 ds <= 2 ^ 53)%N ->
  StringToNumber ds = Some (decimalValue ds []).
Proof.
  intros Hd Hne Hb.
  pose proof (unsignedDecimal_digits ds Hd Hne Hb) as Hu.
  unfold StringToNumber.
  rewrite (trim_plain ds)
    by (eapply Forall_impl; [|exact (digit_range ds Hd)]; intros c Hc;
        cbv beta in *; lia).
  destruct ds as [|c r]; [contradiction|].
  pose proof (Forall_inv (digit_range _ Hd)) as Hc. cbv beta in Hc.
  assert (Hcases : c = 48%N \/ (49 <= c <= 57)%N) by lia.
  destruct Hcases as [->|Hc'].
  - destruct r as [|x r']; [exact Hu|].
    pose proof (Forall_inv (Forall_inv_tail (digit_range _ Hd))) as Hx. cbv beta in Hx.
    replace ((x =? 120) || (x =? 88))%N with false
      by (symmetry; apply orb_false_iff; split; apply N.eqb_neq; lia).
    replace ((x =? 111) || (x =? 79))%N with false
      by (symmetry; apply orb_false_iff; split; apply N.eqb_neq; lia).
    replace ((x =? 98) || (x =? 66))%N with false
      by (symmetry; apply orb_false_iff; split; apply N.eqb_neq; lia).
    exact Hu.
  - assert (H9 : (c = 49 \/ c = 50 \/ c = 51 \/ c = 52 \/ c = 53 \/ c = 54 \/
                  c = 55 \/ c = 56 \/ c = 57)%N) by lia.
    repeat (destruct H9 as [->|H9]; [exact Hu|]). subst c. exact Hu.
Qed.

End ParseFacts.

Section ClockRoundTrip.

Local Open Scope Q_scope.

Lemma clock_units (s : jsstring) :
  forallb isDigit s = true -> Forall (fun u => (48 <= u <= 58)%N) s.
Proof.
  intro H. eapply Forall_impl; [|exact (digit_range s H)].
  intros u Hu. cbv beta in *. lia.
Qed.

Lemma no_dot (s : jsstring) :
  Forall (fun u => (48 <= u <= 58)%N) s -> Forall (fun u => u <> 46%N) s.
Proof.
  intro H. eapply Forall_impl; [|exact H]. intros u Hu. cbv beta in *. lia.
Qed.

Lemma no_colon (s : jsstring) :
  forallb isDigit s = true -> Forall (fun u => u <> 58%N) s.
Proof.
  intro H. eapply Forall_impl; [|exact (digit_range s H)].
  intros u Hu. cbv beta in *. lia.
Qed.

Lemma plainDecimal_clock (x y : jsstring) :
  forallb isDigit x = true -> forallb isDigit y = true ->
  Forall (fun u => (48 <= u <= 58)%N) y ->
  plainDecimal (x ++ 58%N :: y) = None.
Proof.
  intros Hx _ Hy. unfold plainDecimal.
  rewrite splitOn_none.
  - unfold allDigits. destruct (x ++ 58%N :: y) eqn:E; [reflexivity|].
    rewrite <- E, forallb_app. cbn [forallb].
    change (isDigit 58) with false. now rewrite andb_false_r.
  - apply no_dot. apply Forall_app. split; [now apply clock_units|].
    constructor; [lia | exact Hy].
Qed.

(** Runs of digits that stand for at most 2^53. *)
Variables (a b : jsstring).
Hypothesis a_digits : forallb isDigit a = true /\ a <> [] /\ (digitsValue 0 a <= 2 ^ 53)%N.
Hypothesis b_digits : forallb isDigit b = true /\ b <> [] /\ (digitsValue 0 b <= 2 ^ 53)%N.

Lemma secondsOfString_two (otherwise : Q) :
  secondsOfString otherwise (a ++ js ":" ++ b) ==
  inject_Z (Z.of_N (digitsValue 0 a)) * 60 + inject_Z (Z.of_N (digitsValue 0 b)).
Proof.
  destruct a_digits as [A1 [A2 A3]], b_digits as [B1 [B2 B3]].
  change (js ":" ++ b) with (58%N :: b). unfold secondsOfString.
  rewrite trim_plain
    by (apply Forall_app; split; [now apply clock_units|];
        constructor; [lia | now apply clock_units]).
  rewrite plainDecimal_clock by (try assumption; now apply clock_units).
  rewrite splitOn_at by now apply no_colon.
  rewrite splitOn_none by now apply no_colon.
  cbn [map]. rewrite !StringToNumber_digits by assumption.
  cbn [allFinite option_map]. rewrite !decimalValue_whole. reflexivity.
Qed.

Variable c : jsstring.
Hypothesis c_digits : forallb isDigit c = true /\ c <> [] /\ (digitsValue 0 c <= 2 ^ 53)%N.

Lemma secondsOfString_three (otherwise : Q) :
  secondsOfString otherwise (a ++ js ":" ++ b ++ js ":" ++ c) ==
  inject_Z (Z.of_N (digitsValue 0 a)) * 3600 +
  inject_Z (Z.of_N (digitsValue 0 b)) * 60 + inject_Z (Z.of_N (digitsValue 0 c)).
Proof.
  destruct a_digits as [A1 [A2 A3]], b_digits as [B1 [B2 B3]],
           c_digits as [C1 [C2 C3]].
  change (js ":" ++ b ++ js ":" ++ c) with (58%N :: b ++ 58%N :: c).
  assert (Htail : Forall (fun u => (48 <= u <= 58)%N) (b ++ 58%N :: c)).
  { apply Forall_app. split; [now apply clock_units|].
    constructor; [lia | now apply clock_units]. }
  unfold secondsOfString.
  rewrite trim_plain
    by (apply Forall_app; split; [now apply clock_units|];
        constructor; [lia | exact Htail]).
  assert (Hp : plainDecimal (a ++ 58%N :: b ++ 58%N :: c) = None).
  { unfold plainDecimal. rewrite splitOn_none.
    - unfold allDigits. destruct (a ++ 58%N :: b ++ 58%N :: c) eqn:E; [reflexivity|].
      rewrite <- E, forallb_app. cbn [forallb].
      change (isDigit 58) with false. now rewrite andb_false_r.
    - apply no_dot. apply Forall_app. split; [now apply clock_units|].
      constructor; [lia | exact Htail]. }
  rewrite Hp.
  rewrite splitOn_at by now apply no_colon.
  rewrite splitOn_at by now apply no_colon.
  rewrite splitOn_none by now apply no_colon.
  cbn [map]. rewrite !StringToNumber_digits by assumption.
  cbn [allFinite option_map]. rewrite !decimalValue_whole. reflexivity.
Qed.

End ClockRoundTrip.

Section ClockParts.

Lemma clock_part (n : N) :
  (n <= 2 ^ 53)%N ->
  (forallb isDigit (decimalString n) = true /\ decimalString n <> [] /\
   (digitsValue 0 (decimalString n) <= 2 ^ 53)%N) /\
  (forallb isDigit (padStart2 (decimalString n)) = true /\
   padStart2 (decimalString n) <> [] /\
   (digitsValue 0 (padStart2 (decimalString n)) <= 2 ^ 53)%N) /\
  digitsValue 0 (decimalString n) = n /\
  digitsValue 0 (padStart2 (decimalString n)) = n.
Proof.
  intro Hn. destruct (decimalString_spec n) as [H1 [H2 H3]].
  destruct (padStart2_spec (decimalString n) H1 H2) as [P1 [P2 P3]].
  rewrite P3, H3. repeat split; assumption.
Qed.

Lemma clock_sum (s : N) :
  (Z.of_N (s / 3600) * 3600 + Z.of_N ((s mod 3600) / 60) * 60 + Z.of_N (s mod 60)
   = Z.of_N s)%Z.
Proof. lia. Qed.

Lemma fmtClock_value (otherwise : Q) (totalSec : Q) :
  (wholeSeconds totalSec <= 2 ^ 53)%N ->
  (secondsOfString otherwise (fmtClock totalSec) ==
   inject_Z (Z.of_N (wholeSeconds totalSec)))%Q.
Proof.
  intro Hb. unfold fmtClock.
  set (s := wholeSeconds totalSec) in *.
  assert (Hh : (s / 3600 <= 2 ^ 53)%N).
  { change (2 ^ 53)%N with 9007199254740992%N in *. lia. }
  assert (Hm : ((s mod 3600) / 60 <= 2 ^ 53)%N).
  { change (2 ^ 53)%N with 9007199254740992%N in *. lia. }
  assert (Hs : (s mod 60 <= 2 ^ 53)%N).
  { change (2 ^ 53)%N with 9007199254740992%N in *. lia. }
  destruct (clock_part _ Hh) as [H1 [_ [H3 _]]].
  destruct (clock_part _ Hm) as [M1 [M2 [M3 M4]]].
  destruct (clock_part _ Hs) as [_ [S2 [_ S4]]].
  destruct (0 <? s / 3600)%N eqn:E.
  - rewrite (secondsOfString_three _ _ H1 M2 _ S2 otherwise).
    rewrite H3, M4, S4. rewrite <- (clock_sum s).
    rewrite !inject_Z_plus, !inject_Z_mult. reflexivity.
  - apply N.ltb_ge in E.
    rewrite (secondsOfString_two _ _ M1 S2 otherwise).
    rewrite M3, S4. rewrite <- (clock_sum s).
    replace (s / 3600)%N with 0%N by lia.
    rewrite !inject_Z_plus, !inject_Z_mult. cbn [Z.of_N]. change (inject_Z 0) with 0%Q.
    ring.
Qed.

End ClockParts.

(** X24: a clock written by [fmtClock] reads back as its seconds.  For a
    time of at most 2^53 seconds each of the three duration parsers turns
    the clock string, of either form [m:ss] or [h:mm:ss], into the whole
    seconds it was written from, which are the rounded time when that is
    not negative and 0 otherwise. *)
Theorem fmtClock_reads_back_as_its_seconds :
  forall totalSec : Q,
    (wholeSeconds totalSec <= 2 ^ 53)%N ->
    let seconds := inject_Z (Z.of_N (wholeSeconds totalSec)) in
    (toSeconds (VStr (fmtClock totalSec)) == seconds)%Q /\
    (durationSecSafe_parse (VStr (fmtClock totalSec)) == seconds)%Q /\
    (djlib_toSeconds (VStr (fmtClock totalSec)) == seconds)%Q /\
    ((0 <= totalSec)%Q -> seconds = Math_round totalSec) /\
    ((totalSec < 0)%Q -> seconds = 0%Q).
Proof.
  intros totalSec Hb seconds. subst seconds.
  split; [exact (fmtClock_value 165 totalSec Hb)|].
  split; [exact (fmtClock_value 0 totalSec Hb)|].
  split; [exact (fmtClock_value 0 totalSec Hb)|].
  unfold wholeSeconds, Math_round. split.
  - intro H0.
    assert (Hf : (0 <= Qfloor (totalSec + (1 # 2)))%Z).
    { rewrite <- (Qfloor_Z 0). apply Qfloor_resp_le. change (inject_Z 0) with 0%Q. lra. }
    f_equal. lia.
  - intro Hneg.
    assert (Hf : (Qfloor (totalSec + (1 # 2)) <= 0)%Z).
    { pose proof (Qfloor_le (totalSec + (1 # 2))) as Hle.
      assert (H1 : (Qfloor (totalSec + (1 # 2)) < 1)%Z).
      { rewrite Zlt_Qlt. change (inject_Z 1) with 1%Q. lra. }
      lia. }
    replace (Z.of_N (Z.to_N (Z.max 0 (Qfloor (totalSec + (1 # 2)))))) with 0%Z by lia.
    reflexivity.
Qed.

Lemma fmtClock_reads_back_as_its_seconds_witness :
  fmtClock 3725 = js "1:02:05" /\
  (toSeconds (VStr (fmtClock 3725)) == 3725)%Q.
Proof.
  split; [vm_compute; reflexivity|].
  destruct (fmtClock_reads_back_as_its_seconds 3725) as [H _].
  - vm_compute. discriminate.
  - rewrite H. vm_compute. reflexivity.
Defined.
(* ------------------------------------------------------------------ *)
(** ** The orchestra a slot of the streaming route is planned for *)
(* ------------------------------------------------------------------ *)

Section TargetFacts.

Lemma orchestrasOf_from (pool : list Track) :
  forall acc : KeySet,
    forall o, In o (fold_left (fun acc t => Set_add acc (orchestraOf t)) pool acc) <->
              In o acc \/ exists t, In t pool /\ orchestraOf t = o.
Proof.
  induction pool as [|t pool IH]; intros acc o; cbn [fold_left].
  - split; [auto|]. intros [H|[t [[] _]]]. exact H.
  - rewrite IH, <- !Set_has_In, Set_has_add. split.
    + intros [[H|H]|[t' [Hin E]]].
      * now left.
      * right. exists t. split; [now left | now symmetry].
      * right. exists t'. split; [now right | exact E].
    + intros [H|[t' [[->|Hin] E]]].
      * left. now left.
      * left. right. now symmetry.
      * right. exists t'. split; assumption.
Qed.

Lemma orchestrasOf_spec (pool : list Track) (o : jsstring) :
  In o (orchestrasOf pool) <-> exists t, In t pool /\ orchestraOf t = o.
Proof.
  unfold orchestrasOf. rewrite orchestrasOf_from. split; [|now right].
  intros [[]|H]. exact H.
Qed.

End TargetFacts.

(** X25: the orchestra a slot is planned for.  A target is never the
    empty name, has at least [sizeTarget] tracks in the slot's pool, and
    is a trimmed suggestion of the ranking agent or, failing those, an
    orchestra of the pool; the first suggestion with enough tracks wins
    when its name is not empty.  As long as the pool does not hold
    [sizeTarget] tracks without an artist name, no target is found exactly
    when no suggestion and no orchestra of the pool has enough tracks. *)
Theorem pickTarget_has_enough_tracks :
  forall (pool : list Track) (sizeTarget : Z) (suggestions : list jsstring),
    let enough := fun o => (sizeTarget <= availability pool o)%Z in
    let named := fun o =>
      In o (map trim suggestions) \/ exists t, In t pool /\ orchestraOf t = o in
    (forall o, pickTarget pool sizeTarget suggestions = Some o ->
               o <> [] /\ enough o /\ named o) /\
    (forall before o after,
       map trim suggestions = before ++ o :: after ->
       (forall x, In x before -> ~ enough x) -> enough o -> o <> [] ->
       pickTarget pool sizeTarget suggestions = Some o) /\
    (~ enough [] ->
     (pickTarget pool sizeTarget suggestions = None <->
      forall o, named o -> ~ enough o)).
Proof.
  intros pool sizeTarget suggestions enough named.
  set (test := fun orch => (sizeTarget <=? availability pool orch)%Z).
  assert (Htest : forall o, test o = true <-> enough o).
  { intro o. unfold test, enough. apply Z.leb_le. }
  assert (Hfind : forall l o, find test l = Some o -> In o l /\ enough o).
  { intros l o H. apply find_some in H as [H1 H2]. split; [exact H1 | now apply Htest]. }
  unfold pickTarget. fold test.
  split; [|split].
  - intros o H.
    destruct (find test (map trim suggestions)) as [[|c s]|] eqn:Es; cbn [truthyStr] in H.
    + destruct (find test (orchestrasOf pool)) as [[|c' s']|] eqn:Eo;
        cbn [truthyStr] in H; try discriminate.
      injection H as <-. apply Hfind in Eo as [H1 H2].
      split; [discriminate|]. split; [exact H2|]. right. now apply orchestrasOf_spec.
    + injection H as <-. apply Hfind in Es as [H1 H2].
      split; [discriminate|]. split; [exact H2|]. now left.
    + destruct (find test (orchestrasOf pool)) as [[|c' s']|] eqn:Eo;
        cbn [truthyStr] in H; try discriminate.
      injection H as <-. apply Hfind in Eo as [H1 H2].
      split; [discriminate|]. split; [exact H2|]. right. now apply orchestrasOf_spec.
  - intros before o after E Hb Ho Hne.
    assert (Hf : find test (map trim suggestions) = Some o).
    { rewrite E. clear E. induction before as [|x before IH]; cbn [app find].
      - now replace (test o) with true by (symmetry; now apply Htest).
      - destruct (test x) eqn:Ex.
        + exfalso. apply (Hb x); [now left | now apply Htest].
        + apply IH. intros y Hy. apply Hb. now right. }
    rewrite Hf. destruct o as [|c s]; [contradiction | reflexivity].
  - intro Hblank. split.
    + intros H o Hn He.
      destruct (find test (map trim suggestions)) as [[|c s]|] eqn:Es;
        cbn [truthyStr] in H.
      * apply Hfind in Es as [_ Hx]. contradiction.
      * discriminate.
      * destruct (find test (orchestrasOf pool)) as [[|c' s']|] eqn:Eo;
          cbn [truthyStr] in H; try discriminate.
        -- apply Hfind in Eo as [_ Hx]. contradiction.
        -- destruct Hn as [Hn|Hn].
           ++ pose proof (find_none _ _ Es o Hn) as Hx. fold (test o) in Hx.
              apply Htest in He. congruence.
           ++ apply orchestrasOf_spec in Hn.
              pose proof (find_none _ _ Eo o Hn) as Hx. fold (test o) in Hx.
              apply Htest in He. congruence.
    + intro H.
      destruct (find test (map trim suggestions)) as [x|] eqn:Es.
      * exfalso. apply Hfind in Es as [H1 H2]. apply (H x); [now left | exact H2].
      * cbn [truthyStr].
        destruct (find test (orchestrasOf pool)) as [x|] eqn:Eo; [|reflexivity].
        exfalso. apply Hfind in Eo as [H1 H2].
        apply (H x); [right; now apply orchestrasOf_spec | exact H2].
Qed.

Lemma pickTarget_has_enough_tracks_witness :
  pickTarget Examples.sixTangos 4 [js "Pugliese"; js " Di Sarli "] = Some (js "Di Sarli").
Proof.
  destruct (pickTarget_has_enough_tracks Examples.sixTangos 4
              [js "Pugliese"; js " Di Sarli "]) as [_ [H _]].
  apply (H [js "Pugliese"] (js "Di Sarli") []).
  - vm_compute. reflexivity.
  - intros x [<-|[]]. vm_compute. intro E. apply E. reflexivity.
  - vm_compute. discriminate.
  - discriminate.
Defined.
